(** * ObjectStreamOut and hash_combine: a shallow embedding

    The development follows [Jolt/ObjectStream/ObjectStreamOut.cpp] and
    [Jolt/Core/HashCombine.h].  The serializer state is a record that is
    threaded through every member function; the output stream is the
    sequence of format-writer calls that took effect. *)

From Stdlib Require Import ZArith.
From stdpp Require Import gmap strings list fin_maps.

Open Scope N_scope.

(* ===================================================================== *)
(** * Jolt/Core/HashCombine.h *)
(* ===================================================================== *)

Module HashCombine.
Section HashCombine.

(** Width in bits of [std::size_t]. *)
Variable bits : Z.

(** The type of the hashed fields and its [std::hash<T>]; a functor with
    fields of several types is obtained with a sum type for [T]. *)
Variable T : Type.
Variable hasher : T → Z.

Definition wrap (z : Z) : Z := (z mod 2 ^ bits)%Z.

(** [ioSeed ^= hasher(inValue) + 0x9e3779b9 + (ioSeed << 6) + (ioSeed >> 2)],
    every intermediate result reduced to [size_t]. *)
Definition combine (ioSeed : Z) (inValue : T) : Z :=
  Z.lxor ioSeed
    (wrap (wrap (wrap (hasher inValue + 0x9e3779b9) + wrap (Z.shiftl ioSeed 6))
           + Z.shiftr ioSeed 2)).

(** The two overloads: the empty parameter pack returns at once, the other
    one combines [inValue] and recurses on [inRest...]. *)
Fixpoint hash_combine (ioSeed : Z) (inRest : list T) : Z :=
  match inRest with
  | [] => ioSeed
  | inValue :: inRest' => hash_combine (combine ioSeed inValue) inRest'
  end.

(** [JPH_MAKE_HASH_STRUCT(type, name, ...)]: [fields t] is the list
    [__VA_ARGS__] evaluated on [t]. *)
Definition hash_struct {type : Type} (fields : type → list T) (t : type) : Z :=
  let ret := 0%Z in
  hash_combine ret (fields t).

(** The step as the specification words it, on unbounded integers reduced
    once at the end. *)
Definition spec_step (seed : Z) (value : T) : Z :=
  Z.lxor seed
    (wrap (hasher value + 0x9e3779b9 + Z.shiftl seed 6 + Z.shiftr seed 2)).

End HashCombine.
End HashCombine.

(* ===================================================================== *)
(** * Jolt/ObjectStream/ObjectStreamOut.cpp *)
(* ===================================================================== *)

(** ** What the serializer is given *)

(** [Identifier], [const void *] and [const RTTI *] are numbers: the null
    identifier and the null pointers are [0].

    Modelled from the spec: [ObjectStream.h], which declares [Identifier],
    is not part of the sources; the specification makes it a monotonically
    increasing integer, so it is an unbounded [N] here. *)
Abbreviation Identifier := N (only parsing).
Abbreviation Pointer := N (only parsing).
Abbreviation RTTIPtr := N (only parsing).

Definition sNullIdentifier : Identifier := 0.
Definition nullptr : Pointer := 0.

(** Modelled from the spec: the enumeration [EDataType] of [ObjectStream.h].
    [Declare] and [Object] are the two record tags used in
    [ObjectStreamOut.cpp]; [T_ name] is [EDataType::T_##name] of the
    primitive [name]; the other tags describe members. *)
Inductive MemberDataType := Instance | PointerTo | Array | T_ (name : string).
Inductive EDataType := Object | Member (t : MemberDataType) | Declare.

(** A value accepted by one of the [WritePrimitiveData] overloads. *)
Record PrimitiveData := Primitive { prim_type : string; prim_value : Z }.

(** The pure virtual interface of [ObjectStreamOut], implemented by the text
    and the binary writer: one token per call. *)
Inductive Token :=
| TDataType (t : EDataType)
| TName (name : string)
| TIdentifier (id : Identifier)
| TCount (n : N)
| TPrimitiveData (v : PrimitiveData)
| THintNextItem
| THintIndentUp
| THintIndentDown.

(** Modelled from the spec: what [attr->WriteDataType(ioStream)] does, for an
    attribute class that is not part of the sources: it emits the
    attribute's own data-type tag, a sequence of member tags and names. *)
Inductive TypeCall :=
| CallWriteDataType (t : MemberDataType)
| CallWriteName (name : string).

(** Modelled from the spec: what [attr->WriteData(ioStream, inInstance)]
    does: the calls it makes on the serializer that it is handed.  An
    object embedded by value is written with [WriteClassData]; an instance
    is given by its members: entry [i] is what attribute [i] of its class
    writes for it. *)
#[warnings="-register-all"]
Inductive DataCall :=
| CallHintNextItem
| CallHintIndentUp
| CallHintIndentDown
| CallWriteCount (n : N)
| CallWritePrimitiveData (v : PrimitiveData)
| CallWritePointerData (inRTTI : RTTIPtr) (inPointer : Pointer)
| CallWriteClassData (inRTTI : RTTIPtr) (inInstance : list (list DataCall)).


Module SerializableAttribute.
Record t := Make {
  GetName : string;
  GetMemberPrimitiveType : option RTTIPtr;   (* [None] is [nullptr] *)
  WriteDataType : list TypeCall }.
End SerializableAttribute.

(** An [RTTIAttribute] either is a [SerializableAttribute] or is not. *)
Inductive RTTIAttribute :=
| Serializable (attr : SerializableAttribute.t)
| OtherAttribute.

Definition DynamicCast (a : RTTIAttribute) : option SerializableAttribute.t :=
  match a with
  | Serializable attr => Some attr
  | OtherAttribute => None
  end.

Module RTTI.
Record t := Make {
  GetName : string;
  Attributes : list RTTIAttribute }.
Definition GetAttributeCount (r : t) : N := N.of_nat (length (Attributes r)).
Definition empty : t := {| GetName := ""; Attributes := [] |}.
End RTTI.

#[export] Instance RTTI_inhabited : Inhabited RTTI.t := populate RTTI.empty.

(** An object in memory: its dynamic type and its members. *)
Record ObjectData := MakeObject {
  GetRTTI : RTTIPtr;
  Members : list (list DataCall) }.

#[export] Instance ObjectData_inhabited : Inhabited ObjectData :=
  populate {| GetRTTI := 0; Members := [] |}.

(** ** The stream *)

(** [std::ostream] as far as the serializer observes it: what has been
    written, and the fail state.  [room] is the number of writes the
    destination still accepts ([None]: it never faults); a write in the
    fail state has no effect. *)
Record ostream := MakeStream {
  written : list Token;
  room : option nat;
  failbit : bool }.

Definition put (t : Token) (os : ostream) : ostream :=
  if failbit os then os
  else match room os with
       | None => {| written := written os ++ [t]; room := None; failbit := false |}
       | Some O => {| written := written os; room := Some O; failbit := true |}
       | Some (S n) => {| written := written os ++ [t]; room := Some n; failbit := false |}
       end.

Definition open_stream (capacity : option nat) : ostream :=
  {| written := []; room := capacity; failbit := false |}.

(** ** The serializer state *)

Record ObjectInfo := MakeInfo {
  mIdentifier : Identifier;
  mRTTI : RTTIPtr }.

Record ObjectStreamOut := MakeOut {
  mStream : ostream;
  mNextIdentifier : Identifier;
  mIdentifierMap : gmap N ObjectInfo;
  mObjectQueue : list N;
  mClassSet : gset N;
  mClassQueue : list N }.

Definition set_mStream (f : ostream → ostream) (s : ObjectStreamOut) :=
  {| mStream := f (mStream s); mNextIdentifier := mNextIdentifier s;
     mIdentifierMap := mIdentifierMap s; mObjectQueue := mObjectQueue s;
     mClassSet := mClassSet s; mClassQueue := mClassQueue s |}.
Definition set_mNextIdentifier (f : N → N) (s : ObjectStreamOut) :=
  {| mStream := mStream s; mNextIdentifier := f (mNextIdentifier s);
     mIdentifierMap := mIdentifierMap s; mObjectQueue := mObjectQueue s;
     mClassSet := mClassSet s; mClassQueue := mClassQueue s |}.
Definition set_mIdentifierMap (f : gmap N ObjectInfo → gmap N ObjectInfo)
    (s : ObjectStreamOut) :=
  {| mStream := mStream s; mNextIdentifier := mNextIdentifier s;
     mIdentifierMap := f (mIdentifierMap s); mObjectQueue := mObjectQueue s;
     mClassSet := mClassSet s; mClassQueue := mClassQueue s |}.
Definition set_mObjectQueue (f : list N → list N) (s : ObjectStreamOut) :=
  {| mStream := mStream s; mNextIdentifier := mNextIdentifier s;
     mIdentifierMap := mIdentifierMap s; mObjectQueue := f (mObjectQueue s);
     mClassSet := mClassSet s; mClassQueue := mClassQueue s |}.
Definition set_mClassSet (f : gset N → gset N) (s : ObjectStreamOut) :=
  {| mStream := mStream s; mNextIdentifier := mNextIdentifier s;
     mIdentifierMap := mIdentifierMap s; mObjectQueue := mObjectQueue s;
     mClassSet := f (mClassSet s); mClassQueue := mClassQueue s |}.
Definition set_mClassQueue (f : list N → list N) (s : ObjectStreamOut) :=
  {| mStream := mStream s; mNextIdentifier := mNextIdentifier s;
     mIdentifierMap := mIdentifierMap s; mObjectQueue := mObjectQueue s;
     mClassSet := mClassSet s; mClassQueue := f (mClassQueue s) |}.

(** [std::unordered_map::insert]: an existing key keeps its value. *)
Definition map_insert (k : N) (v : ObjectInfo) (m : gmap N ObjectInfo) :
    gmap N ObjectInfo :=
  match m !! k with
  | Some _ => m
  | None => <[k := v]> m
  end.

(** [std::queue]: [push] at the back, [front] and [pop] at the front. *)
Definition push {A} (x : A) (q : list A) : list A := q ++ [x].
Definition pop {A} (q : list A) : list A := tail q.

(** How a member function ends: it returns, or trips a [JPH_ASSERT], or (in
    this embedding only) a [while] loop exhausts the iterations it was
    given. *)
Inductive Outcome (A : Type) :=
| Returns (a : A)
| AssertionFailure
| OutOfFuel.
Arguments Returns {A} a.
Arguments AssertionFailure {A}.
Arguments OutOfFuel {A}.

#[export] Instance Outcome_bind : MBind Outcome := λ A B k o,
  match o with
  | Returns a => k a
  | AssertionFailure => AssertionFailure
  | OutOfFuel => OutOfFuel
  end.

(** The writer interface, each call one token on [mStream]. *)
Definition emit (t : Token) : ObjectStreamOut → ObjectStreamOut :=
  set_mStream (put t).

Definition WriteDataType (t : EDataType) := emit (TDataType t).
Definition WriteName (name : string) := emit (TName name).
Definition WriteIdentifier (id : Identifier) := emit (TIdentifier id).
Definition WriteCount (n : N) := emit (TCount n).
Definition WritePrimitiveData (v : PrimitiveData) := emit (TPrimitiveData v).
Definition HintNextItem := emit THintNextItem.
Definition HintIndentUp := emit THintIndentUp.
Definition HintIndentDown := emit THintIndentDown.

Definition fail (s : ObjectStreamOut) : bool := failbit (mStream s).

(** [OSWriteDataType] and [OSWriteData] of a primitive, as the macro
    [JPH_DECLARE_PRIMITIVE] at the end of the file defines them. *)
Definition OSWriteDataType (name : string) : list TypeCall :=
  [CallWriteDataType (T_ name)].
Definition OSWriteData (inPrimitive : PrimitiveData) : list DataCall :=
  [CallHintNextItem; CallWritePrimitiveData inPrimitive].

Section Serializer.

(** The reflection data the [RTTI] pointers point to, the objects the
    [void] pointers point to, and the primitives that
    [ObjectStreamTypes.h] lists (as [JPH_RTTI(name)]). *)
Variable classes : gmap N RTTI.t.
Variable heap : gmap N ObjectData.
Variable primitives : list RTTIPtr.

Definition rtti (inRTTI : RTTIPtr) : RTTI.t := classes !!! inRTTI.
Definition object (inObject : Pointer) : ObjectData := heap !!! inObject.

(** The constructor: [mNextIdentifier(sNullIdentifier + 1)], and every
    primitive inserted in the class set. *)
Definition ObjectStreamOut_new (inStream : ostream) : ObjectStreamOut :=
  {| mStream := inStream;
     mNextIdentifier := sNullIdentifier + 1;
     mIdentifierMap := ∅;
     mObjectQueue := [];
     mClassSet := foldr (λ name set, {[name]} ∪ set) ∅ primitives;
     mClassQueue := [] |}.

Definition QueueRTTI (inRTTI : RTTIPtr) (s : ObjectStreamOut) : ObjectStreamOut :=
  if decide (inRTTI ∈ mClassSet s) then s
  else set_mClassQueue (push inRTTI) (set_mClassSet (λ set, {[inRTTI]} ∪ set) s).

(** The body of the attribute loop of [WriteRTTI]. *)
Definition WriteRTTI_attribute (s : ObjectStreamOut) (a : RTTIAttribute) :
    ObjectStreamOut :=
  match DynamicCast a with
  | None => s
  | Some attr =>
      let s := match SerializableAttribute.GetMemberPrimitiveType attr with
               | Some rtti => QueueRTTI rtti s
               | None => s
               end in
      let s := HintNextItem s in
      let s := WriteName (SerializableAttribute.GetName attr) s in
      fold_left (λ s c, match c with
                        | CallWriteDataType t => WriteDataType (Member t) s
                        | CallWriteName n => WriteName n s
                        end)
                (SerializableAttribute.WriteDataType attr) s
  end.

Definition WriteRTTI (inRTTI : RTTIPtr) (s : ObjectStreamOut) : ObjectStreamOut :=
  let s := HintNextItem s in
  let s := HintNextItem s in
  let s := WriteDataType (Declare) s in
  let s := WriteName (RTTI.GetName (rtti inRTTI)) s in
  let s := WriteCount (RTTI.GetAttributeCount (rtti inRTTI)) s in
  let s := HintIndentUp s in
  let s := fold_left WriteRTTI_attribute (RTTI.Attributes (rtti inRTTI)) s in
  HintIndentDown s.

Definition WritePointerData (inRTTI : RTTIPtr) (inPointer : Pointer)
    (s : ObjectStreamOut) : ObjectStreamOut :=
  let '(identifier, s) :=
    if decide (inPointer ≠ nullptr) then
      match mIdentifierMap s !! inPointer with
      | Some i => (mIdentifier i, s)
      | None =>
          let identifier := mNextIdentifier s in
          let s := set_mNextIdentifier N.succ s in
          let s := set_mIdentifierMap
                     (map_insert inPointer (MakeInfo identifier inRTTI)) s in
          (identifier, set_mObjectQueue (push inPointer) s)
      end
    else (sNullIdentifier, s) in
  let s := HintNextItem s in
  WriteIdentifier identifier s.

(** The attribute loop of [WriteClassData] over the members of an
    instance; [WriteData] is what a serializable attribute does with the
    calls of its member. *)
Definition WriteClassData_attributes (WriteData : DataCall → ObjectStreamOut → ObjectStreamOut) :
    list (list DataCall) → list RTTIAttribute → ObjectStreamOut → ObjectStreamOut :=
  fix loop (inInstance : list (list DataCall)) (attrs : list RTTIAttribute)
      (s : ObjectStreamOut) {struct inInstance} : ObjectStreamOut :=
    match inInstance, attrs with
    | member :: inInstance', a :: attrs' =>
        loop inInstance' attrs'
          match DynamicCast a with
          | None => s
          | Some _ => fold_left (λ s c, WriteData c s) member s
          end
    | _, _ => s
    end.

Fixpoint WriteData (c : DataCall) (s : ObjectStreamOut) {struct c} : ObjectStreamOut :=
  match c with
  | CallHintNextItem => HintNextItem s
  | CallHintIndentUp => HintIndentUp s
  | CallHintIndentDown => HintIndentDown s
  | CallWriteCount n => WriteCount n s
  | CallWritePrimitiveData v => WritePrimitiveData v s
  | CallWritePointerData inRTTI inPointer => WritePointerData inRTTI inPointer s
  | CallWriteClassData inRTTI inInstance =>
      let s := HintIndentUp s in
      let s := WriteClassData_attributes WriteData inInstance
                 (RTTI.Attributes (rtti inRTTI)) s in
      HintIndentDown s
  end.

(** [WriteClassData] on the members of an instance. *)
Definition WriteClassData_members (inRTTI : RTTIPtr) (inInstance : list (list DataCall)) :
    ObjectStreamOut → ObjectStreamOut :=
  WriteData (CallWriteClassData inRTTI inInstance).

(** [WriteClassData(inRTTI, inInstance)] on a pointer. *)
Definition WriteClassData (inRTTI : RTTIPtr) (inInstance : Pointer)
    (s : ObjectStreamOut) : Outcome ObjectStreamOut :=
  if decide (inInstance = nullptr) then AssertionFailure   (* JPH_ASSERT(inInstance) *)
  else Returns (WriteClassData_members inRTTI (Members (object inInstance)) s).

(** The loop of [WriteObject] that writes the queued class descriptions. *)
Fixpoint WriteObject_classes (fuel : nat) (s : ObjectStreamOut) : Outcome ObjectStreamOut :=
  match mClassQueue s with
  | [] => Returns s
  | front :: _ =>
      if fail s then Returns s
      else match fuel with
           | O => OutOfFuel
           | S fuel' =>
               let s := WriteRTTI front s in
               let s := set_mClassQueue pop s in
               WriteObject_classes fuel' s
           end
  end.

Definition WriteObject (fuel : nat) (inObject : Pointer) (s : ObjectStreamOut) :
    Outcome ObjectStreamOut :=
  match mIdentifierMap s !! inObject with
  | None => AssertionFailure        (* JPH_ASSERT(i != mIdentifierMap.end()) *)
  | Some i =>
      s ← WriteObject_classes fuel (QueueRTTI (mRTTI i) s) ;
      let s := HintNextItem s in
      let s := HintNextItem s in
      let s := WriteDataType Object s in
      let s := WriteName (RTTI.GetName (rtti (mRTTI i))) s in
      let s := WriteIdentifier (mIdentifier i) s in
      WriteClassData (mRTTI i) inObject s
  end.

(** The loop of [Write] over the linked objects; every [WriteObject] is
    given [fuel] iterations for its own loop. *)
Fixpoint Write_linked (fuel : nat) (n : nat) (s : ObjectStreamOut) :
    Outcome ObjectStreamOut :=
  match mObjectQueue s with
  | [] => Returns s
  | linked_object :: _ =>
      if fail s then Returns s
      else match n with
           | O => OutOfFuel
           | S n' =>
               s ← WriteObject fuel linked_object s;
               Write_linked fuel n' (set_mObjectQueue pop s)
           end
  end.

Definition Write (fuel : nat) (inObject : Pointer) (inRTTI : RTTIPtr)
    (s : ObjectStreamOut) : Outcome (bool * ObjectStreamOut) :=
  let identifier := mNextIdentifier s in
  let s := set_mNextIdentifier N.succ s in
  let s := set_mIdentifierMap (map_insert inObject (MakeInfo identifier inRTTI)) s in
  s ← WriteObject fuel inObject s;
  s ← Write_linked fuel fuel s;
  Returns (negb (fail s), s).


(** ** The elementary steps of the member functions

    [WriteRTTI], [WriteClassData] and the attribute callbacks are
    sequences of three kinds of steps: a call on the writer interface, a
    [QueueRTTI] and a [WritePointerData].  The sequences are computed here
    without the state, and shown to be what the member functions do. *)

Inductive Action :=
| AEmit (t : Token)
| AQueueRTTI (inRTTI : RTTIPtr)
| APointerData (inRTTI : RTTIPtr) (inPointer : Pointer).

Definition run_action (s : ObjectStreamOut) (a : Action) : ObjectStreamOut :=
  match a with
  | AEmit t => emit t s
  | AQueueRTTI inRTTI => QueueRTTI inRTTI s
  | APointerData inRTTI inPointer => WritePointerData inRTTI inPointer s
  end.

Definition run_actions (acts : list Action) (s : ObjectStreamOut) : ObjectStreamOut :=
  fold_left run_action acts s.

Definition type_call_action (c : TypeCall) : Action :=
  match c with
  | CallWriteDataType t => AEmit (TDataType (Member t))
  | CallWriteName n => AEmit (TName n)
  end.

Definition attribute_actions (a : RTTIAttribute) : list Action :=
  match DynamicCast a with
  | None => []
  | Some attr =>
      match SerializableAttribute.GetMemberPrimitiveType attr with
      | Some r => [AQueueRTTI r]
      | None => []
      end
      ++ [AEmit THintNextItem; AEmit (TName (SerializableAttribute.GetName attr))]
      ++ map type_call_action (SerializableAttribute.WriteDataType attr)
  end.

Definition declaration_header (inRTTI : RTTIPtr) : list Token :=
  [THintNextItem; THintNextItem; TDataType Declare;
   TName (RTTI.GetName (rtti inRTTI));
   TCount (RTTI.GetAttributeCount (rtti inRTTI)); THintIndentUp].

Definition declaration_actions (inRTTI : RTTIPtr) : list Action :=
  map AEmit (declaration_header inRTTI)
  ++ flat_map attribute_actions (RTTI.Attributes (rtti inRTTI))
  ++ [AEmit THintIndentDown].

Definition members_actions (data_actions : DataCall → list Action) :
    list (list DataCall) → list RTTIAttribute → list Action :=
  fix loop (inInstance : list (list DataCall)) (attrs : list RTTIAttribute)
      {struct inInstance} : list Action :=
    match inInstance, attrs with
    | member :: inInstance', a :: attrs' =>
        match DynamicCast a with
        | None => []
        | Some _ => flat_map data_actions member
        end ++ loop inInstance' attrs'
    | _, _ => []
    end.

Fixpoint data_actions (c : DataCall) : list Action :=
  match c with
  | CallHintNextItem => [AEmit THintNextItem]
  | CallHintIndentUp => [AEmit THintIndentUp]
  | CallHintIndentDown => [AEmit THintIndentDown]
  | CallWriteCount n => [AEmit (TCount n)]
  | CallWritePrimitiveData v => [AEmit (TPrimitiveData v)]
  | CallWritePointerData inRTTI inPointer => [APointerData inRTTI inPointer]
  | CallWriteClassData inRTTI inInstance =>
      AEmit THintIndentUp
      :: members_actions data_actions inInstance (RTTI.Attributes (rtti inRTTI))
      ++ [AEmit THintIndentDown]
  end.

Definition class_actions (inRTTI : RTTIPtr) (inInstance : list (list DataCall)) :
    list Action :=
  data_actions (CallWriteClassData inRTTI inInstance).

Definition object_header (inObject : Pointer) (i : ObjectInfo) : list Token :=
  [THintNextItem; THintNextItem; TDataType Object;
   TName (RTTI.GetName (rtti (mRTTI i))); TIdentifier (mIdentifier i)].

Definition object_actions (inObject : Pointer) (i : ObjectInfo) : list Action :=
  map AEmit (object_header inObject i)
  ++ class_actions (mRTTI i) (Members (object inObject)).

(** Induction on the calls of an attribute, through the nested lists. *)
Section DataCall_nested_ind.
Variable P : DataCall → Prop.
Hypothesis Hnext : P CallHintNextItem.
Hypothesis Hup : P CallHintIndentUp.
Hypothesis Hdown : P CallHintIndentDown.
Hypothesis Hcount : ∀ n, P (CallWriteCount n).
Hypothesis Hprim : ∀ v, P (CallWritePrimitiveData v).
Hypothesis Hptr : ∀ T p, P (CallWritePointerData T p).
Hypothesis Hclass : ∀ T inst, Forall (Forall P) inst → P (CallWriteClassData T inst).

Fixpoint DataCall_nested_ind (c : DataCall) : P c :=
  match c with
  | CallHintNextItem => Hnext
  | CallHintIndentUp => Hup
  | CallHintIndentDown => Hdown
  | CallWriteCount n => Hcount n
  | CallWritePrimitiveData v => Hprim v
  | CallWritePointerData T p => Hptr T p
  | CallWriteClassData T inst =>
      Hclass T inst
        ((fix members (l : list (list DataCall)) : Forall (Forall P) l :=
            match l with
            | [] => List.Forall_nil _
            | m :: l' =>
                List.Forall_cons _ _ _
                  ((fix calls (cs : list DataCall) : Forall P cs :=
                      match cs with
                      | [] => List.Forall_nil _
                      | c :: cs' => List.Forall_cons _ _ _ (DataCall_nested_ind c) (calls cs')
                      end) m)
                  (members l')
            end) inst)
  end.
End DataCall_nested_ind.

Lemma run_actions_app acts1 acts2 s :
  run_actions (acts1 ++ acts2) s = run_actions acts2 (run_actions acts1 s).
Proof. apply fold_left_app. Qed.

Lemma run_actions_emit ts s :
  run_actions (map AEmit ts) s = fold_left (λ s t, emit t s) ts s.
Proof. revert s. induction ts as [|t ts IH]; intros s; [done|]. apply IH. Qed.

Lemma WriteRTTI_attribute_actions s a :
  WriteRTTI_attribute s a = run_actions (attribute_actions a) s.
Proof.
  unfold WriteRTTI_attribute, attribute_actions.
  destruct (DynamicCast a) as [attr|]; [|done].
  rewrite !run_actions_app.
  set (s1 := match SerializableAttribute.GetMemberPrimitiveType attr with
             | Some r => QueueRTTI r s | None => s end).
  assert (Hs1 : run_actions
                  match SerializableAttribute.GetMemberPrimitiveType attr with
                  | Some r => [AQueueRTTI r] | None => [] end s = s1).
  { unfold s1. by destruct (SerializableAttribute.GetMemberPrimitiveType attr). }
  rewrite Hs1. cbn [run_actions fold_left run_action].
  change (emit (TName ?n) (emit THintNextItem s1)) with (WriteName n (HintNextItem s1)).
  generalize (WriteName (SerializableAttribute.GetName attr) (HintNextItem s1)).
  induction (SerializableAttribute.WriteDataType attr) as [|c cs IH]; intros s2; [done|].
  cbn. rewrite IH. by destruct c.
Qed.

Lemma WriteRTTI_attributes_actions attrs s :
  fold_left WriteRTTI_attribute attrs s
  = run_actions (flat_map attribute_actions attrs) s.
Proof.
  revert s. induction attrs as [|a l IH]; intros s; [done|].
  cbn [fold_left flat_map].
  by rewrite IH, WriteRTTI_attribute_actions, <- run_actions_app.
Qed.

Lemma WriteRTTI_actions inRTTI s :
  WriteRTTI inRTTI s = run_actions (declaration_actions inRTTI) s.
Proof.
  unfold WriteRTTI, declaration_actions.
  by rewrite !run_actions_app, <- WriteRTTI_attributes_actions.
Qed.

Lemma WriteData_actions c :
  ∀ s, WriteData c s = run_actions (data_actions c) s.
Proof.
  induction c as [| | | | | |T inst IH] using DataCall_nested_ind; try done.
  intros s. cbn [WriteData data_actions].
  change (AEmit THintIndentUp :: ?l) with ([AEmit THintIndentUp] ++ l).
  rewrite !run_actions_app. cbn [run_actions fold_left run_action].
  unfold HintIndentDown, HintIndentUp. f_equal.
  generalize (emit THintIndentUp s). clear s.
  generalize (RTTI.Attributes (rtti T)).
  induction IH as [|member inst' Hm _ IHl]; intros attrs s; [done|].
  destruct attrs as [|a attrs]; [done|].
  cbn [WriteClassData_attributes members_actions].
  rewrite run_actions_app, <- IHl. f_equal.
  destruct (DynamicCast a); [|done].
  clear -Hm. revert s. induction Hm as [|c cs Hc _ IHc]; intros s; [done|].
  cbn [fold_left flat_map]. rewrite run_actions_app, <- Hc. apply IHc.
Qed.

Lemma WriteClassData_members_actions inRTTI inInstance s :
  WriteClassData_members inRTTI inInstance s
  = run_actions (class_actions inRTTI inInstance) s.
Proof. apply WriteData_actions. Qed.

(** ** The stream under the member functions *)

Definition out (s : ObjectStreamOut) : list Token := written (mStream s).

(** A stream that has not faulted and never will. *)
Definition healthy (s : ObjectStreamOut) : Prop :=
  room (mStream s) = None ∧ failbit (mStream s) = false.

(** The identifier written for a pointer, read in the identifier map. *)
Definition pointer_identifier (m : gmap N ObjectInfo) (p : Pointer) : Identifier :=
  if decide (p ≠ nullptr)
  then from_option mIdentifier sNullIdentifier (m !! p)
  else sNullIdentifier.

Definition action_tokens (m : gmap N ObjectInfo) (a : Action) : list Token :=
  match a with
  | AEmit t => [t]
  | AQueueRTTI _ => []
  | APointerData _ p => [THintNextItem; TIdentifier (pointer_identifier m p)]
  end.

Definition tokens (m : gmap N ObjectInfo) (acts : list Action) : list Token :=
  flat_map (action_tokens m) acts.

(** The state change of [WritePointerData] on a pointer seen for the first
    time. *)
Definition allocate (inRTTI : RTTIPtr) (inPointer : Pointer) (s : ObjectStreamOut) :
    ObjectStreamOut :=
  set_mObjectQueue (push inPointer)
    (set_mIdentifierMap (insert inPointer (MakeInfo (mNextIdentifier s) inRTTI))
      (set_mNextIdentifier N.succ s)).

Lemma WritePointerData_null inRTTI s :
  WritePointerData inRTTI nullptr s
  = WriteIdentifier sNullIdentifier (HintNextItem s).
Proof. done. Qed.

Lemma WritePointerData_known inRTTI inPointer i s :
  inPointer ≠ nullptr →
  mIdentifierMap s !! inPointer = Some i →
  WritePointerData inRTTI inPointer s
  = WriteIdentifier (mIdentifier i) (HintNextItem s).
Proof.
  intros Hp Hi. unfold WritePointerData.
  destruct (decide (inPointer ≠ nullptr)); [|done]. by rewrite Hi.
Qed.

Lemma WritePointerData_new inRTTI inPointer s :
  inPointer ≠ nullptr →
  mIdentifierMap s !! inPointer = None →
  WritePointerData inRTTI inPointer s
  = WriteIdentifier (mNextIdentifier s) (HintNextItem (allocate inRTTI inPointer s)).
Proof.
  intros Hp Hi. unfold WritePointerData.
  destruct (decide (inPointer ≠ nullptr)); [|done]. rewrite Hi.
  unfold allocate, map_insert, set_mIdentifierMap. cbn. by rewrite Hi.
Qed.

Lemma emit_out t s :
  healthy s → healthy (emit t s) ∧ out (emit t s) = out s ++ [t].
Proof.
  intros [Hr Hf]. unfold healthy, out, emit, put. cbn. by rewrite Hf, Hr.
Qed.

Lemma QueueRTTI_mStream inRTTI s : mStream (QueueRTTI inRTTI s) = mStream s.
Proof. unfold QueueRTTI. by destruct (decide _). Qed.

Lemma QueueRTTI_objects inRTTI s :
  mNextIdentifier (QueueRTTI inRTTI s) = mNextIdentifier s
  ∧ mIdentifierMap (QueueRTTI inRTTI s) = mIdentifierMap s
  ∧ mObjectQueue (QueueRTTI inRTTI s) = mObjectQueue s.
Proof. unfold QueueRTTI. by destruct (decide _). Qed.

Lemma WritePointerData_classes inRTTI inPointer s :
  mClassSet (WritePointerData inRTTI inPointer s) = mClassSet s
  ∧ mClassQueue (WritePointerData inRTTI inPointer s) = mClassQueue s.
Proof.
  unfold WritePointerData. destruct (decide _); [|done].
  by destruct (mIdentifierMap s !! inPointer).
Qed.

Lemma run_action_classes s a :
  (∀ inRTTI, a ≠ AQueueRTTI inRTTI) →
  mClassSet (run_action s a) = mClassSet s
  ∧ mClassQueue (run_action s a) = mClassQueue s.
Proof.
  destruct a as [t|T|T p]; intros Ha; [done|by destruct (Ha T)|].
  apply WritePointerData_classes.
Qed.

(** The identifier map only grows, and an entry never changes. *)
Lemma run_action_map_mono s a :
  mIdentifierMap s ⊆ mIdentifierMap (run_action s a).
Proof.
  destruct a as [t|T|T p]; cbn.
  - done.
  - by rewrite (proj1 (proj2 (QueueRTTI_objects T s))).
  - destruct (decide (p = nullptr)) as [->|Hp]; [done|].
    destruct (mIdentifierMap s !! p) as [i|] eqn:Hi.
    + by rewrite (WritePointerData_known _ _ i).
    + rewrite WritePointerData_new by done. cbn. by apply insert_subseteq.
Qed.

Lemma run_actions_map_mono acts s :
  mIdentifierMap s ⊆ mIdentifierMap (run_actions acts s).
Proof.
  revert s. induction acts as [|a acts IH]; intros s; [done|].
  etrans; [apply (run_action_map_mono s a)|apply IH].
Qed.

Lemma run_action_out s a :
  healthy s →
  healthy (run_action s a)
  ∧ out (run_action s a)
    = out s ++ action_tokens (mIdentifierMap (run_action s a)) a.
Proof.
  intros Hs. destruct a as [t|T|T p]; cbn [run_action action_tokens].
  - by apply emit_out.
  - unfold healthy, out. rewrite QueueRTTI_mStream, app_nil_r. by destruct Hs.
  - unfold pointer_identifier.
    destruct (decide (p ≠ nullptr)) as [Hp|Hp].
    + destruct (mIdentifierMap s !! p) as [i|] eqn:Hi.
      * rewrite (WritePointerData_known _ _ i) by done.
        unfold WriteIdentifier, HintNextItem. cbn [mIdentifierMap emit set_mStream].
        rewrite Hi. cbn.
        destruct (emit_out THintNextItem s Hs) as [H1 E1].
        destruct (emit_out (TIdentifier (mIdentifier i)) _ H1) as [H2 E2].
        split; [done|]. by rewrite E2, E1, <- app_assoc.
      * rewrite WritePointerData_new by done.
        unfold WriteIdentifier, HintNextItem.
        cbn [mIdentifierMap emit set_mStream allocate set_mObjectQueue
             set_mIdentifierMap set_mNextIdentifier].
        rewrite lookup_insert_eq. cbn.
        assert (Ha : healthy (allocate T p s)) by done.
        destruct (emit_out THintNextItem _ Ha) as [H1 E1].
        destruct (emit_out (TIdentifier (mNextIdentifier s)) _ H1) as [H2 E2].
        split; [done|]. rewrite E2, E1, <- app_assoc. done.
    + assert (p = nullptr) as -> by (by destruct (decide (p = nullptr)); [|destruct Hp]).
      rewrite WritePointerData_null.
      destruct (emit_out THintNextItem s Hs) as [H1 E1].
      destruct (emit_out (TIdentifier sNullIdentifier) _ H1) as [H2 E2].
      split; [done|]. unfold WriteIdentifier, HintNextItem.
      by rewrite E2, E1, <- app_assoc.
Qed.

(** After its [WritePointerData], a pointer has an identifier. *)
Lemma run_action_registers s T p :
  p ≠ nullptr → is_Some (mIdentifierMap (run_action s (APointerData T p)) !! p).
Proof.
  intros Hp. cbn. destruct (mIdentifierMap s !! p) as [i|] eqn:Hi.
  - rewrite (WritePointerData_known _ _ i) by done. cbn. by rewrite Hi.
  - rewrite WritePointerData_new by done. cbn. by rewrite lookup_insert_eq.
Qed.

Definition registered (m : gmap N ObjectInfo) (acts : list Action) : Prop :=
  ∀ T p, APointerData T p ∈ acts → p ≠ nullptr → is_Some (m !! p).

Lemma registered_mono m m' acts :
  m ⊆ m' → registered m acts → registered m' acts.
Proof.
  intros Hm Hr T p Hin Hp. destruct (Hr T p Hin Hp) as [i Hi].
  exists i. by eapply lookup_weaken.
Qed.

Lemma registered_app m acts1 acts2 :
  registered m (acts1 ++ acts2) ↔ registered m acts1 ∧ registered m acts2.
Proof.
  unfold registered. setoid_rewrite elem_of_app. split.
  - intros H. split; intros T p Hin; apply (H T p); auto.
  - intros [H1 H2] T p [Hin|Hin]; eauto.
Qed.

Lemma run_actions_registered acts s :
  registered (mIdentifierMap (run_actions acts s)) acts.
Proof.
  revert s. induction acts as [|a acts IH]; intros s T p Hin Hp.
  - by apply elem_of_nil in Hin.
  - apply elem_of_cons in Hin as [<-|Hin]; [|by eapply IH].
    destruct (run_action_registers s T p Hp) as [i Hi]. exists i.
    eapply lookup_weaken; [exact Hi|].
    apply (run_actions_map_mono acts (run_action s (APointerData T p))).
Qed.

Lemma pointer_identifier_mono m m' p :
  m ⊆ m' → (p ≠ nullptr → is_Some (m !! p)) →
  pointer_identifier m p = pointer_identifier m' p.
Proof.
  intros Hm Hp. unfold pointer_identifier.
  destruct (decide (p ≠ nullptr)) as [Hn|]; [|done].
  destruct (Hp Hn) as [i Hi]. by rewrite Hi, (lookup_weaken _ _ _ _ Hi Hm).
Qed.

Lemma tokens_mono m m' acts :
  m ⊆ m' → registered m acts → tokens m acts = tokens m' acts.
Proof.
  intros Hm. induction acts as [|a acts IH]; intros Hr; [done|].
  change (a :: acts) with ([a] ++ acts) in Hr.
  apply registered_app in Hr as [Ha Hr].
  cbn [tokens flat_map]. fold (tokens m acts) (tokens m' acts).
  rewrite IH by done. f_equal.
  destruct a as [t|T|T p]; try done. cbn.
  rewrite (pointer_identifier_mono m m' p); [done..|].
  intros Hp. apply (Ha T p); [|done]. by apply list_elem_of_singleton.
Qed.

Lemma tokens_app m acts1 acts2 :
  tokens m (acts1 ++ acts2) = tokens m acts1 ++ tokens m acts2.
Proof. apply flat_map_app. Qed.

Lemma tokens_emit m ts : tokens m (map AEmit ts) = ts.
Proof. induction ts as [|t ts IH]; [done|]. cbn. by f_equal. Qed.

Lemma run_actions_out acts s :
  healthy s →
  healthy (run_actions acts s)
  ∧ out (run_actions acts s)
    = out s ++ tokens (mIdentifierMap (run_actions acts s)) acts.
Proof.
  revert s. induction acts as [|a acts IH] using rev_ind; intros s Hs.
  - cbn. by rewrite app_nil_r.
  - rewrite run_actions_app. cbn [run_actions fold_left].
    fold (run_actions acts s).
    destruct (IH s Hs) as [H1 E1].
    destruct (run_action_out (run_actions acts s) a H1) as [H2 E2].
    split; [done|]. rewrite E2, E1, tokens_app, <- app_assoc. do 2 f_equal.
    + apply tokens_mono; [apply run_action_map_mono|apply run_actions_registered].
    + cbn. by rewrite app_nil_r.
Qed.

(** ** The identifier map and the object queue

    [W] lists the objects that were taken for writing, in order; with the
    object queue behind it, it lists every object that has an identifier,
    in the order of the identifiers. *)

Record IdInv (W : list Pointer) (s : ObjectStreamOut) : Prop := {
  id_nodup : NoDup (W ++ mObjectQueue s);
  id_dom : ∀ a, a ∈ W ++ mObjectQueue s ↔ is_Some (mIdentifierMap s !! a);
  id_ident : ∀ k a, (W ++ mObjectQueue s) !! k = Some a →
             mIdentifier <$> mIdentifierMap s !! a = Some (N.of_nat (S k));
  id_next : mNextIdentifier s = N.of_nat (S (length (W ++ mObjectQueue s))) }.

Lemma IdInv_same W s s' :
  mNextIdentifier s' = mNextIdentifier s →
  mIdentifierMap s' = mIdentifierMap s →
  mObjectQueue s' = mObjectQueue s →
  IdInv W s → IdInv W s'.
Proof.
  intros E1 E2 E3 [H1 H2 H3 H4].
  split; rewrite ?E1, ?E2, ?E3; done.
Qed.

Lemma IdInv_allocate W T p s :
  mIdentifierMap s !! p = None → IdInv W s → IdInv W (allocate T p s).
Proof.
  intros Hnone [H1 H2 H3 H4].
  assert (Hp : p ∉ W ++ mObjectQueue s).
  { intros Hin. apply H2 in Hin as [i Hi]. congruence. }
  split; cbn [allocate mObjectQueue mIdentifierMap mNextIdentifier
              set_mObjectQueue set_mIdentifierMap set_mNextIdentifier];
    unfold push; rewrite app_assoc.
  - apply NoDup_app. split; [done|]. split; [|apply NoDup_singleton].
    intros a Ha Ha'. apply list_elem_of_singleton in Ha' as ->. done.
  - intros a. rewrite elem_of_app, list_elem_of_singleton, H2.
    destruct (decide (a = p)) as [->|Hne].
    + rewrite lookup_insert_eq. split; [by eexists|by right].
    + rewrite lookup_insert_ne by done. split; [by intros [?|?]|by left].
  - intros k a Hk. apply lookup_snoc_Some in Hk as [[Hlt Hk]|[-> ->]].
    + assert (a ≠ p) by (intros ->; apply Hp; by eapply list_elem_of_lookup_2).
      rewrite lookup_insert_ne by done. by apply H3.
    + rewrite lookup_insert_eq. cbn. by rewrite H4.
  - rewrite H4, !length_app. cbn. lia.
Qed.

Lemma IdInv_run_action W s a : IdInv W s → IdInv W (run_action s a).
Proof.
  intros HI. destruct a as [t|T|T p]; cbn [run_action].
  - by apply (IdInv_same W s).
  - destruct (QueueRTTI_objects T s) as (E1 & E2 & E3).
    by apply (IdInv_same W s).
  - destruct (decide (p = nullptr)) as [->|Hp].
    { rewrite WritePointerData_null. by apply (IdInv_same W s). }
    destruct (mIdentifierMap s !! p) as [i|] eqn:Hi.
    + rewrite (WritePointerData_known _ _ i) by done. by apply (IdInv_same W s).
    + rewrite WritePointerData_new by done.
      apply (IdInv_same W (allocate T p s)); [done..|]. by apply IdInv_allocate.
Qed.

Lemma IdInv_run_actions W acts s : IdInv W s → IdInv W (run_actions acts s).
Proof.
  revert s. induction acts as [|a acts IH]; intros s HI; [done|].
  apply IH. by apply IdInv_run_action.
Qed.

Lemma IdInv_pop W a q s :
  mObjectQueue s = a :: q → IdInv W s → IdInv (W ++ [a]) (set_mObjectQueue pop s).
Proof.
  intros Hq [H1 H2 H3 H4]. rewrite Hq in *.
  split; cbn [mObjectQueue mIdentifierMap mNextIdentifier set_mObjectQueue];
    rewrite Hq; cbn [pop tail]; by rewrite <- app_assoc.
Qed.

(** Identifiers are at least [1] and below the next one. *)
Lemma IdInv_positive W s a i :
  IdInv W s → mIdentifierMap s !! a = Some i →
  1 ≤ mIdentifier i < mNextIdentifier s.
Proof.
  intros [H1 H2 H3 H4] Hi.
  assert (Ha : a ∈ W ++ mObjectQueue s) by (apply H2; by eexists).
  apply list_elem_of_lookup_1 in Ha as [k Hk].
  pose proof (lookup_lt_Some _ _ _ Hk) as Hlt.
  apply H3 in Hk. rewrite Hi in Hk. cbn in Hk. injection Hk as ->.
  rewrite H4. lia.
Qed.

(** Two objects never share an identifier. *)
Lemma IdInv_injective W s a b i j :
  IdInv W s →
  mIdentifierMap s !! a = Some i → mIdentifierMap s !! b = Some j →
  mIdentifier i = mIdentifier j → a = b.
Proof.
  intros [H1 H2 H3 H4] Hi Hj Hij.
  assert (Ha : a ∈ W ++ mObjectQueue s) by (apply H2; by eexists).
  assert (Hb : b ∈ W ++ mObjectQueue s) by (apply H2; by eexists).
  apply list_elem_of_lookup_1 in Ha as [k Hk].
  apply list_elem_of_lookup_1 in Hb as [l Hl].
  pose proof (H3 _ _ Hk) as Ek. pose proof (H3 _ _ Hl) as El.
  rewrite Hi in Ek. rewrite Hj in El. cbn in Ek, El.
  assert (k = l) as -> by (injection Ek; injection El; lia).
  congruence.
Qed.

(** ** A stream that faults

    The serializer never reads the stream except for its fail state at
    the head of its two loops: on any stream, a sequence of steps changes
    the serializer as it does on any other, and puts its tokens. *)

Definition with_stream (os : ostream) (s : ObjectStreamOut) : ObjectStreamOut :=
  set_mStream (λ _, os) s.

Definition puts (ts : list Token) (os : ostream) : ostream :=
  fold_left (λ os t, put t os) ts os.

(** The stream that accepts [c] writes, after [w] was sent to it. *)
Definition clip (c : nat) (w : list Token) : ostream :=
  {| written := take c w;
     room := Some (c - length w)%nat;
     failbit := bool_decide (c < length w)%nat |}.

Lemma with_stream_id s : with_stream (mStream s) s = s.
Proof. by destruct s. Qed.

Lemma puts_app ts1 ts2 os : puts (ts1 ++ ts2) os = puts ts2 (puts ts1 os).
Proof. apply fold_left_app. Qed.

Lemma puts_failed ts os : failbit os = true → puts ts os = os.
Proof.
  intros Hf. induction ts as [|t ts IH]; [done|].
  cbn. unfold put at 2. by rewrite Hf.
Qed.

Lemma put_clip c w t : put t (clip c w) = clip c (w ++ [t]).
Proof.
  unfold put, clip. cbn [failbit room written]. rewrite length_app. cbn [length].
  case_bool_decide as Hc.
  - rewrite take_app_le by lia. f_equal; [f_equal; lia|].
    symmetry. apply bool_decide_eq_true. lia.
  - destruct (c - length w)%nat as [|k] eqn:Hk.
    + rewrite take_app_le by lia. f_equal; [f_equal; lia|].
      symmetry. apply bool_decide_eq_true. lia.
    + rewrite !take_ge by (rewrite ?length_app; cbn; lia).
      f_equal; [f_equal; lia|]. symmetry. apply bool_decide_eq_false. lia.
Qed.

Lemma puts_clip c w ts : puts ts (clip c w) = clip c (w ++ ts).
Proof.
  revert w. induction ts as [|t ts IH]; intros w; [by rewrite app_nil_r|].
  cbn [puts fold_left]. fold (puts ts (put t (clip c w))).
  by rewrite put_clip, IH, <- app_assoc.
Qed.

Lemma clip_frozen c w ts : (c < length w)%nat → clip c (w ++ ts) = clip c w.
Proof.
  intros Hc. unfold clip. rewrite take_app_le, length_app by lia.
  f_equal; [f_equal; lia|].
  rewrite !bool_decide_eq_true_2; [done|lia..].
Qed.

Lemma open_stream_clip c : open_stream (Some c) = clip c [].
Proof.
  unfold open_stream, clip. cbn. rewrite Nat.sub_0_r, take_nil. f_equal.
Qed.

Lemma run_action_with_stream os s a :
  run_action (with_stream os s) a
  = with_stream (puts (action_tokens (mIdentifierMap (run_action s a)) a) os)
      (run_action s a).
Proof.
  destruct a as [t|T|T p]; cbn [run_action action_tokens].
  - done.
  - unfold QueueRTTI. cbn. by destruct (decide _).
  - unfold pointer_identifier. destruct (decide (p ≠ nullptr)) as [Hp|Hp].
    + destruct (mIdentifierMap s !! p) as [i|] eqn:Hi.
      * rewrite !(WritePointerData_known _ _ i) by done. cbn. by rewrite Hi.
      * rewrite !WritePointerData_new by done. cbn. by rewrite lookup_insert_eq.
    + assert (p = nullptr) as -> by (by destruct (decide (p = nullptr)); [|destruct Hp]).
      by rewrite !WritePointerData_null.
Qed.

Lemma run_actions_with_stream acts os s :
  run_actions acts (with_stream os s)
  = with_stream (puts (tokens (mIdentifierMap (run_actions acts s)) acts) os)
      (run_actions acts s).
Proof.
  revert os s. induction acts as [|a acts IH] using rev_ind; intros os s; [done|].
  rewrite !run_actions_app. cbn [run_actions fold_left].
  fold (run_actions acts s) (run_actions acts (with_stream os s)).
  rewrite IH, run_action_with_stream, tokens_app, puts_app. f_equal.
  rewrite (tokens_mono (mIdentifierMap (run_actions acts s))
             (mIdentifierMap (run_action (run_actions acts s) a)) acts);
    [|apply run_action_map_mono|apply run_actions_registered].
  f_equal. cbn. by rewrite app_nil_r.
Qed.

(** [sf] follows [sn] when its stream has room for [c] writes in all and
    was sent what the stream of [sn], which does not fault, was sent; the
    two serializers are the same until the stream of [sf] has faulted. *)
Definition follows (c : nat) (sf sn : ObjectStreamOut) : Prop :=
  mStream sf = clip c (out sn) ∧ (fail sf = false → sf = with_stream (mStream sf) sn).

Lemma follows_failed c sf sn sn' ts :
  follows c sf sn → fail sf = true → out sn' = out sn ++ ts → follows c sf sn'.
Proof.
  intros [Hs _] Hf Ho. split; [|congruence].
  rewrite Ho, clip_frozen; [done|].
  unfold fail in Hf. rewrite Hs in Hf. cbn in Hf. by apply bool_decide_eq_true in Hf.
Qed.

Lemma follows_run_actions c acts sf sn :
  healthy sn → follows c sf sn →
  follows c (run_actions acts sf) (run_actions acts sn).
Proof.
  intros Hn [Hs Hsame].
  destruct (run_actions_out acts sn Hn) as [_ Eo].
  destruct (fail sf) eqn:Hf.
  - rewrite <- (with_stream_id sf), run_actions_with_stream.
    rewrite puts_failed by done. split.
    + cbn. rewrite Eo, clip_frozen; [done|].
      unfold fail in Hf. rewrite Hs in Hf. cbn in Hf. by apply bool_decide_eq_true in Hf.
    + unfold fail. cbn. fold (fail sf). congruence.
  - rewrite (Hsame eq_refl), run_actions_with_stream. split.
    + cbn. by rewrite Hs, puts_clip, Eo.
    + done.
Qed.

Lemma follows_class_queue c f sf sn :
  follows c sf sn → follows c (set_mClassQueue f sf) (set_mClassQueue f sn).
Proof.
  intros [Hs Hsame]. split; [done|]. intros Hf.
  rewrite (Hsame Hf) at 1. done.
Qed.

Lemma follows_object_queue c f sf sn :
  follows c sf sn → follows c (set_mObjectQueue f sf) (set_mObjectQueue f sn).
Proof.
  intros [Hs Hsame]. split; [done|]. intros Hf.
  rewrite (Hsame Hf) at 1. done.
Qed.

(** ** The class set and the class queue

    [D] lists the classes whose description was written, in order; with
    the class queue behind it, it lists every class that entered the class
    set after the primitives. *)

Definition member_type (a : RTTIAttribute) : option RTTIPtr :=
  match DynamicCast a with
  | Some attr => SerializableAttribute.GetMemberPrimitiveType attr
  | None => None
  end.

(** The classes that [WriteRTTI] passes to [QueueRTTI]. *)
Definition member_types (inRTTI : RTTIPtr) : list RTTIPtr :=
  omap member_type (RTTI.Attributes (rtti inRTTI)).

Lemma elem_of_flat_map {A B} (f : A → list B) (l : list A) (y : B) :
  y ∈ flat_map f l ↔ ∃ x, x ∈ l ∧ y ∈ f x.
Proof.
  rewrite list_elem_of_In, in_flat_map.
  by setoid_rewrite list_elem_of_In.
Qed.

Lemma elem_of_map {A B} (f : A → B) (l : list A) (y : B) :
  y ∈ map f l ↔ ∃ x, y = f x ∧ x ∈ l.
Proof. apply (list_elem_of_fmap f). Qed.

Lemma attribute_actions_queue a T :
  AQueueRTTI T ∈ attribute_actions a ↔ member_type a = Some T.
Proof.
  unfold attribute_actions, member_type.
  destruct (DynamicCast a) as [attr|]; [|by rewrite elem_of_nil].
  rewrite !elem_of_app, elem_of_map. split.
  - intros [H|[H|H]].
    + destruct (SerializableAttribute.GetMemberPrimitiveType attr);
        [apply list_elem_of_singleton in H; congruence|by apply elem_of_nil in H].
    + apply elem_of_cons in H as [H|H]; [done|].
      by apply list_elem_of_singleton in H.
    + destruct H as ([] & H & _); done.
  - intros ->. left. by apply list_elem_of_singleton.
Qed.

Lemma declaration_actions_queue inRTTI T :
  AQueueRTTI T ∈ declaration_actions inRTTI ↔ T ∈ member_types inRTTI.
Proof.
  unfold declaration_actions, member_types.
  rewrite !elem_of_app, elem_of_map, elem_of_flat_map, list_elem_of_omap,
    list_elem_of_singleton.
  setoid_rewrite attribute_actions_queue. split; [|by eauto].
  intros [(t & H & _)|[H|H]]; done.
Qed.

Lemma declaration_actions_pointer inRTTI T p :
  APointerData T p ∉ declaration_actions inRTTI.
Proof.
  unfold declaration_actions.
  rewrite !elem_of_app, elem_of_map, elem_of_flat_map, list_elem_of_singleton.
  intros [(t & H & _)|[(a & _ & H)|H]]; try done.
  unfold attribute_actions in H. destruct (DynamicCast a) as [attr|];
    [|by apply elem_of_nil in H].
  rewrite !elem_of_app, elem_of_map in H. destruct H as [H|[H|H]].
  - destruct (SerializableAttribute.GetMemberPrimitiveType attr);
      [by apply list_elem_of_singleton in H|by apply elem_of_nil in H].
  - apply elem_of_cons in H as [H|H]; [done|].
    by apply list_elem_of_singleton in H.
  - destruct H as ([] & H & _); done.
Qed.

Record ClsInv (U D : list RTTIPtr) (s : ObjectStreamOut) : Prop := {
  cls_nodup : NoDup (D ++ mClassQueue s);
  cls_set : ∀ T, T ∈ mClassSet s ↔ T ∈ primitives ∨ T ∈ D ++ mClassQueue s;
  cls_prim : ∀ T, T ∈ D ++ mClassQueue s → T ∉ primitives;
  cls_closed : ∀ T T', T ∈ D → T' ∈ member_types T → T' ∈ mClassSet s;
  cls_univ : ∀ T, T ∈ D ++ mClassQueue s → T ∈ U }.

Lemma ClsInv_same U D s s' :
  mClassSet s' = mClassSet s → mClassQueue s' = mClassQueue s →
  ClsInv U D s → ClsInv U D s'.
Proof. intros E1 E2 [H1 H2 H3 H4 H5]. split; rewrite ?E1, ?E2; done. Qed.

Lemma ClsInv_QueueRTTI U D T s :
  T ∈ U → ClsInv U D s → ClsInv U D (QueueRTTI T s).
Proof.
  intros HU [H1 H2 H3 H4 H5]. unfold QueueRTTI.
  destruct (decide (T ∈ mClassSet s)) as [Hin|Hin]; [done|].
  assert (Hp : (T ∉ primitives) ∧ (T ∉ D ++ mClassQueue s)).
  { split; intros H; apply Hin, H2; auto. }
  destruct Hp as [Hp Hq].
  split; cbn [mClassSet mClassQueue set_mClassSet set_mClassQueue];
    unfold push; rewrite ?app_assoc.
  - apply NoDup_app. split; [done|]. split; [|apply NoDup_singleton].
    intros a Ha Ha'. apply list_elem_of_singleton in Ha' as ->. done.
  - intros T'. rewrite elem_of_union, elem_of_singleton, H2, !elem_of_app,
      list_elem_of_singleton. tauto.
  - intros T'. rewrite elem_of_app, list_elem_of_singleton.
    intros [H| ->]; [by apply H3|done].
  - intros T1 T2 HT1 HT2. apply elem_of_union. right. by eapply H4.
  - intros T'. rewrite elem_of_app, list_elem_of_singleton.
    intros [H| ->]; [by apply H5|done].
Qed.

Lemma ClsInv_run_actions U D acts s :
  (∀ T, AQueueRTTI T ∈ acts → T ∈ U) →
  ClsInv U D s → ClsInv U D (run_actions acts s).
Proof.
  revert s. induction acts as [|a acts IH]; intros s HU HI; [done|].
  apply IH; [intros T HT; apply HU; by right|].
  destruct a as [t|T|T p]; cbn [run_action].
  - by apply (ClsInv_same U D s).
  - apply ClsInv_QueueRTTI; [|done]. apply HU. by left.
  - destruct (WritePointerData_classes T p s) as [E1 E2].
    by apply (ClsInv_same U D s).
Qed.

Lemma run_action_set_mono s a : mClassSet s ⊆ mClassSet (run_action s a).
Proof.
  destruct a as [t|T|T p]; cbn [run_action].
  - done.
  - unfold QueueRTTI. destruct (decide _); [done|]. cbn. set_solver.
  - by rewrite (proj1 (WritePointerData_classes T p s)).
Qed.

Lemma run_actions_set_mono acts s : mClassSet s ⊆ mClassSet (run_actions acts s).
Proof.
  revert s. induction acts as [|a acts IH]; intros s; [done|].
  etrans; [apply (run_action_set_mono s a)|apply IH].
Qed.

(** After [QueueRTTI], a class is in the class set. *)
Lemma run_actions_queued acts s T :
  AQueueRTTI T ∈ acts → T ∈ mClassSet (run_actions acts s).
Proof.
  revert s. induction acts as [|a acts IH]; intros s Hin.
  - by apply elem_of_nil in Hin.
  - apply elem_of_cons in Hin as [<-|Hin]; [|by apply IH].
    apply (run_actions_set_mono acts (run_action s (AQueueRTTI T))).
    cbn. unfold QueueRTTI. destruct (decide _); [done|]. cbn. set_solver.
Qed.

(** The queues only grow at the back. *)
Lemma run_actions_class_queue acts s :
  ∃ new, mClassQueue (run_actions acts s) = mClassQueue s ++ new.
Proof.
  revert s. induction acts as [|a acts IH]; intros s.
  - exists []. by rewrite app_nil_r.
  - destruct (IH (run_action s a)) as [new Hnew]. cbn. fold (run_actions acts (run_action s a)).
    rewrite Hnew. destruct a as [t|T|T p]; cbn [run_action].
    + by exists new.
    + unfold QueueRTTI. destruct (decide _); [by exists new|].
      cbn. unfold push. exists (T :: new). by rewrite <- app_assoc.
    + rewrite (proj2 (WritePointerData_classes T p s)). by exists new.
Qed.

Lemma run_actions_object_queue acts s :
  ∃ new, mObjectQueue (run_actions acts s) = mObjectQueue s ++ new.
Proof.
  revert s. induction acts as [|a acts IH]; intros s.
  - exists []. by rewrite app_nil_r.
  - destruct (IH (run_action s a)) as [new Hnew]. cbn. fold (run_actions acts (run_action s a)).
    rewrite Hnew. destruct a as [t|T|T p]; cbn [run_action].
    + by exists new.
    + rewrite (proj2 (proj2 (QueueRTTI_objects T s))). by exists new.
    + destruct (decide (p = nullptr)) as [->|Hp]; [by exists new|].
      destruct (mIdentifierMap s !! p) as [i|] eqn:Hi.
      * rewrite (WritePointerData_known _ _ i) by done. by exists new.
      * rewrite WritePointerData_new by done. cbn. unfold push.
        exists (p :: new). by rewrite <- app_assoc.
Qed.

Lemma ClsInv_pop U D T q s :
  mClassQueue s = T :: q →
  (∀ T', T' ∈ member_types T → T' ∈ mClassSet s) →
  ClsInv U D s → ClsInv U (D ++ [T]) (set_mClassQueue pop s).
Proof.
  intros Hq Hm [H1 H2 H3 H4 H5]. rewrite Hq in *.
  split; cbn [mClassSet mClassQueue set_mClassQueue]; rewrite ?Hq; cbn [pop tail];
    rewrite <- ?app_assoc; try done.
  intros T1 T2 HT1 HT2. apply elem_of_app in HT1 as [HT1|HT1]; [by eapply H4|].
  apply list_elem_of_singleton in HT1 as ->. by apply Hm.
Qed.

(** A declaration without pointers is written the same in every map. *)
Lemma tokens_declaration m m' inRTTI :
  tokens m (declaration_actions inRTTI) = tokens m' (declaration_actions inRTTI).
Proof.
  assert (H : ∀ m, tokens ∅ (declaration_actions inRTTI)
                   = tokens m (declaration_actions inRTTI)).
  { intros m0. apply tokens_mono; [apply map_empty_subseteq|].
    intros T p Hin. by apply declaration_actions_pointer in Hin. }
  by rewrite <- (H m), <- (H m').
Qed.

Definition declaration_record (inRTTI : RTTIPtr) : list Token :=
  tokens ∅ (declaration_actions inRTTI).

(** Every class that some class description refers to. *)
Definition all_member_types : list RTTIPtr :=
  flat_map (λ e, omap member_type (RTTI.Attributes e.2)) (map_to_list classes).

Lemma member_types_all inRTTI T :
  T ∈ member_types inRTTI → T ∈ all_member_types.
Proof.
  unfold member_types, all_member_types, rtti. intros H.
  destruct (classes !! inRTTI) as [r|] eqn:Hr.
  - apply elem_of_flat_map. exists (inRTTI, r). split.
    + by apply elem_of_map_to_list.
    + by rewrite (lookup_total_correct _ _ _ Hr) in H.
  - rewrite lookup_total_alt, Hr in H. cbn in H. by apply elem_of_nil in H.
Qed.

Lemma WriteObject_classes_stop fuel s :
  mClassQueue s = [] ∨ fail s = true → WriteObject_classes fuel s = Returns s.
Proof.
  intros H. destruct fuel; cbn; destruct (mClassQueue s); try done;
    destruct H as [H|H]; try done; by rewrite H.
Qed.

Lemma follows_fields c sf sn :
  follows c sf sn → fail sf = false →
  mClassQueue sf = mClassQueue sn ∧ mObjectQueue sf = mObjectQueue sn
  ∧ mIdentifierMap sf = mIdentifierMap sn.
Proof. intros [_ H] Hf. by rewrite (H Hf). Qed.

(** The loop of [WriteObject] on a stream that does not fault: it writes
    the description of every queued class and of the classes these
    refer to, and ends with an empty class queue. *)
Lemma WriteObject_classes_healthy U fuel :
  (∀ T, T ∈ all_member_types → T ∈ U) →
  ∀ D s,
    ClsInv U D s → healthy s → (length U ≤ fuel + length D)%nat →
    ∃ D' s',
      WriteObject_classes fuel s = Returns s'
      ∧ ClsInv U (D ++ D') s' ∧ mClassQueue s' = [] ∧ healthy s'
      ∧ out s' = out s ++ flat_map declaration_record D'
      ∧ mClassSet s ⊆ mClassSet s'
      ∧ mNextIdentifier s' = mNextIdentifier s
      ∧ mIdentifierMap s' = mIdentifierMap s
      ∧ mObjectQueue s' = mObjectQueue s
      ∧ (∀ c sf, follows c sf s →
           ∃ sf', WriteObject_classes fuel sf = Returns sf' ∧ follows c sf' s').
Proof.
  intros HU.
  assert (Hempty : ∀ fuel D s, mClassQueue s = [] →
    ClsInv U D s → healthy s →
    ∃ D' s',
      WriteObject_classes fuel s = Returns s'
      ∧ ClsInv U (D ++ D') s' ∧ mClassQueue s' = [] ∧ healthy s'
      ∧ out s' = out s ++ flat_map declaration_record D'
      ∧ mClassSet s ⊆ mClassSet s'
      ∧ mNextIdentifier s' = mNextIdentifier s
      ∧ mIdentifierMap s' = mIdentifierMap s
      ∧ mObjectQueue s' = mObjectQueue s
      ∧ (∀ c sf, follows c sf s →
           ∃ sf', WriteObject_classes fuel sf = Returns sf' ∧ follows c sf' s')).
  { intros f D s Hq HI Hs. exists [], s.
    rewrite WriteObject_classes_stop by (by left). rewrite !app_nil_r.
    do 9 (split; [done|]). intros c sf Hf. exists sf. split; [|done].
    apply WriteObject_classes_stop. destruct (fail sf) eqn:Hfail; [by right|left].
    by rewrite (proj1 (follows_fields c sf s Hf Hfail)). }
  induction fuel as [|fuel IH]; intros D s HI Hs Hfuel.
  - destruct (mClassQueue s) as [|T q] eqn:Hq; [by apply Hempty|].
    exfalso. destruct HI as [H1 _ _ _ H5]. rewrite Hq in *.
    pose proof (submseteq_length _ _ (NoDup_submseteq _ _ H1 H5)) as Hl.
    rewrite length_app in Hl. cbn in Hl, Hfuel. lia.
  - destruct (mClassQueue s) as [|T q] eqn:Hq; [by apply Hempty|].
    cbn [WriteObject_classes]. rewrite Hq.
    unfold fail. rewrite (proj2 Hs). rewrite WriteRTTI_actions.
    set (s1 := run_actions (declaration_actions T) s).
    assert (HI1 : ClsInv U D s1).
    { apply ClsInv_run_actions; [|done]. intros T' HT'.
      by apply HU, (member_types_all T), declaration_actions_queue. }
    destruct (run_actions_class_queue (declaration_actions T) s) as [new Hnew].
    fold s1 in Hnew. rewrite Hq in Hnew.
    destruct (run_actions_out (declaration_actions T) s Hs) as [Hs1 Eo1].
    fold s1 in Hs1, Eo1.
    assert (HI2 : ClsInv U (D ++ [T]) (set_mClassQueue pop s1)).
    { eapply ClsInv_pop; [exact Hnew| |done]. intros T' HT'.
      by apply run_actions_queued, declaration_actions_queue. }
    destruct (IH (D ++ [T]) (set_mClassQueue pop s1) HI2 Hs1) as
      (D' & s' & Hrun & HI' & Hq' & Hs' & Eo' & Hsub & E1 & E2 & E3 & Hfollow).
    { rewrite length_app. cbn. lia. }
    exists (T :: D'), s'. rewrite Hrun.
    assert (Eo : out s' = out s ++ flat_map declaration_record (T :: D')).
    { rewrite Eo'. change (out (set_mClassQueue pop s1)) with (out s1).
      rewrite Eo1. cbn [flat_map]. rewrite <- app_assoc. do 2 f_equal.
      apply tokens_declaration. }
    split; [done|]. split; [by rewrite <- app_assoc in HI'|].
    split; [done|]. split; [done|]. split; [done|].
    split.
    { etrans; [|exact Hsub]. apply run_actions_set_mono. }
    split; [|split; [|split]].
    4:{ intros c sf Hf. destruct (fail sf) eqn:Hfail.
        - exists sf.
          split; [exact (WriteObject_classes_stop (S fuel) sf (or_intror Hfail))|].
          by eapply follows_failed.
        - destruct (follows_fields c sf s Hf Hfail) as (Hcq & _ & _).
          destruct (Hfollow c (set_mClassQueue pop
                                 (run_actions (declaration_actions T) sf)))
            as (sf' & Hrun' & Hf').
          { by apply follows_class_queue, follows_run_actions. }
          exists sf'. split; [|done].
          change (WriteObject_classes (S fuel) sf = Returns sf').
          cbn [WriteObject_classes]. rewrite Hcq, Hq, Hfail.
          by rewrite WriteRTTI_actions. }
    all: rewrite ?E1, ?E2, ?E3;
      cbn [mNextIdentifier mIdentifierMap mObjectQueue set_mClassQueue];
      unfold s1; clear; generalize (declaration_actions_pointer T);
      generalize (declaration_actions T); intros acts Hacts;
      revert s; induction acts as [|a acts IHa]; intros s; [done|];
      cbn [run_actions fold_left]; fold (run_actions acts (run_action s a));
      rewrite (IHa (λ T p H, Hacts T p (list_elem_of_further _ _ _ H)) (run_action s a));
      destruct a as [t|T'|T' p]; [done|apply QueueRTTI_objects|];
      destruct (Hacts T' p); by left.
Qed.

(** ** What the attribute callbacks can do *)

(** The callbacks write hints, counts, primitive values and pointers:
    no record tag, no name, and never a class description. *)
Definition is_data_action (a : Action) : Prop :=
  match a with
  | AEmit (THintNextItem | THintIndentUp | THintIndentDown
          | TCount _ | TPrimitiveData _) => True
  | APointerData _ _ => True
  | _ => False
  end.

Lemma members_actions_Forall (P : Action → Prop) inst attrs :
  Forall (Forall (λ c, Forall P (data_actions c))) inst →
  Forall P (members_actions data_actions inst attrs).
Proof.
  intros H. revert attrs. induction H as [|member inst Hm _ IH]; intros attrs.
  - by destruct attrs.
  - destruct attrs as [|a attrs]; [done|]. cbn [members_actions].
    apply Forall_app. split; [|apply IH].
    destruct (DynamicCast a); [|done].
    induction Hm as [|c cs Hc _ IHc]; [done|]. cbn. by apply Forall_app.
Qed.

Lemma data_actions_ok c : Forall is_data_action (data_actions c).
Proof.
  induction c as [| | | | | |T inst IH] using DataCall_nested_ind;
    try by (repeat constructor).
  cbn [data_actions]. constructor; [done|].
  apply Forall_app. split; [|by repeat constructor].
  by apply members_actions_Forall.
Qed.

Lemma class_actions_no_queue inRTTI inInstance T :
  AQueueRTTI T ∉ class_actions inRTTI inInstance.
Proof.
  intros Hin.
  by apply (proj1 (Forall_forall _ _) (data_actions_ok _) _ Hin).
Qed.

(** The pointers among a sequence of steps, with the class each is
    written with. *)
Definition action_pointer (a : Action) : option (RTTIPtr * Pointer) :=
  match a with
  | APointerData T p => Some (T, p)
  | _ => None
  end.

Definition pointers_of (acts : list Action) : list (RTTIPtr * Pointer) :=
  omap action_pointer acts.

Lemma elem_of_pointers_of acts T p :
  (T, p) ∈ pointers_of acts ↔ APointerData T p ∈ acts.
Proof.
  unfold pointers_of. rewrite list_elem_of_omap. split.
  - intros ([t|T'|T' p'] & Hin & Heq); try done. by injection Heq as -> ->.
  - intros Hin. by exists (APointerData T p).
Qed.

(** Every pointer that occurs among the calls of a member, whatever the
    class it is written with. *)
Fixpoint call_pairs (c : DataCall) : list (RTTIPtr * Pointer) :=
  match c with
  | CallWritePointerData T p => [(T, p)]
  | CallWriteClassData _ inst => flat_map (flat_map call_pairs) inst
  | _ => []
  end.

Lemma data_actions_pairs c T p :
  APointerData T p ∈ data_actions c → (T, p) ∈ call_pairs c.
Proof.
  induction c as [| | | | | T' p' |T' inst IH] using DataCall_nested_ind; cbn;
    try (by intros H; apply list_elem_of_singleton in H).
  - intros H. apply list_elem_of_singleton in H. injection H as -> ->.
    by apply list_elem_of_singleton.
  - intros H. apply elem_of_cons in H as [H|H]; [done|].
    apply elem_of_app in H as [H|H]; [|by apply list_elem_of_singleton in H].
    revert H. generalize (RTTI.Attributes (rtti T')).
    induction IH as [|member inst Hm _ IHl]; intros attrs H.
    + destruct attrs; by apply elem_of_nil in H.
    + destruct attrs as [|a attrs]; [by apply elem_of_nil in H|].
      cbn [members_actions] in H. cbn [flat_map]. apply elem_of_app.
      apply elem_of_app in H as [H|H]; [left|right; by eapply IHl].
      destruct (DynamicCast a); [|by apply elem_of_nil in H].
      apply elem_of_flat_map in H as (c & Hc & H).
      apply elem_of_flat_map. exists c. split; [done|].
      by apply (proj1 (Forall_forall _ _) Hm c Hc).
Qed.

Definition heap_pairs : list (RTTIPtr * Pointer) :=
  flat_map (λ e, flat_map (flat_map call_pairs) (Members e.2)) (map_to_list heap).

Lemma object_actions_pairs inObject i T p :
  APointerData T p ∈ object_actions inObject i → (T, p) ∈ heap_pairs.
Proof.
  unfold object_actions. rewrite elem_of_app, elem_of_map.
  intros [(t & H & _)|H]; [done|].
  apply data_actions_pairs in H. cbn [call_pairs] in H.
  unfold object in H. destruct (heap !! inObject) as [o|] eqn:Ho.
  - rewrite (lookup_total_correct _ _ _ Ho) in H.
    apply elem_of_flat_map. exists (inObject, o). split; [|done].
    by apply elem_of_map_to_list.
  - rewrite lookup_total_alt, Ho in H. by apply elem_of_nil in H.
Qed.

(** The classes and the objects that a session started with [inObject] and
    [inRTTI] can meet, and a number of iterations that is enough for the
    two loops. *)
Definition class_universe (inRTTI : RTTIPtr) : list RTTIPtr :=
  inRTTI :: map fst heap_pairs ++ all_member_types.

Definition object_universe (inObject : Pointer) : list Pointer :=
  inObject :: map snd heap_pairs.

Definition enough_fuel (inObject : Pointer) (inRTTI : RTTIPtr) : nat :=
  length (class_universe inRTTI) + length (object_universe inObject).

(** A property of the objects in the identifier map, with the class each
    was registered with, is kept when it holds of the pointers written. *)
Lemma run_actions_map_Forall (Φ : Pointer → RTTIPtr → Prop) acts s :
  (∀ a i, mIdentifierMap s !! a = Some i → Φ a (mRTTI i)) →
  (∀ T p, APointerData T p ∈ acts → p ≠ nullptr → Φ p T) →
  ∀ a i, mIdentifierMap (run_actions acts s) !! a = Some i → Φ a (mRTTI i).
Proof.
  revert s. induction acts as [|act acts IH]; intros s Hs Hacts; [done|].
  cbn [run_actions fold_left]. apply IH; [|intros T p H; apply Hacts; by right].
  destruct act as [t|T|T p]; cbn [run_action].
  - done.
  - by rewrite (proj1 (proj2 (QueueRTTI_objects T s))).
  - destruct (decide (p = nullptr)) as [->|Hp]; [done|].
    destruct (mIdentifierMap s !! p) as [j|] eqn:Hj.
    + by rewrite (WritePointerData_known _ _ j).
    + rewrite WritePointerData_new by done. cbn. intros a i.
      destruct (decide (p = a)) as [->|Hne].
      * rewrite lookup_insert_eq. intros [= <-]. cbn. apply Hacts; [by left|done].
      * rewrite lookup_insert_ne by done. apply Hs.
Qed.

Lemma run_actions_classes_same acts s :
  (∀ T, AQueueRTTI T ∉ acts) →
  mClassSet (run_actions acts s) = mClassSet s
  ∧ mClassQueue (run_actions acts s) = mClassQueue s.
Proof.
  revert s. induction acts as [|a acts IH]; intros s Hacts; [done|].
  cbn [run_actions fold_left].
  destruct (IH (run_action s a)) as [E1 E2].
  { intros T H. apply (Hacts T). by right. }
  fold (run_actions acts (run_action s a)). rewrite E1, E2.
  apply run_action_classes. intros T ->. apply (Hacts T). by left.
Qed.

(** ** [WriteObject] on a stream that does not fault *)

Lemma flat_map_declaration_record m D :
  tokens m (flat_map declaration_actions D) = flat_map declaration_record D.
Proof.
  induction D as [|T D IH]; [done|]. cbn [flat_map].
  rewrite tokens_app, IH. f_equal. apply tokens_declaration.
Qed.

Lemma WriteObject_healthy UT fuel W D inObject i s :
  (∀ T, T ∈ all_member_types → T ∈ UT) →
  mRTTI i ∈ UT →
  IdInv W s → ClsInv UT D s → healthy s →
  mIdentifierMap s !! inObject = Some i → inObject ≠ nullptr →
  (length UT ≤ fuel + length D)%nat →
  ∃ D' s',
    WriteObject fuel inObject s = Returns s'
    ∧ IdInv W s' ∧ ClsInv UT (D ++ D') s' ∧ mClassQueue s' = [] ∧ healthy s'
    ∧ out s' = out s ++ flat_map declaration_record D'
               ++ tokens (mIdentifierMap s') (object_actions inObject i)
    ∧ mIdentifierMap s ⊆ mIdentifierMap s'
    ∧ registered (mIdentifierMap s') (object_actions inObject i)
    ∧ (mRTTI i ∈ primitives ∨ mRTTI i ∈ D ++ D')
    ∧ (∃ new, mObjectQueue s' = mObjectQueue s ++ new)
    ∧ (∀ Φ : Pointer → RTTIPtr → Prop,
         (∀ a j, mIdentifierMap s !! a = Some j → Φ a (mRTTI j)) →
         (∀ T p, APointerData T p ∈ object_actions inObject i →
                 p ≠ nullptr → Φ p T) →
         ∀ a j, mIdentifierMap s' !! a = Some j → Φ a (mRTTI j))
    ∧ (∀ c sf, follows c sf s → fail sf = false →
         ∃ sf', WriteObject fuel inObject sf = Returns sf' ∧ follows c sf' s').
Proof.
  intros HU HT HI HC Hs Hi Hnull Hfuel.
  assert (Hobj : ∀ s0 : ObjectStreamOut,
    WriteClassData (mRTTI i) inObject
      (WriteIdentifier (mIdentifier i)
        (WriteName (RTTI.GetName (rtti (mRTTI i)))
          (WriteDataType Object (HintNextItem (HintNextItem s0)))))
    = Returns (run_actions (object_actions inObject i) s0)).
  { intros s0. unfold WriteClassData.
    destruct (decide (inObject = nullptr)); [done|].
    rewrite WriteClassData_members_actions.
    unfold object_actions. by rewrite run_actions_app. }
  unfold WriteObject. rewrite Hi.
  assert (HC0 : ClsInv UT D (QueueRTTI (mRTTI i) s)) by (by apply ClsInv_QueueRTTI).
  assert (Hs0 : healthy (QueueRTTI (mRTTI i) s)).
  { unfold healthy. by rewrite QueueRTTI_mStream. }
  assert (Hin0 : mRTTI i ∈ mClassSet (QueueRTTI (mRTTI i) s)).
  { apply (run_actions_queued [AQueueRTTI (mRTTI i)] s). by left. }
  destruct (WriteObject_classes_healthy UT fuel HU D _ HC0 Hs0 Hfuel)
    as (D' & s1 & Hrun & HC1 & Hq1 & Hs1 & Eo1 & Hsub & E1 & E2 & E3 & Hfollow).
  destruct (QueueRTTI_objects (mRTTI i) s) as (F1 & F2 & F3).
  rewrite F1 in E1. rewrite F2 in E2. rewrite F3 in E3.
  rewrite Hrun. cbn [mbind Outcome_bind]. rewrite Hobj.
  assert (Hnoq : ∀ T, AQueueRTTI T ∉ object_actions inObject i).
  { intros T. unfold object_actions. rewrite elem_of_app, elem_of_map.
    intros [(t & H & _)|H]; [done|]. by apply class_actions_no_queue in H. }
  destruct (run_actions_classes_same _ s1 Hnoq) as [G1 G2].
  destruct (run_actions_out (object_actions inObject i) s1 Hs1) as [Hs2 Eo2].
  exists D', (run_actions (object_actions inObject i) s1).
  split; [done|]. split.
  { apply IdInv_run_actions. by apply (IdInv_same W s). }
  split; [by apply (ClsInv_same UT _ s1)|].
  split; [by rewrite G2|]. split; [done|]. split.
  { rewrite Eo2, Eo1. unfold out at 1. rewrite QueueRTTI_mStream.
    by rewrite <- app_assoc. }
  split.
  { rewrite <- E2. apply run_actions_map_mono. }
  split; [apply run_actions_registered|]. split.
  { destruct HC1 as [_ H2 _ _ _]. rewrite Hq1, app_nil_r in H2. apply H2.
    by apply Hsub. }
  split.
  { rewrite <- E3. apply run_actions_object_queue. }
  split.
  { intros Φ HΦ Hacts. apply run_actions_map_Forall; [|done]. by rewrite E2. }
  intros c sf Hf Hfail.
  destruct (follows_fields c sf s Hf Hfail) as (_ & _ & Hmap).
  rewrite Hmap, Hi.
  destruct (Hfollow c (QueueRTTI (mRTTI i) sf)) as (sf1 & Hrun1 & Hf1).
  { by apply (follows_run_actions c [AQueueRTTI (mRTTI i)]). }
  rewrite Hrun1. cbn [mbind Outcome_bind]. rewrite Hobj.
  eexists. split; [done|]. by apply follows_run_actions.
Qed.

(** ** The records of the stream

    The output of a session is a sequence of class descriptions and
    object records; an item names the class or the object of a record. *)

Inductive Item :=
| ClassItem (inRTTI : RTTIPtr)
| ObjectItem (inObject : Pointer) (i : ObjectInfo).

Definition item_actions (it : Item) : list Action :=
  match it with
  | ClassItem T => declaration_actions T
  | ObjectItem a i => object_actions a i
  end.

Definition item_class (it : Item) : option RTTIPtr :=
  match it with ClassItem T => Some T | ObjectItem _ _ => None end.

Definition item_object (it : Item) : option Pointer :=
  match it with ClassItem _ => None | ObjectItem a _ => Some a end.

Definition classes_of (items : list Item) : list RTTIPtr := omap item_class items.
Definition objects_of (items : list Item) : list Pointer := omap item_object items.

(** The tokens of a sequence of records, the pointers written as the
    identifier map [m] has them. *)
Definition render (m : gmap N ObjectInfo) (items : list Item) : list Token :=
  tokens m (flat_map item_actions items).

(** The class [T] needs no description or has one before position [j]. *)
Definition declared_before (items : list Item) (j : nat) (T : RTTIPtr) : Prop :=
  T ∈ primitives ∨ ∃ k, (k < j)%nat ∧ items !! k = Some (ClassItem T).

(** Before every object record, the class of the object is declared, and
    so is every class that a class description before it refers to. *)
Definition ordered (items : list Item) : Prop :=
  ∀ j a i, items !! j = Some (ObjectItem a i) →
    declared_before items j (mRTTI i)
    ∧ ∀ k T T', (k < j)%nat → items !! k = Some (ClassItem T) →
                T' ∈ member_types T → declared_before items j T'.

Lemma classes_of_app items1 items2 :
  classes_of (items1 ++ items2) = classes_of items1 ++ classes_of items2.
Proof. apply omap_app. Qed.

Lemma objects_of_app items1 items2 :
  objects_of (items1 ++ items2) = objects_of items1 ++ objects_of items2.
Proof. apply omap_app. Qed.

Lemma classes_of_ClassItem D : classes_of (map ClassItem D) = D.
Proof. induction D as [|T D IH]; [done|]. cbn. by f_equal. Qed.

Lemma objects_of_ClassItem D : objects_of (map ClassItem D) = [].
Proof. induction D as [|T D IH]; [done|]. by cbn. Qed.

Lemma item_actions_ClassItem D :
  flat_map item_actions (map ClassItem D) = flat_map declaration_actions D.
Proof.
  induction D as [|T D IH]; [done|]. cbn [map flat_map item_actions].
  by rewrite IH.
Qed.

Lemma elem_of_classes_of items T :
  T ∈ classes_of items ↔ ∃ k, items !! k = Some (ClassItem T).
Proof.
  unfold classes_of. rewrite list_elem_of_omap. split.
  - intros ([T'|a i] & Hin & Heq); [|done]. injection Heq as ->.
    by apply list_elem_of_lookup_1.
  - intros [k Hk]. exists (ClassItem T). split; [|done].
    by eapply list_elem_of_lookup_2.
Qed.

Lemma declared_before_app items items' j T :
  declared_before items j T → declared_before (items ++ items') j T.
Proof.
  intros [H|(k & Hk & Hl)]; [by left|]. right. exists k. split; [done|].
  rewrite lookup_app_l; [done|]. by eapply lookup_lt_Some.
Qed.

Lemma ordered_app_classes items D :
  ordered items → ordered (items ++ map ClassItem D).
Proof.
  intros Hord j a i Hj. apply lookup_app_Some in Hj as [Hj|[_ Hj]].
  - destruct (Hord j a i Hj) as [H1 H2].
    pose proof (lookup_lt_Some _ _ _ Hj) as Hlt.
    split; [by apply declared_before_app|].
    intros k T T' Hk Hl HT'. apply declared_before_app.
    apply (H2 k T T'); [done| |done].
    rewrite lookup_app_l in Hl; [done|lia].
  - apply (list_lookup_fmap_Some ClassItem) in Hj as (T & Hj & _). done.
Qed.

Lemma ordered_snoc_object items a i :
  ordered items →
  (mRTTI i ∈ primitives ∨ mRTTI i ∈ classes_of items) →
  (∀ T T', T ∈ classes_of items → T' ∈ member_types T →
           T' ∈ primitives ∨ T' ∈ classes_of items) →
  ordered (items ++ [ObjectItem a i]).
Proof.
  intros Hord Hi Hclosed j b ib Hj.
  assert (Hdecl : ∀ T, T ∈ primitives ∨ T ∈ classes_of items →
                       declared_before (items ++ [ObjectItem a i]) (length items) T).
  { intros T [H|H]; [by left|]. right.
    apply elem_of_classes_of in H as [k Hk]. exists k.
    pose proof (lookup_lt_Some _ _ _ Hk) as Hlt.
    split; [done|]. by rewrite lookup_app_l. }
  apply lookup_snoc_Some in Hj as [[Hlt Hj]|[-> Heq]].
  - destruct (Hord j b ib Hj) as [H1 H2].
    split; [by apply declared_before_app|].
    intros k T T' Hk Hl HT'. apply declared_before_app.
    apply (H2 k T T'); [done| |done].
    rewrite lookup_app_l in Hl; [done|lia].
  - injection Heq as <- <-. split; [by apply Hdecl|].
    intros k T T' Hk Hl HT'. apply Hdecl.
    rewrite lookup_app_l in Hl by done.
    apply (Hclosed T); [|done]. apply elem_of_classes_of. by exists k.
Qed.

(** ** A session on a stream that does not fault *)

Section Session.

(** [UT] and [UP] bound the classes and the objects of the session; [Φ]
    is any property of an object and its registered class that the
    pointers written for an object inherit from it. *)
Variable UT : list RTTIPtr.
Variable UP : list Pointer.
Variable Φ : Pointer → RTTIPtr → Prop.
Hypothesis UT_members : ∀ T, T ∈ all_member_types → T ∈ UT.
Hypothesis Φ_universe : ∀ a T, Φ a T → a ≠ nullptr ∧ a ∈ UP ∧ T ∈ UT.
Hypothesis Φ_closed : ∀ a i T p,
  Φ a (mRTTI i) → APointerData T p ∈ object_actions a i → p ≠ nullptr → Φ p T.

Record OutInv (items : list Item) (s : ObjectStreamOut) : Prop := {
  oi_healthy : healthy s;
  oi_cls : ClsInv UT (classes_of items) s;
  oi_out : out s = render (mIdentifierMap s) items;
  oi_reg : registered (mIdentifierMap s) (flat_map item_actions items);
  oi_info : ∀ a i, ObjectItem a i ∈ items → mIdentifierMap s !! a = Some i;
  oi_order : ordered items;
  oi_phi : ∀ a i, mIdentifierMap s !! a = Some i → Φ a (mRTTI i) }.

Lemma OutInv_object_queue items f s :
  OutInv items s → OutInv items (set_mObjectQueue f s).
Proof. intros [H1 H2 H3 H4 H5 H6 H7]. split; try done. by destruct H2. Qed.

Lemma WriteObject_step fuel W items a i s :
  OutInv items s → IdInv W s → mIdentifierMap s !! a = Some i →
  (length UT ≤ fuel)%nat →
  ∃ D' s',
    WriteObject fuel a s = Returns s'
    ∧ OutInv (items ++ map ClassItem D' ++ [ObjectItem a i]) s'
    ∧ IdInv W s' ∧ mClassQueue s' = []
    ∧ (∃ new, mObjectQueue s' = mObjectQueue s ++ new)
    ∧ (∃ ts, out s' = out s ++ ts)
    ∧ (∀ c sf, follows c sf s → fail sf = false →
         ∃ sf', WriteObject fuel a sf = Returns sf' ∧ follows c sf' s').
Proof.
  intros [H1 H2 H3 H4 H5 H6 H7] HI Hi Hfuel.
  destruct (Φ_universe _ _ (H7 a i Hi)) as (Hnull & _ & HT).
  destruct (WriteObject_healthy UT fuel W (classes_of items) a i s)
    as (D' & s' & Hrun & HI' & HC' & Hq' & Hs' & Eo & Hsub & Hreg & Hdecl
        & Hnew & HΦ & Hfollow); try done; [lia|].
  exists D', s'.
  assert (Ecls : classes_of (items ++ map ClassItem D' ++ [ObjectItem a i])
                 = classes_of items ++ D').
  { by rewrite !classes_of_app, classes_of_ClassItem, app_nil_r. }
  assert (Eacts : flat_map item_actions (items ++ map ClassItem D' ++ [ObjectItem a i])
                  = flat_map item_actions items
                    ++ flat_map declaration_actions D' ++ object_actions a i).
  { rewrite !flat_map_app, item_actions_ClassItem. cbn. by rewrite app_nil_r. }
  split; [done|]. split; [|split; [done|split; [done|split; [done|split; [by eexists|done]]]]].
  split.
  - done.
  - by rewrite Ecls.
  - unfold render. rewrite Eacts, !tokens_app, flat_map_declaration_record, Eo, H3.
    f_equal. unfold render. by apply tokens_mono.
  - rewrite Eacts. apply registered_app. split; [by eapply registered_mono|].
    apply registered_app. split; [|done].
    intros T p Hin. apply elem_of_flat_map in Hin as (T' & _ & Hin).
    by apply declaration_actions_pointer in Hin.
  - intros b j. rewrite !elem_of_app, elem_of_map, list_elem_of_singleton.
    intros [H|[(T & H & _)|H]]; [|done|].
    + eapply lookup_weaken; [by apply H5|done].
    + injection H as -> ->. by eapply lookup_weaken.
  - rewrite app_assoc. apply ordered_snoc_object.
    + by apply ordered_app_classes.
    + by rewrite classes_of_app, classes_of_ClassItem.
    + rewrite classes_of_app, classes_of_ClassItem. intros T T' HT1 HT2.
      destruct HC' as [_ C2 _ C4 _]. rewrite Hq', app_nil_r in C2.
      apply C2. by apply (C4 T).
  - apply HΦ; [done|]. intros T p. by apply Φ_closed, H7.
Qed.

Lemma Write_linked_stop fuel n s :
  mObjectQueue s = [] ∨ fail s = true → Write_linked fuel n s = Returns s.
Proof.
  intros H. destruct n; cbn; destruct (mObjectQueue s); try done;
    destruct H as [H|H]; try done; by rewrite H.
Qed.

Lemma Write_linked_healthy fuel :
  (length UT ≤ fuel)%nat →
  ∀ n items s,
    OutInv items s → IdInv (objects_of items) s → mClassQueue s = [] →
    (length UP ≤ n + length (objects_of items))%nat →
    ∃ items' s',
      Write_linked fuel n s = Returns s'
      ∧ OutInv (items ++ items') s' ∧ IdInv (objects_of (items ++ items')) s'
      ∧ mClassQueue s' = [] ∧ mObjectQueue s' = []
      ∧ (∃ ts, out s' = out s ++ ts)
      ∧ (∀ c sf, follows c sf s →
           ∃ sf', Write_linked fuel n sf = Returns sf' ∧ follows c sf' s').
Proof.
  intros Hfuel.
  assert (Hempty : ∀ n items s, mObjectQueue s = [] →
    OutInv items s → IdInv (objects_of items) s → mClassQueue s = [] →
    ∃ items' s',
      Write_linked fuel n s = Returns s'
      ∧ OutInv (items ++ items') s' ∧ IdInv (objects_of (items ++ items')) s'
      ∧ mClassQueue s' = [] ∧ mObjectQueue s' = []
      ∧ (∃ ts, out s' = out s ++ ts)
      ∧ (∀ c sf, follows c sf s →
           ∃ sf', Write_linked fuel n sf = Returns sf' ∧ follows c sf' s')).
  { intros n items s Hq HO HI Hcq. exists [], s.
    rewrite Write_linked_stop by (by left). rewrite !app_nil_r.
    do 5 (split; [done|]). split; [exists []; by rewrite app_nil_r|].
    intros c sf Hf. exists sf. split; [|done].
    apply Write_linked_stop. destruct (fail sf) eqn:Hfail; [by right|left].
    by rewrite (proj1 (proj2 (follows_fields c sf s Hf Hfail))). }
  induction n as [|n IH]; intros items s HO HI Hcq Hn.
  - destruct (mObjectQueue s) as [|a q] eqn:Hq; [by apply Hempty|].
    exfalso. destruct HI as [I1 I2 _ _]. rewrite Hq in *.
    assert (Hsub : ∀ x, x ∈ objects_of items ++ a :: q → x ∈ UP).
    { intros x Hx. apply I2 in Hx as [j Hj].
      by apply (Φ_universe x (mRTTI j)), (oi_phi _ _ HO). }
    pose proof (submseteq_length _ _ (NoDup_submseteq _ _ I1 Hsub)) as Hl.
    rewrite length_app in Hl. cbn in Hl, Hn. lia.
  - destruct (mObjectQueue s) as [|a q] eqn:Hq; [by apply Hempty|].
    cbn [Write_linked]. rewrite Hq. unfold fail.
    rewrite (proj2 (oi_healthy _ _ HO)).
    assert (Ha : is_Some (mIdentifierMap s !! a)).
    { apply (id_dom _ _ HI). rewrite Hq. apply elem_of_app. right. by left. }
    destruct Ha as [i Hi].
    destruct (WriteObject_step fuel _ items a i s HO HI Hi Hfuel)
      as (D' & s1 & Hrun & HO1 & HI1 & Hcq1 & (new & Hnew) & (ts1 & Eo1) & Hfollow1).
    rewrite Hrun. cbn [mbind Outcome_bind]. rewrite Hq in Hnew.
    set (items1 := items ++ map ClassItem D' ++ [ObjectItem a i]) in *.
    assert (Eobj : objects_of items1 = objects_of items ++ [a]).
    { unfold items1. by rewrite !objects_of_app, objects_of_ClassItem. }
    destruct (IH items1 (set_mObjectQueue pop s1)) as
      (items' & s' & Hrun' & HO' & HI' & Hcq' & Hq' & (ts' & Eo') & Hfollow').
    { by apply OutInv_object_queue. }
    { rewrite Eobj. by eapply IdInv_pop. }
    { done. }
    { rewrite Eobj, length_app. cbn. lia. }
    exists (map ClassItem D' ++ [ObjectItem a i] ++ items'), s'.
    rewrite Hrun'. unfold items1 in HO', HI'.
    rewrite <- !app_assoc in HO', HI'.
    assert (Eo : out s' = out s ++ ts1 ++ ts').
    { rewrite Eo'. change (out (set_mObjectQueue pop s1)) with (out s1).
      by rewrite Eo1, <- app_assoc. }
    do 5 (split; [done|]). split; [by eexists|].
    intros c sf Hf. destruct (fail sf) eqn:Hfail.
    + exists sf.
      split; [exact (Write_linked_stop fuel (S n) sf (or_intror Hfail))|].
      by eapply follows_failed.
    + destruct (follows_fields c sf s Hf Hfail) as (_ & Hoq & _).
      destruct (Hfollow1 c sf Hf Hfail) as (sf1 & Hrun1 & Hf1).
      destruct (Hfollow' c (set_mObjectQueue pop sf1)) as (sf' & Hrun2 & Hf').
      { by apply follows_object_queue. }
      exists sf'. split; [|done].
      change (Write_linked fuel (S n) sf = Returns sf').
      cbn [Write_linked]. rewrite Hoq, Hq, Hfail, Hrun1. done.
Qed.

Lemma elem_of_initial_class_set T :
  T ∈ foldr (λ name set, {[name]} ∪ set) (∅ : gset N) primitives ↔ T ∈ primitives.
Proof.
  induction primitives as [|x l IH]; cbn.
  - by rewrite elem_of_nil, elem_of_empty.
  - rewrite elem_of_union, elem_of_singleton, IH, elem_of_cons. done.
Qed.

(** [Write] from a new serializer, on a stream that does not fault and
    on a stream that has room for [c] writes. *)
Lemma Write_healthy fuel inObject inRTTI :
  Φ inObject inRTTI →
  (length UT ≤ fuel)%nat → (length UP ≤ S fuel)%nat →
  ∃ D items s',
    Write fuel inObject inRTTI (ObjectStreamOut_new (open_stream None))
    = Returns (true, s')
    ∧ OutInv (map ClassItem D ++ ObjectItem inObject (MakeInfo 1 inRTTI) :: items) s'
    ∧ IdInv (inObject :: objects_of items) s'
    ∧ mClassQueue s' = [] ∧ mObjectQueue s' = []
    ∧ (∀ c, ∃ sf',
         Write fuel inObject inRTTI (ObjectStreamOut_new (open_stream (Some c)))
         = Returns (negb (bool_decide (c < length (out s'))%nat), sf')
         ∧ mStream sf' = clip c (out s')).
Proof.
  intros HΦ Hfuel Hfuel'. unfold Write.
  set (s0 := set_mIdentifierMap _ _).
  set (i := MakeInfo 1 inRTTI).
  assert (Hi : mIdentifierMap s0 !! inObject = Some i).
  { unfold s0, map_insert. cbn. by rewrite lookup_empty, lookup_insert_eq. }
  assert (Hm : mIdentifierMap s0 = {[inObject := i]}).
  { unfold s0, map_insert. cbn. by rewrite lookup_empty. }
  assert (HO : OutInv [] s0).
  { split; try done.
    - split; cbn; try done.
      + apply NoDup_nil_2.
      + intros T. rewrite elem_of_initial_class_set, elem_of_nil. tauto.
      + intros T H. by apply elem_of_nil in H.
      + intros T T' H. by apply elem_of_nil in H.
      + intros T H. by apply elem_of_nil in H.
    - intros T p H. by apply elem_of_nil in H.
    - intros a j H. by apply elem_of_nil in H.
    - intros a j. rewrite Hm. intros [<- <-]%lookup_singleton_Some. done. }
  assert (HI : IdInv [inObject] s0).
  { assert (Hq0 : mObjectQueue s0 = []) by done.
    split; rewrite ?Hq0, ?Hm; cbn [app].
    - apply NoDup_singleton.
    - intros a. rewrite list_elem_of_singleton. split.
      + intros ->. rewrite lookup_singleton_eq. by eexists.
      + intros [j Hj]. by apply lookup_singleton_Some in Hj as [-> _].
    - intros k a Hk.
      apply list_lookup_singleton_Some in Hk as [-> <-].
      by rewrite lookup_singleton_eq.
    - done. }
  destruct (WriteObject_step fuel _ [] inObject i s0 HO HI Hi Hfuel)
    as (D' & s1 & Hrun & HO1 & HI1 & Hcq1 & (new & Hnew) & _ & Hfollow1).
  rewrite Hrun. cbn [mbind Outcome_bind].
  cbn [app] in HO1.
  assert (Eobj : objects_of (map ClassItem D' ++ [ObjectItem inObject i]) = [inObject]).
  { by rewrite objects_of_app, objects_of_ClassItem. }
  destruct (Write_linked_healthy fuel Hfuel fuel _ s1 HO1) as
    (items' & s' & Hrun' & HO' & HI' & Hcq' & Hq' & _ & Hfollow').
  { by rewrite Eobj. }
  { done. }
  { rewrite Eobj. cbn. lia. }
  rewrite Hrun'. cbn [mbind Outcome_bind].
  exists D', items', s'. unfold fail. rewrite (proj2 (oi_healthy _ _ HO')).
  rewrite <- app_assoc in HO', HI'. cbn [app] in HO', HI'.
  rewrite objects_of_app, objects_of_ClassItem in HI'.
  do 5 (split; [done|]).
  intros c.
  set (sf0 := set_mIdentifierMap _ _).
  assert (Hf0 : follows c sf0 s0).
  { split; [apply open_stream_clip|done]. }
  destruct (Hfollow1 c sf0 Hf0 eq_refl) as (sf1 & Hrun1 & Hf1).
  destruct (Hfollow' c sf1 Hf1) as (sf' & Hrun2 & Hf').
  exists sf'. rewrite Hrun1. cbn [mbind Outcome_bind].
  rewrite Hrun2. cbn [mbind Outcome_bind].
  destruct Hf' as [Hs' _]. split; [|done]. by rewrite Hs'.
Qed.

End Session.

(** ** Sessions *)

(** The objects and classes that are within the bounds of a session. *)
Definition in_session (inObject : Pointer) (inRTTI : RTTIPtr)
    (a : Pointer) (T : RTTIPtr) : Prop :=
  a ≠ nullptr ∧ a ∈ object_universe inObject ∧ T ∈ class_universe inRTTI.

Lemma in_session_closed inObject inRTTI a i T p :
  in_session inObject inRTTI a (mRTTI i) →
  APointerData T p ∈ object_actions a i → p ≠ nullptr →
  in_session inObject inRTTI p T.
Proof.
  intros _ Hin Hp. apply object_actions_pairs in Hin.
  split; [done|]. split.
  - right. apply elem_of_map. by exists (T, p).
  - right. apply elem_of_app. left. apply elem_of_map. by exists (T, p).
Qed.

Lemma class_universe_members inRTTI T :
  T ∈ all_member_types → T ∈ class_universe inRTTI.
Proof. intros H. right. apply elem_of_app. by right. Qed.

(** The object graph: [references a] are the pointers that the members of
    the object at [a] write, with the class each is written with. *)
Definition references (a : Pointer) : list (RTTIPtr * Pointer) :=
  pointers_of (class_actions (GetRTTI (object a)) (Members (object a))).

Inductive reachable (inObject : Pointer) : Pointer → Prop :=
| reachable_root : reachable inObject inObject
| reachable_ref a T p :
    reachable inObject a → (T, p) ∈ references a → p ≠ nullptr →
    reachable inObject p.

(** Every pointer is written with the class of the object it points to. *)
Definition well_typed : Prop :=
  ∀ a T p, (T, p) ∈ references a → p ≠ nullptr → T = GetRTTI (object p).

Definition in_graph (inObject : Pointer) (inRTTI : RTTIPtr)
    (a : Pointer) (T : RTTIPtr) : Prop :=
  in_session inObject inRTTI a T ∧ reachable inObject a ∧ T = GetRTTI (object a).

Lemma object_actions_references a i T p :
  APointerData T p ∈ object_actions a i →
  (T, p) ∈ pointers_of (class_actions (mRTTI i) (Members (object a))).
Proof.
  unfold object_actions. rewrite elem_of_app, elem_of_map.
  intros [(t & H & _)|H]; [done|]. by apply elem_of_pointers_of.
Qed.

Lemma in_graph_closed inObject inRTTI a i T p :
  well_typed →
  in_graph inObject inRTTI a (mRTTI i) →
  APointerData T p ∈ object_actions a i → p ≠ nullptr →
  in_graph inObject inRTTI p T.
Proof.
  intros Hty (Hs & Hr & Ht) Hin Hp.
  pose proof (object_actions_references a i T p Hin) as Href.
  rewrite Ht in Href.
  split; [by eapply in_session_closed|]. split.
  - by eapply reachable_ref.
  - by eapply Hty.
Qed.

(** A session on a stream that does not fault, and the same session on a
    stream with room for [c] writes. *)
Lemma Write_session inObject inRTTI k :
  inObject ≠ nullptr →
  ∃ D items s',
    Write (enough_fuel inObject inRTTI + k) inObject inRTTI
      (ObjectStreamOut_new (open_stream None)) = Returns (true, s')
    ∧ OutInv (class_universe inRTTI) (in_session inObject inRTTI)
        (map ClassItem D ++ ObjectItem inObject (MakeInfo 1 inRTTI) :: items) s'
    ∧ IdInv (inObject :: objects_of items) s'
    ∧ mClassQueue s' = [] ∧ mObjectQueue s' = []
    ∧ (∀ c, ∃ sf',
         Write (enough_fuel inObject inRTTI + k) inObject inRTTI
           (ObjectStreamOut_new (open_stream (Some c)))
         = Returns (negb (bool_decide (c < length (out s'))%nat), sf')
         ∧ mStream sf' = clip c (out s')).
Proof.
  intros Hnull.
  apply (Write_healthy (class_universe inRTTI) (object_universe inObject)
           (in_session inObject inRTTI)).
  - apply class_universe_members.
  - by intros a T (? & ? & ?).
  - apply in_session_closed.
  - split; [done|]. split; by left.
  - unfold enough_fuel. lia.
  - unfold enough_fuel. lia.
Qed.

Lemma Write_session_graph inObject k :
  inObject ≠ nullptr → well_typed →
  ∃ D items s',
    Write (enough_fuel inObject (GetRTTI (object inObject)) + k) inObject
      (GetRTTI (object inObject))
      (ObjectStreamOut_new (open_stream None)) = Returns (true, s')
    ∧ OutInv (class_universe (GetRTTI (object inObject)))
        (in_graph inObject (GetRTTI (object inObject)))
        (map ClassItem D
         ++ ObjectItem inObject (MakeInfo 1 (GetRTTI (object inObject))) :: items) s'
    ∧ IdInv (inObject :: objects_of items) s'
    ∧ mClassQueue s' = [] ∧ mObjectQueue s' = [].
Proof.
  intros Hnull Hty.
  destruct (Write_healthy (class_universe (GetRTTI (object inObject)))
              (object_universe inObject)
              (in_graph inObject (GetRTTI (object inObject))))
    with (fuel := (enough_fuel inObject (GetRTTI (object inObject)) + k)%nat)
         (inObject := inObject) (inRTTI := GetRTTI (object inObject))
    as (D & items & s' & H1 & H2 & H3 & H4 & H5 & _).
  - apply class_universe_members.
  - by intros a T ((? & ? & ?) & _).
  - intros a i T p. by apply in_graph_closed.
  - split; [|split; [constructor|done]]. split; [done|]. split; by left.
  - unfold enough_fuel. lia.
  - unfold enough_fuel. lia.
  - by exists D, items, s'.
Qed.

(** ** Counting records in the stream *)

(** [TDataType Declare] opens a class description and [TDataType Object] an
    object record. *)
Definition is_declare (t : Token) : bool :=
  match t with TDataType (Declare) => true | _ => false end.

Definition is_object (t : Token) : bool :=
  match t with TDataType Object => true | _ => false end.

Definition declaration_count (ts : list Token) : nat :=
  length (List.filter is_declare ts).

Definition object_count (ts : list Token) : nat :=
  length (List.filter is_object ts).

(** A step that writes no token that [f] selects. *)
Definition quiet (f : Token → bool) (a : Action) : Prop :=
  match a with
  | AEmit t => f t = false
  | _ => True
  end.

Lemma filter_tokens_quiet (f : Token → bool) m acts :
  f THintNextItem = false → (∀ id, f (TIdentifier id) = false) →
  Forall (quiet f) acts → List.filter f (tokens m acts) = [].
Proof.
  intros Hh Hi H. induction H as [|a acts Ha _ IH]; [done|].
  cbn [tokens flat_map]. rewrite List.filter_app. fold (tokens m acts).
  rewrite IH, app_nil_r. destruct a as [t|T|T p]; cbn.
  - cbn in Ha. by rewrite Ha.
  - done.
  - by rewrite Hh, Hi.
Qed.

Lemma is_data_action_quiet a :
  is_data_action a → quiet is_declare a ∧ quiet is_object a.
Proof. destruct a as [[]| |]; cbn; try done. Qed.

Lemma class_actions_quiet inRTTI inInstance :
  Forall (quiet is_declare) (class_actions inRTTI inInstance)
  ∧ Forall (quiet is_object) (class_actions inRTTI inInstance).
Proof.
  pose proof (data_actions_ok (CallWriteClassData inRTTI inInstance)) as H.
  split; eapply Forall_impl; try exact H; intros a Ha;
    by apply is_data_action_quiet.
Qed.

Lemma attribute_actions_quiet a :
  Forall (quiet is_declare) (attribute_actions a)
  ∧ Forall (quiet is_object) (attribute_actions a).
Proof.
  unfold attribute_actions. destruct (DynamicCast a) as [attr|]; [|done].
  assert (H : ∀ f, (∀ t, f (TDataType (Member t)) = false) →
                   (∀ n, f (TName n) = false) → f THintNextItem = false →
    Forall (quiet f)
      (match SerializableAttribute.GetMemberPrimitiveType attr with
       | Some r => [AQueueRTTI r] | None => [] end
       ++ [AEmit THintNextItem; AEmit (TName (SerializableAttribute.GetName attr))]
       ++ map type_call_action (SerializableAttribute.WriteDataType attr))).
  { intros f H1 H2 H3. apply Forall_app. split.
    - destruct (SerializableAttribute.GetMemberPrimitiveType attr); by repeat constructor.
    - apply Forall_app. split; [repeat constructor; cbn; done|].
      induction (SerializableAttribute.WriteDataType attr) as [|[t|n] l IH];
        constructor; cbn; done. }
  split; by apply H.
Qed.

Lemma declaration_record_counts inRTTI :
  declaration_count (declaration_record inRTTI) = 1%nat
  ∧ object_count (declaration_record inRTTI) = 0%nat.
Proof.
  unfold declaration_count, object_count, declaration_record, declaration_actions.
  rewrite !tokens_app, tokens_emit, !List.filter_app.
  assert (Hq : Forall (quiet is_declare)
                 (flat_map attribute_actions (RTTI.Attributes (rtti inRTTI)))
               ∧ Forall (quiet is_object)
                 (flat_map attribute_actions (RTTI.Attributes (rtti inRTTI)))).
  { induction (RTTI.Attributes (rtti inRTTI)) as [|a l [IH1 IH2]]; [done|].
    cbn [flat_map]. destruct (attribute_actions_quiet a).
    split; by apply Forall_app. }
  destruct Hq as [Hq1 Hq2].
  rewrite (filter_tokens_quiet is_declare), (filter_tokens_quiet is_object) by done.
  done.
Qed.

Lemma object_record_counts m inObject i :
  declaration_count (tokens m (object_actions inObject i)) = 0%nat
  ∧ object_count (tokens m (object_actions inObject i)) = 1%nat.
Proof.
  unfold declaration_count, object_count, object_actions.
  rewrite !tokens_app, tokens_emit, !List.filter_app.
  destruct (class_actions_quiet (mRTTI i) (Members (object inObject))) as [Hq1 Hq2].
  rewrite (filter_tokens_quiet is_declare), (filter_tokens_quiet is_object) by done.
  done.
Qed.

Lemma render_counts m items :
  declaration_count (render m items) = length (classes_of items)
  ∧ object_count (render m items) = length (objects_of items).
Proof.
  unfold render. induction items as [|it items [IH1 IH2]]; [done|].
  cbn [flat_map]. rewrite tokens_app.
  unfold declaration_count, object_count in *. rewrite !List.filter_app, !length_app.
  rewrite IH1, IH2. destruct it as [T|a i]; cbn [item_actions classes_of objects_of omap
    item_class item_object length].
  - rewrite (tokens_declaration m ∅).
    destruct (declaration_record_counts T) as [E1 E2].
    unfold declaration_count, object_count, declaration_record in E1, E2.
    fold (classes_of items) (objects_of items). rewrite E1, E2. done.
  - destruct (object_record_counts m a i) as [E1 E2].
    unfold declaration_count, object_count in E1, E2.
    fold (classes_of items) (objects_of items). rewrite E1, E2. done.
Qed.

(** A new serializer has given no identifier. *)
Lemma IdInv_new os : IdInv [] (ObjectStreamOut_new os).
Proof.
  split; cbn.
  - apply NoDup_nil_2.
  - intros a. rewrite elem_of_nil, lookup_empty. split; [done|]. by intros [? ?].
  - intros k a H. done.
  - done.
Qed.

(* ===================================================================== *)
(** * The claims *)
(* ===================================================================== *)

(** C3. Pointer resolution, in a serializer whose identifiers are in order
    ([IdInv], which every member function keeps): for a null pointer,
    [WritePointerData] writes a hint and then the null identifier; for a
    pointer that the identifier map knows, a hint and then the identifier
    found there, and it changes neither the map nor the object queue; for
    any other pointer it takes the next identifier, inserts the object with
    the given class, pushes it on the object queue and writes a hint and
    then the new identifier.  The identifier written is [0] exactly when the
    pointer is null, and a new identifier differs from [0] and from every
    identifier given before. *)
Theorem WritePointerData_resolves W inRTTI inPointer s :
  IdInv W s →
  (inPointer = nullptr →
     WritePointerData inRTTI inPointer s
     = WriteIdentifier sNullIdentifier (HintNextItem s))
  ∧ (∀ i, inPointer ≠ nullptr → mIdentifierMap s !! inPointer = Some i →
       WritePointerData inRTTI inPointer s
       = WriteIdentifier (mIdentifier i) (HintNextItem s)
       ∧ mIdentifierMap (WritePointerData inRTTI inPointer s) = mIdentifierMap s
       ∧ mObjectQueue (WritePointerData inRTTI inPointer s) = mObjectQueue s
       ∧ mIdentifier i ≠ sNullIdentifier)
  ∧ (inPointer ≠ nullptr → mIdentifierMap s !! inPointer = None →
       WritePointerData inRTTI inPointer s
       = WriteIdentifier (mNextIdentifier s)
           (HintNextItem
              (set_mObjectQueue (push inPointer)
                 (set_mIdentifierMap
                    (insert inPointer (MakeInfo (mNextIdentifier s) inRTTI))
                    (set_mNextIdentifier N.succ s))))
       ∧ mNextIdentifier s ≠ sNullIdentifier
       ∧ ∀ a j, mIdentifierMap s !! a = Some j →
                mIdentifier j ≠ mNextIdentifier s)
  ∧ (∃ identifier s1,
       WritePointerData inRTTI inPointer s
       = WriteIdentifier identifier (HintNextItem s1)
       ∧ (identifier = sNullIdentifier ↔ inPointer = nullptr))
  ∧ IdInv W (WritePointerData inRTTI inPointer s).
Proof.
  intros HI.
  assert (Hknown : ∀ i, mIdentifierMap s !! inPointer = Some i →
                        mIdentifier i ≠ sNullIdentifier).
  { intros i Hi. pose proof (IdInv_positive W s _ i HI Hi). unfold sNullIdentifier. lia. }
  assert (Hnext : mNextIdentifier s ≠ sNullIdentifier).
  { rewrite (id_next _ _ HI). unfold sNullIdentifier. lia. }
  split; [intros ->; apply WritePointerData_null|].
  split.
  { intros i Hp Hi. rewrite (WritePointerData_known _ _ i) by done.
    split; [done|]. split; [done|]. split; [done|]. by apply Hknown. }
  split.
  { intros Hp Hi. rewrite WritePointerData_new by done.
    split; [done|]. split; [done|].
    intros a j Hj. pose proof (IdInv_positive W s _ j HI Hj). lia. }
  split.
  - destruct (decide (inPointer = nullptr)) as [->|Hp].
    + exists sNullIdentifier, s. by rewrite WritePointerData_null.
    + destruct (mIdentifierMap s !! inPointer) as [i|] eqn:Hi.
      * exists (mIdentifier i), s. rewrite (WritePointerData_known _ _ i) by done.
        split; [done|]. split; [intros H; by apply Hknown in H|done].
      * eexists _, _. rewrite WritePointerData_new by done.
        split; [done|]. split; [done|done].
  - by apply (IdInv_run_action W s (APointerData inRTTI inPointer)).
Qed.

(** The attributes of a class that the dynamic cast keeps. *)
Definition serializable_attributes (inRTTI : RTTIPtr) : list SerializableAttribute.t :=
  omap DynamicCast (RTTI.Attributes (rtti inRTTI)).

(** The entry of an attribute in a class description. *)
Definition attribute_entry (attr : SerializableAttribute.t) : list Token :=
  [THintNextItem; TName (SerializableAttribute.GetName attr)]
  ++ map (λ c, match c with
               | CallWriteDataType t => TDataType (Member t)
               | CallWriteName n => TName n
               end) (SerializableAttribute.WriteDataType attr).

(** The members of an instance that [WriteClassData] hands to [WriteData]. *)
Fixpoint written_members (inInstance : list (list DataCall))
    (attrs : list RTTIAttribute) : list (list DataCall) :=
  match inInstance, attrs with
  | member :: inInstance', a :: attrs' =>
      match DynamicCast a with
      | Some _ => member :: written_members inInstance' attrs'
      | None => written_members inInstance' attrs'
      end
  | _, _ => []
  end.

Lemma tokens_attribute_actions m a :
  tokens m (attribute_actions a)
  = match DynamicCast a with Some attr => attribute_entry attr | None => [] end.
Proof.
  unfold attribute_actions, attribute_entry.
  destruct (DynamicCast a) as [attr|]; [|done].
  rewrite !tokens_app. replace (tokens m _) with (@nil Token)
    by (by destruct (SerializableAttribute.GetMemberPrimitiveType attr)).
  cbn [app tokens flat_map action_tokens]. do 2 f_equal.
  induction (SerializableAttribute.WriteDataType attr) as [|[t|n] l IH];
    [done|cbn; by f_equal..].
Qed.

Lemma tokens_attributes_actions m attrs :
  tokens m (flat_map attribute_actions attrs)
  = flat_map attribute_entry (omap DynamicCast attrs).
Proof.
  induction attrs as [|a l IH]; [done|].
  cbn [flat_map]. rewrite tokens_app, IH, tokens_attribute_actions.
  change (omap DynamicCast (a :: l))
    with (match DynamicCast a with
          | Some y => y :: omap DynamicCast l
          | None => omap DynamicCast l
          end).
  by destruct (DynamicCast a).
Qed.

Lemma members_actions_written inInstance attrs :
  members_actions data_actions inInstance attrs
  = flat_map (flat_map data_actions) (written_members inInstance attrs).
Proof.
  revert attrs. induction inInstance as [|member inst IH]; intros [|a attrs]; try done.
  cbn [members_actions written_members]. rewrite IH.
  by destruct (DynamicCast a).
Qed.

Lemma written_members_length inInstance attrs :
  (length (written_members inInstance attrs) ≤ length (omap DynamicCast attrs))%nat.
Proof.
  revert attrs. induction inInstance as [|member inst IH]; intros [|a attrs]; cbn;
    try lia.
  specialize (IH attrs). destruct (DynamicCast a); cbn; lia.
Qed.

Lemma serializable_length attrs :
  (length (omap DynamicCast attrs) ≤ length attrs)%nat
  ∧ (OtherAttribute ∈ attrs → (length (omap DynamicCast attrs) < length attrs)%nat).
Proof.
  induction attrs as [|a attrs [IH1 IH2]]; [split; [done|by intros ?%elem_of_nil]|].
  destruct a as [attr|]; cbn.
  - split; [lia|]. intros [?|H]%elem_of_cons; [done|]. apply IH2 in H. lia.
  - split; [lia|]. intros _. lia.
Qed.

(** C8. The count that [WriteRTTI] writes in a class description is
    [GetAttributeCount], which counts the attributes that are not
    serializable too, while the description has one entry for each
    serializable attribute only and [WriteClassData] calls [WriteData] for
    no other attribute: when the class has an attribute that is not
    serializable, the entries of the description and the values of an
    instance are fewer than the count. *)
Theorem declared_count_counts_skipped_attributes inRTTI inInstance s :
  healthy s →
  out (WriteRTTI inRTTI s)
  = out s
    ++ [THintNextItem; THintNextItem; TDataType Declare;
        TName (RTTI.GetName (rtti inRTTI));
        TCount (RTTI.GetAttributeCount (rtti inRTTI));
        THintIndentUp]
    ++ flat_map attribute_entry (serializable_attributes inRTTI)
    ++ [THintIndentDown]
  ∧ WriteClassData_members inRTTI inInstance s
    = run_actions
        ([AEmit THintIndentUp]
         ++ flat_map (flat_map data_actions)
              (written_members inInstance (RTTI.Attributes (rtti inRTTI)))
         ++ [AEmit THintIndentDown]) s
  ∧ RTTI.GetAttributeCount (rtti inRTTI)
    = N.of_nat (length (RTTI.Attributes (rtti inRTTI)))
  ∧ (length (written_members inInstance (RTTI.Attributes (rtti inRTTI)))
     ≤ length (serializable_attributes inRTTI)
     ≤ length (RTTI.Attributes (rtti inRTTI)))%nat
  ∧ (OtherAttribute ∈ RTTI.Attributes (rtti inRTTI) →
     (length (serializable_attributes inRTTI)
      < length (RTTI.Attributes (rtti inRTTI)))%nat
     ∧ (length (written_members inInstance (RTTI.Attributes (rtti inRTTI)))
        < length (RTTI.Attributes (rtti inRTTI)))%nat).
Proof.
  intros Hs.
  pose proof (written_members_length inInstance (RTTI.Attributes (rtti inRTTI))) as Hw.
  destruct (serializable_length (RTTI.Attributes (rtti inRTTI))) as [Hle Hlt].
  split; [|split; [|split; [|split]]].
  - rewrite WriteRTTI_actions.
    destruct (run_actions_out (declaration_actions inRTTI) s Hs) as [_ ->].
    f_equal. unfold declaration_actions.
    rewrite !tokens_app, tokens_emit, tokens_attributes_actions. done.
  - rewrite WriteClassData_members_actions. unfold class_actions.
    cbn [data_actions]. by rewrite members_actions_written.
  - done.
  - unfold serializable_attributes. lia.
  - intros H. apply Hlt in H. unfold serializable_attributes. lia.
Qed.

(** C7. [Write] ends on every finite object graph, whatever the stream: the
    two loops run out of work before [enough_fuel] iterations.  On a stream
    that does not fault the output starts with the class descriptions and
    the record of the root, whose identifier is 1; a pointer to the root
    among the members of the root itself is written as the identifier 1
    and nothing more, so an object that points to itself is written once.
    No object is written twice, and the objects written are among those of
    [object_universe]. *)
Theorem Write_terminates inObject inRTTI k capacity :
  inObject ≠ nullptr →
  (∃ ok s',
     Write (enough_fuel inObject inRTTI + k) inObject inRTTI
       (ObjectStreamOut_new (open_stream capacity)) = Returns (ok, s'))
  ∧ ∃ D items s',
      Write (enough_fuel inObject inRTTI + k) inObject inRTTI
        (ObjectStreamOut_new (open_stream None)) = Returns (true, s')
      ∧ out s'
        = flat_map declaration_record D
          ++ object_header inObject (MakeInfo 1 inRTTI)
          ++ tokens (mIdentifierMap s')
               (class_actions inRTTI (Members (object inObject)))
          ++ render (mIdentifierMap s') items
      ∧ (∀ T, tokens (mIdentifierMap s') [APointerData T inObject]
              = [THintNextItem; TIdentifier 1])
      ∧ (∀ T before after,
           class_actions inRTTI (Members (object inObject))
           = before ++ APointerData T inObject :: after →
           tokens (mIdentifierMap s')
             (class_actions inRTTI (Members (object inObject)))
           = tokens (mIdentifierMap s') before
             ++ [THintNextItem; TIdentifier 1]
             ++ tokens (mIdentifierMap s') after)
      ∧ NoDup (inObject :: objects_of items)
      ∧ (length (inObject :: objects_of items) ≤ length (object_universe inObject))%nat
      ∧ object_count (out s') = length (inObject :: objects_of items).
Proof.
  intros Hnull.
  destruct (Write_session inObject inRTTI k Hnull)
    as (D & items & s' & Hrun & HO & HI & Hcq & Hq & Hcap).
  split.
  { destruct capacity as [c|]; [|by eauto].
    destruct (Hcap c) as (sf & Hrunf & _). eauto. }
  exists D, items, s'. split; [done|].
  pose proof HI as [I1 I2 I3 I4]. rewrite Hq, app_nil_r in *.
  assert (Hone : ∀ T, tokens (mIdentifierMap s') [APointerData T inObject]
                      = [THintNextItem; TIdentifier 1]).
  { intros T. cbn. unfold pointer_identifier.
    destruct (decide (inObject ≠ nullptr)); [|done].
    pose proof (I3 0%nat inObject eq_refl) as H0.
    destruct (mIdentifierMap s' !! inObject) as [i|]; [|done].
    cbn in H0. injection H0 as H0. cbn. by rewrite H0. }
  split.
  { rewrite (oi_out _ _ _ _ HO). unfold render.
    rewrite flat_map_app, tokens_app, item_actions_ClassItem, flat_map_declaration_record.
    cbn [flat_map item_actions]. unfold object_actions at 1.
    by rewrite !tokens_app, tokens_emit, <- !app_assoc. }
  split; [done|]. split.
  { intros T before after ->. rewrite tokens_app.
    change (APointerData T inObject :: after) with ([APointerData T inObject] ++ after).
    by rewrite tokens_app, Hone. }
  split; [done|]. split.
  { apply submseteq_length, NoDup_submseteq; [done|]. intros a Ha.
    apply I2 in Ha as [i Hi]. by apply (oi_phi _ _ _ _ HO a i Hi). }
  rewrite (oi_out _ _ _ _ HO). rewrite (proj2 (render_counts _ _)).
  by rewrite objects_of_app, objects_of_ClassItem.
Qed.

Lemma elem_of_objects_of items a :
  a ∈ objects_of items ↔ ∃ i, ObjectItem a i ∈ items.
Proof.
  unfold objects_of. rewrite list_elem_of_omap. split.
  - intros ([T|b i] & Hin & Heq); [done|]. injection Heq as ->. by exists i.
  - intros [i Hin]. by exists (ObjectItem a i).
Qed.

(** C1. On a stream that does not fault, a session on an object graph whose
    pointers are written with the class of their object writes one object
    record for each object that can be reached from the root and for no
    other: the objects of the records are distinct and are exactly the
    reachable ones, each has one identifier, which no other object has, and
    every pointer to it is written as a hint and that identifier.  The
    number of object records is the number of reachable objects. *)
Theorem Write_writes_each_object_once inObject k :
  inObject ≠ nullptr → well_typed →
  ∃ (items : list Item) s',
    Write (enough_fuel inObject (GetRTTI (object inObject)) + k) inObject
      (GetRTTI (object inObject)) (ObjectStreamOut_new (open_stream None))
    = Returns (true, s')
    ∧ out s' = render (mIdentifierMap s') items
    ∧ NoDup (objects_of items)
    ∧ (∀ a, a ∈ objects_of items ↔ reachable inObject a)
    ∧ (∀ a, reachable inObject a →
         ∃ i, mIdentifierMap s' !! a = Some i
              ∧ mRTTI i = GetRTTI (object a) ∧ ObjectItem a i ∈ items)
    ∧ (∀ a b i j,
         mIdentifierMap s' !! a = Some i → mIdentifierMap s' !! b = Some j →
         mIdentifier i = mIdentifier j → a = b)
    ∧ (∀ T p, APointerData T p ∈ flat_map item_actions items → p ≠ nullptr →
         ∃ i, mIdentifierMap s' !! p = Some i
              ∧ action_tokens (mIdentifierMap s') (APointerData T p)
                = [THintNextItem; TIdentifier (mIdentifier i)])
    ∧ object_count (out s') = length (objects_of items)
    ∧ ∃ R : gset N,
        (∀ a, a ∈ R ↔ reachable inObject a) ∧ object_count (out s') = size R.
Proof.
  intros Hnull Hty.
  destruct (Write_session_graph inObject k Hnull Hty)
    as (D & items & s' & Hrun & HO & HI & Hcq & Hq).
  set (all := map ClassItem D
              ++ ObjectItem inObject (MakeInfo 1 (GetRTTI (object inObject))) :: items) in *.
  assert (Eobj : objects_of all = inObject :: objects_of items).
  { unfold all. by rewrite objects_of_app, objects_of_ClassItem. }
  pose proof HI as [I1 I2 I3 I4]. rewrite Hq, app_nil_r, <- Eobj in *.
  destruct HO as [O1 O2 O3 O4 O5 O6 O7].
  assert (Hreach : ∀ a, a ∈ objects_of all ↔ reachable inObject a).
  { intros a. split.
    - intros Ha. apply I2 in Ha as [i Hi]. by apply (O7 a i Hi).
    - induction 1 as [|a T p _ IH Href Hp].
      + rewrite Eobj. by left.
      + apply elem_of_objects_of in IH as [i Hin].
        pose proof (O5 a i Hin) as Hi.
        destruct (O7 a i Hi) as (_ & _ & Ht).
        apply I2, (O4 T p); [|done].
        apply elem_of_flat_map. exists (ObjectItem a i). split; [done|].
        cbn [item_actions]. unfold object_actions. apply elem_of_app. right.
        rewrite Ht. by apply elem_of_pointers_of. }
  exists all, s'. split; [done|]. split; [done|]. split; [done|].
  split; [done|]. split.
  { intros a Ha. apply Hreach, elem_of_objects_of in Ha as [i Hin].
    exists i. pose proof (O5 a i Hin) as Hi. split; [done|]. split; [|done].
    by destruct (O7 a i Hi) as (_ & _ & ->). }
  split; [intros a b i j; by apply (IdInv_injective _ _ _ _ _ _ HI)|].
  split.
  { intros T p Hin Hp. destruct (O4 T p Hin Hp) as [i Hi]. exists i.
    split; [done|]. cbn. unfold pointer_identifier.
    destruct (decide (p ≠ nullptr)); [|done]. by rewrite Hi. }
  rewrite O3, (proj2 (render_counts _ _)). split; [done|].
  exists (list_to_set (objects_of all)). split.
  - intros a. by rewrite elem_of_list_to_set.
  - by rewrite size_list_to_set.
Qed.

(** C9. The constructor puts every primitive in the class set, and a class
    never leaves the class set; [QueueRTTI] does nothing for a class of the
    class set, so it never queues a primitive.  In a session no class
    description is the description of a primitive: the descriptions are
    those of distinct classes that are not primitives, and a stream that
    faults holds part of the same output. *)
Theorem primitives_are_never_declared inObject inRTTI k :
  inObject ≠ nullptr →
  (∀ os T, T ∈ primitives → T ∈ mClassSet (ObjectStreamOut_new os))
  ∧ (∀ acts s, mClassSet s ⊆ mClassSet (run_actions acts s))
  ∧ (∀ T s, T ∈ mClassSet s → QueueRTTI T s = s)
  ∧ ∃ (items : list Item) s',
      Write (enough_fuel inObject inRTTI + k) inObject inRTTI
        (ObjectStreamOut_new (open_stream None)) = Returns (true, s')
      ∧ out s' = render (mIdentifierMap s') items
      ∧ (∀ T, T ∈ classes_of items → T ∉ primitives)
      ∧ NoDup (classes_of items)
      ∧ declaration_count (out s') = length (classes_of items)
      ∧ (∀ T, T ∈ primitives → T ∈ mClassSet s')
      ∧ (∀ c, ∃ ok sf,
           Write (enough_fuel inObject inRTTI + k) inObject inRTTI
             (ObjectStreamOut_new (open_stream (Some c))) = Returns (ok, sf)
           ∧ out sf = take c (out s')).
Proof.
  intros Hnull.
  split; [intros os T HT; by apply elem_of_initial_class_set|].
  split; [apply run_actions_set_mono|].
  split; [intros T s HT; unfold QueueRTTI; by destruct (decide _)|].
  destruct (Write_session inObject inRTTI k Hnull)
    as (D & items & s' & Hrun & HO & HI & Hcq & Hq & Hcap).
  eexists _, s'. split; [done|].
  destruct HO as [O1 [C1 C2 C3 C4 C5] O3 O4 O5 O6 O7]. rewrite Hcq, app_nil_r in *.
  split; [done|]. split; [done|]. split; [done|].
  split; [by rewrite O3, (proj1 (render_counts _ _))|].
  split; [intros T HT; apply C2; by left|].
  intros c. destruct (Hcap c) as (sf & Hrunf & Hsf).
  eexists _, sf. split; [done|]. unfold out at 1. by rewrite Hsf.
Qed.

(** The classes that the record of an object of class [T] rests on: [T], and
    the classes that the description of such a class refers to, as long as
    the description is written (a primitive has none). *)
Inductive depends_on (T : RTTIPtr) : RTTIPtr → Prop :=
| depends_self : depends_on T T
| depends_member T1 T2 :
    depends_on T T1 → T1 ∉ primitives → T2 ∈ member_types T1 → depends_on T T2.

Lemma ordered_depends items j a i T :
  ordered items → items !! j = Some (ObjectItem a i) →
  depends_on (mRTTI i) T → T ∉ primitives →
  ∃ k, (k < j)%nat ∧ items !! k = Some (ClassItem T).
Proof.
  intros Hord Hj Hdep. destruct (Hord j a i Hj) as [H1 H2].
  induction Hdep as [|T1 T2 _ IH Hp1 Hm]; intros Hp.
  - by destruct H1.
  - destruct (IH Hp1) as (k & Hk & Hl).
    by destruct (H2 k T1 T2 Hk Hl Hm).
Qed.

Lemma WriteObject_classes_exit fuel s s' :
  WriteObject_classes fuel s = Returns s' → mClassQueue s' = [] ∨ fail s' = true.
Proof.
  revert s. induction fuel as [|fuel IH]; intros s; cbn [WriteObject_classes];
    destruct (mClassQueue s) eqn:Hq.
  - intros [= <-]. by left.
  - destruct (fail s) eqn:Hf; [intros [= <-]; by right|done].
  - intros [= <-]. by left.
  - destruct (fail s) eqn:Hf; [intros [= <-]; by right|apply IH].
Qed.

(** C2, as amended.  The loop of [WriteObject] leaves the class queue empty
    unless the stream has failed.  In the output of a session, before the
    record of an object there is the description of its class and of every
    class that these descriptions refer to, primitives excepted, which have
    none; a stream that faults holds part of the same output. *)
Theorem classes_are_declared_before_use inObject inRTTI k :
  inObject ≠ nullptr →
  (∀ fuel s s', WriteObject_classes fuel s = Returns s' →
                mClassQueue s' = [] ∨ fail s' = true)
  ∧ ∃ (items : list Item) s',
      Write (enough_fuel inObject inRTTI + k) inObject inRTTI
        (ObjectStreamOut_new (open_stream None)) = Returns (true, s')
      ∧ out s' = render (mIdentifierMap s') items
      ∧ (∀ a i, ObjectItem a i ∈ items → mIdentifierMap s' !! a = Some i)
      ∧ (∀ j a i T,
           items !! j = Some (ObjectItem a i) →
           depends_on (mRTTI i) T → T ∉ primitives →
           ∃ k, (k < j)%nat ∧ items !! k = Some (ClassItem T))
      ∧ (∀ c, ∃ ok sf,
           Write (enough_fuel inObject inRTTI + k) inObject inRTTI
             (ObjectStreamOut_new (open_stream (Some c))) = Returns (ok, sf)
           ∧ out sf = take c (out s')).
Proof.
  intros Hnull. split; [apply WriteObject_classes_exit|].
  destruct (Write_session inObject inRTTI k Hnull)
    as (D & items & s' & Hrun & HO & HI & Hcq & Hq & Hcap).
  eexists _, s'. split; [done|].
  destruct HO as [O1 O2 O3 O4 O5 O6 O7].
  split; [done|]. split; [done|]. split.
  { intros j a i T. by apply ordered_depends. }
  intros c. destruct (Hcap c) as (sf & Hrunf & Hsf).
  eexists _, sf. split; [done|]. unfold out at 1. by rewrite Hsf.
Qed.

Lemma filter_eq_nil (l : list N) (x : N) :
  x ∉ l → filter (λ y, y = x) l = [].
Proof.
  induction l as [|y l IH]; [done|]. intros Hx.
  apply not_elem_of_cons in Hx as [Hne Hx].
  rewrite filter_cons_False; [by apply IH|]. by intros ->.
Qed.

Lemma NoDup_filter_eq (l : list N) (x : N) :
  NoDup l → x ∈ l → length (filter (λ y, y = x) l) = 1%nat.
Proof.
  induction 1 as [|y l Hy Hl IH]; [by intros ?%elem_of_nil|].
  intros [->|Hx]%elem_of_cons.
  - rewrite filter_cons_True by done. cbn. by rewrite filter_eq_nil.
  - rewrite filter_cons_False; [by apply IH|]. by intros ->.
Qed.

(** C6, as amended.  [QueueRTTI] tests the class set first and queues a
    class only when it is not there, putting it there.  In the output of a
    session every class description is of another class, and a class that
    is not a primitive and that the record of some object rests on has
    exactly one description, however many objects of it there are. *)
Theorem each_class_is_declared_once inObject inRTTI k :
  inObject ≠ nullptr →
  (∀ T s, T ∈ mClassSet s → QueueRTTI T s = s)
  ∧ (∀ T s, T ∉ mClassSet s →
       QueueRTTI T s
       = set_mClassQueue (push T) (set_mClassSet (λ set, {[T]} ∪ set) s))
  ∧ ∃ (items : list Item) s',
      Write (enough_fuel inObject inRTTI + k) inObject inRTTI
        (ObjectStreamOut_new (open_stream None)) = Returns (true, s')
      ∧ out s' = render (mIdentifierMap s') items
      ∧ NoDup (classes_of items)
      ∧ declaration_count (out s') = length (classes_of items)
      ∧ (∀ a i T,
           ObjectItem a i ∈ items → depends_on (mRTTI i) T → T ∉ primitives →
           length (filter (λ T', T' = T) (classes_of items)) = 1%nat)
      ∧ (∀ T, T ∈ primitives →
           length (filter (λ T', T' = T) (classes_of items)) = 0%nat).
Proof.
  intros Hnull.
  split; [intros T s HT; unfold QueueRTTI; by destruct (decide _)|].
  split; [intros T s HT; unfold QueueRTTI; by destruct (decide _)|].
  destruct (Write_session inObject inRTTI k Hnull)
    as (D & items & s' & Hrun & HO & HI & Hcq & Hq & Hcap).
  eexists _, s'. split; [done|].
  destruct HO as [O1 [C1 C2 C3 C4 C5] O3 O4 O5 O6 O7]. rewrite Hcq, app_nil_r in *.
  split; [done|]. split; [done|].
  split; [by rewrite O3, (proj1 (render_counts _ _))|]. split.
  - intros a i T Hin Hdep Hp. apply NoDup_filter_eq; [done|].
    apply list_elem_of_lookup_1 in Hin as [j Hj].
    destruct (ordered_depends _ j a i T O6 Hj Hdep Hp) as (k' & _ & Hk').
    apply elem_of_classes_of. by exists k'.
  - intros T HT.
    rewrite filter_eq_nil; [done|]. intros HT'. by apply (C3 T).
Qed.

(** The object graph is checked by running over the heap. *)
Definition well_typedb : bool :=
  forallb (λ e : N * ObjectData,
    forallb (λ tp : RTTIPtr * Pointer,
               (tp.2 =? nullptr) || (tp.1 =? GetRTTI (object tp.2)))
            (pointers_of (class_actions (GetRTTI e.2) (Members e.2))))
    (map_to_list heap).

Lemma class_actions_nil inRTTI : pointers_of (class_actions inRTTI []) = [].
Proof. done. Qed.

Lemma well_typedb_correct : well_typedb = true → well_typed.
Proof.
  unfold well_typedb, well_typed, references. rewrite forallb_forall.
  intros H a T p Hin Hp. unfold object in Hin at 1 2.
  destruct (heap !! a) as [o|] eqn:Ho.
  - rewrite (lookup_total_correct _ _ _ Ho) in Hin.
    specialize (H (a, o)). rewrite forallb_forall in H.
    assert (Hao : In (a, o) (map_to_list heap)).
    { apply list_elem_of_In. by apply elem_of_map_to_list. }
    specialize (H Hao (T, p)). cbn in H.
    apply list_elem_of_In in Hin. apply H in Hin.
    apply orb_true_iff in Hin as [Hz|Ht].
    + apply N.eqb_eq in Hz. done.
    + by apply N.eqb_eq in Ht.
  - rewrite lookup_total_alt, Ho in Hin. cbn [default GetRTTI Members inhabitant
      ObjectData_inhabited] in Hin. by apply elem_of_nil in Hin.
Qed.

(** ** The claims as the specification states them

    The stream positions of the records of a class, by its name. *)
Definition declaration_at (ts : list Token) (k : nat) (T : RTTIPtr) : Prop :=
  ts !! k = Some (TDataType Declare)
  ∧ ts !! S k = Some (TName (RTTI.GetName (rtti T))).

Definition object_record_at (ts : list Token) (j : nat) (T : RTTIPtr) : Prop :=
  ts !! j = Some (TDataType Object)
  ∧ ts !! S j = Some (TName (RTTI.GetName (rtti T))).

(** The number of class descriptions with the name [name]. *)
Fixpoint declarations_of (name : string) (ts : list Token) : nat :=
  match ts with
  | [] => 0
  | (TDataType Declare) :: ts' =>
      match ts' with
      | TName n :: _ => if decide (n = name) then S (declarations_of name ts')
                        else declarations_of name ts'
      | _ => declarations_of name ts'
      end
  | _ :: ts' => declarations_of name ts'
  end.

(** The classes among the written objects and the member types that their
    descriptions refer to. *)
Definition class_in_use (m : gmap N ObjectInfo) (T : RTTIPtr) : Prop :=
  ∃ a i, m !! a = Some i ∧ (mRTTI i = T ∨ T ∈ member_types (mRTTI i)).

(** C2 as stated: every class in use has a description, which stands before
    every record that names the class. *)
Definition every_class_is_declared_first (ts : list Token) (m : gmap N ObjectInfo) :
    Prop :=
  ∀ T, class_in_use m T →
       ∃ k, declaration_at ts k T ∧ ∀ j, object_record_at ts j T → (k < j)%nat.

(** C6 as stated: every class in use has exactly one description. *)
Definition every_class_has_one_declaration (ts : list Token) (m : gmap N ObjectInfo) :
    Prop :=
  ∀ T, class_in_use m T → declarations_of (RTTI.GetName (rtti T)) ts = 1%nat.

(* ===================================================================== *)
(** * The member functions on any serializer *)
(* ===================================================================== *)

(** ** What a sequence of steps does to the stream and to the counters *)

Lemma run_actions_mStream acts s :
  mStream (run_actions acts s)
  = puts (tokens (mIdentifierMap (run_actions acts s)) acts) (mStream s).
Proof.
  rewrite <- (with_stream_id s) at 1. by rewrite run_actions_with_stream.
Qed.

Lemma puts_prefix ts os : written os `prefix_of` written (puts ts os).
Proof.
  revert os. induction ts as [|t ts IH]; intros os; [done|].
  cbn [puts fold_left]. fold (puts ts (put t os)).
  etrans; [|apply IH]. unfold put.
  destruct (failbit os); [done|].
  destruct (room os) as [[|n]|]; cbn; try done; by apply prefix_app_r.
Qed.

(** A stream that has not failed has taken every write. *)
Lemma puts_good ts os :
  failbit (puts ts os) = false →
  failbit os = false ∧ written (puts ts os) = written os ++ ts.
Proof.
  revert os. induction ts as [|t ts IH]; intros os H.
  - by rewrite app_nil_r.
  - cbn [puts fold_left] in *. fold (puts ts (put t os)) in *.
    destruct (IH _ H) as [Hf ->]. revert Hf. unfold put.
    destruct (failbit os) eqn:Hos; [congruence|].
    destruct (room os) as [[|n]|]; cbn; try done; by rewrite <- app_assoc.
Qed.

Lemma run_actions_fail acts s :
  fail s = true → mStream (run_actions acts s) = mStream s.
Proof. intros Hf. by rewrite run_actions_mStream, puts_failed. Qed.

Lemma run_action_next_mono s a :
  mNextIdentifier s ≤ mNextIdentifier (run_action s a).
Proof.
  destruct a as [t|T|T p]; cbn [run_action].
  - done.
  - by rewrite (proj1 (QueueRTTI_objects T s)).
  - destruct (decide (p = nullptr)) as [->|Hp]; [done|].
    destruct (mIdentifierMap s !! p) as [i|] eqn:Hi.
    + by rewrite (WritePointerData_known _ _ i).
    + rewrite WritePointerData_new by done. cbn. lia.
Qed.

Lemma run_actions_next_mono acts s :
  mNextIdentifier s ≤ mNextIdentifier (run_actions acts s).
Proof.
  revert s. induction acts as [|a acts IH]; intros s; [done|].
  etrans; [apply (run_action_next_mono s a)|apply IH].
Qed.

(** ** [WriteObject] and the two loops, unfolded *)

Lemma object_actions_no_queue inObject i T :
  AQueueRTTI T ∉ object_actions inObject i.
Proof.
  unfold object_actions. rewrite elem_of_app, elem_of_map.
  intros [(t & H & _)|H]; [done|]. by apply class_actions_no_queue in H.
Qed.

Lemma WriteObject_eq fuel inObject i s :
  mIdentifierMap s !! inObject = Some i →
  WriteObject fuel inObject s
  = (s1 ← WriteObject_classes fuel (QueueRTTI (mRTTI i) s);
     if decide (inObject = nullptr) then AssertionFailure
     else Returns (run_actions (object_actions inObject i) s1)).
Proof.
  intros Hi. unfold WriteObject. rewrite Hi.
  destruct (WriteObject_classes fuel (QueueRTTI (mRTTI i) s)) as [s1| |]; [|done..].
  cbn [mbind Outcome_bind]. unfold WriteClassData.
  destruct (decide (inObject = nullptr)); [done|].
  rewrite WriteClassData_members_actions.
  unfold object_actions. by rewrite run_actions_app.
Qed.

Lemma WriteObject_returns fuel inObject s s' :
  WriteObject fuel inObject s = Returns s' →
  ∃ i s1,
    mIdentifierMap s !! inObject = Some i ∧ inObject ≠ nullptr
    ∧ WriteObject_classes fuel (QueueRTTI (mRTTI i) s) = Returns s1
    ∧ s' = run_actions (object_actions inObject i) s1.
Proof.
  destruct (mIdentifierMap s !! inObject) as [i|] eqn:Hi.
  - rewrite (WriteObject_eq fuel inObject i s Hi).
    destruct (WriteObject_classes fuel _) as [s1| |] eqn:Hrun; [|done..].
    cbn [mbind Outcome_bind]. destruct (decide _) as [|Hnull]; [done|].
    intros [= <-]. by exists i, s1.
  - unfold WriteObject. by rewrite Hi.
Qed.

Lemma map_insert_lookup k v m : is_Some (map_insert k v m !! k).
Proof.
  unfold map_insert. destruct (m !! k) eqn:Hk; [by rewrite Hk|].
  by rewrite lookup_insert_eq.
Qed.

Lemma map_insert_subseteq k v m : m ⊆ map_insert k v m.
Proof.
  unfold map_insert. destruct (m !! k) eqn:Hk; [done|]. by apply insert_subseteq.
Qed.

Lemma ClsInv_new U os : ClsInv U [] (ObjectStreamOut_new os).
Proof.
  split; cbn.
  - apply NoDup_nil_2.
  - intros T. rewrite elem_of_initial_class_set, elem_of_nil. tauto.
  - intros T H. by apply elem_of_nil in H.
  - intros T T' H. by apply elem_of_nil in H.
  - intros T H. by apply elem_of_nil in H.
Qed.

(** ** Pointer resolution, twice *)

(** X5. Two calls of [WritePointerData] for the same pointer, one after the
    other and whatever the serializer was before: both write a hint and the
    same identifier; the second call changes nothing but the stream, so the
    object is queued at most once and keeps the class of the first call,
    the class given at the second call being ignored. *)
Theorem WritePointerData_twice R1 R2 inPointer s :
  ∃ identifier s0,
    WritePointerData R1 inPointer s = WriteIdentifier identifier (HintNextItem s0)
    ∧ WritePointerData R2 inPointer (WritePointerData R1 inPointer s)
      = WriteIdentifier identifier
          (HintNextItem (WritePointerData R1 inPointer s))
    ∧ mObjectQueue (WritePointerData R2 inPointer (WritePointerData R1 inPointer s))
      = mObjectQueue (WritePointerData R1 inPointer s)
    ∧ mIdentifierMap (WritePointerData R2 inPointer (WritePointerData R1 inPointer s))
      = mIdentifierMap (WritePointerData R1 inPointer s)
    ∧ mNextIdentifier (WritePointerData R2 inPointer (WritePointerData R1 inPointer s))
      = mNextIdentifier (WritePointerData R1 inPointer s)
    ∧ (mIdentifierMap s !! inPointer = None → inPointer ≠ nullptr →
       mIdentifierMap (WritePointerData R2 inPointer (WritePointerData R1 inPointer s))
         !! inPointer = Some (MakeInfo (mNextIdentifier s) R1)
       ∧ mObjectQueue (WritePointerData R2 inPointer (WritePointerData R1 inPointer s))
         = mObjectQueue s ++ [inPointer]).
Proof.
  destruct (decide (inPointer = nullptr)) as [->|Hp].
  - exists sNullIdentifier, s. rewrite !WritePointerData_null.
    do 5 (split; [done|]). done.
  - destruct (mIdentifierMap s !! inPointer) as [i|] eqn:Hi.
    + exists (mIdentifier i), s. rewrite (WritePointerData_known R1 _ i) by done.
      rewrite (WritePointerData_known R2 _ i) by done.
      do 5 (split; [done|]). done.
    + exists (mNextIdentifier s), (allocate R1 inPointer s).
      rewrite (WritePointerData_new R1) by done.
      rewrite (WritePointerData_known R2 _ (MakeInfo (mNextIdentifier s) R1));
        [|done|cbn; by rewrite lookup_insert_eq].
      do 5 (split; [done|]). intros _ _. cbn. by rewrite lookup_insert_eq.
Qed.

(** ** [Write] where it cannot succeed *)

(** What a sequence of steps does to the object queue and to the
    identifier map: it queues, once each, the pointers of its
    [WritePointerData] that are not null and had no identifier, and gives
    them one. *)
Lemma run_actions_object_state acts s :
  ∃ new,
    mObjectQueue (run_actions acts s) = mObjectQueue s ++ new
    ∧ NoDup new
    ∧ (∀ p, p ∈ new ↔ p ≠ nullptr ∧ mIdentifierMap s !! p = None
                      ∧ ∃ T, APointerData T p ∈ acts)
    ∧ (∀ p, is_Some (mIdentifierMap (run_actions acts s) !! p)
            ↔ is_Some (mIdentifierMap s !! p) ∨ p ∈ new).
Proof.
  revert s. induction acts as [|a acts IH]; intros s.
  - exists []. cbn. rewrite app_nil_r. split; [done|]. split; [apply NoDup_nil_2|].
    split; intros p; rewrite !elem_of_nil; [|tauto].
    split; [done|]. intros (_ & _ & T & H). by apply elem_of_nil in H.
  - cbn [run_actions fold_left]. fold (run_actions acts (run_action s a)).
    destruct (IH (run_action s a)) as (new & E & Hnd & Hnew & Hmap).
    assert (Hcase : (∃ T0 p0, a = APointerData T0 p0 ∧ p0 ≠ nullptr
                              ∧ mIdentifierMap s !! p0 = None)
                    ∨ (mObjectQueue (run_action s a) = mObjectQueue s
                       ∧ mIdentifierMap (run_action s a) = mIdentifierMap s
                       ∧ ∀ T0 p0, a = APointerData T0 p0 →
                           p0 = nullptr ∨ is_Some (mIdentifierMap s !! p0))).
    { destruct a as [t|T0|T0 p0].
      - right. by split; [|split].
      - right. destruct (QueueRTTI_objects T0 s) as (_ & ? & ?). by split; [|split].
      - destruct (decide (p0 = nullptr)) as [->|Hp].
        + right. split; [done|]. split; [done|]. intros ? ? [= _ <-]. by left.
        + destruct (mIdentifierMap s !! p0) as [i|] eqn:Hi.
          * right. cbn [run_action]. rewrite (WritePointerData_known _ _ i) by done.
            split; [done|]. split; [done|]. intros ? ? [= _ <-]. right. by rewrite Hi.
          * left. by exists T0, p0. }
    destruct Hcase as [(T0 & p0 & -> & Hp & Hi)|(Eq & Em & Hold)].
    + assert (Es : mObjectQueue (run_action s (APointerData T0 p0))
                   = mObjectQueue s ++ [p0]
                   ∧ mIdentifierMap (run_action s (APointerData T0 p0))
                     = <[p0 := MakeInfo (mNextIdentifier s) T0]> (mIdentifierMap s)).
      { cbn [run_action]. by rewrite WritePointerData_new. }
      destruct Es as [Eq Em]. exists (p0 :: new).
      rewrite E, Eq, <- app_assoc. split; [done|]. split.
      { constructor; [|done]. rewrite Hnew, Em, lookup_insert_eq. naive_solver. }
      split; intros p.
      * rewrite elem_of_cons, Hnew, Em, lookup_insert_None.
        destruct (decide (p = p0)) as [->|Hne].
        -- split; [|intros _; by left]. intros _.
           split; [done|]. split; [done|]. exists T0. by left.
        -- split.
           ++ intros [?|(H1 & [H2 _] & T & H3)]; [done|].
              split; [done|]. split; [done|]. exists T. by right.
           ++ intros (H1 & H2 & T & H3). right. split; [done|].
              split; [split; [done|congruence]|]. exists T.
              apply elem_of_cons in H3 as [[= _ ?]|H3]; done.
      * rewrite Hmap, Em, lookup_insert_is_Some, elem_of_cons.
        destruct (decide (p = p0)) as [->|Hne].
        -- split; intros _; [right; by left|left; by left].
        -- split.
           ++ intros [[?|[_ ?]]|?]; [congruence|by left|right; by right].
           ++ intros [?|[?|?]]; [left; right; split; [congruence|done]
                                |done|by right].
    + exists new. rewrite E, Eq. split; [done|]. split; [done|].
      split; intros p.
      * rewrite Hnew, Em. split.
        -- intros (H1 & H2 & T & H3). split; [done|]. split; [done|].
           exists T. by right.
        -- intros (H1 & H2 & T & H3). split; [done|]. split; [done|].
           exists T. apply elem_of_cons in H3 as [<-|H3]; [|done].
           destruct (Hold T p eq_refl) as [?|[? ?]]; [done|congruence].
      * by rewrite Hmap, Em.
Qed.

(** [Write] on a stream that has failed. *)
Lemma Write_failed fuel inObject inRTTI s :
  inObject ≠ nullptr → fail s = true →
  ∃ i,
    map_insert inObject (MakeInfo (mNextIdentifier s) inRTTI) (mIdentifierMap s)
      !! inObject = Some i
    ∧ Write fuel inObject inRTTI s
      = Returns
          (false,
           run_actions (object_actions inObject i)
             (QueueRTTI (mRTTI i)
                (set_mIdentifierMap
                   (map_insert inObject (MakeInfo (mNextIdentifier s) inRTTI))
                   (set_mNextIdentifier N.succ s))))
    ∧ mStream
        (run_actions (object_actions inObject i)
           (QueueRTTI (mRTTI i)
              (set_mIdentifierMap
                 (map_insert inObject (MakeInfo (mNextIdentifier s) inRTTI))
                 (set_mNextIdentifier N.succ s))))
      = mStream s.
Proof.
  intros Hnull Hf. unfold Write.
  set (s0 := set_mIdentifierMap _ _).
  destruct (map_insert_lookup inObject (MakeInfo (mNextIdentifier s) inRTTI)
              (mIdentifierMap s)) as [i Hi].
  exists i. split; [done|].
  change (mIdentifierMap s0 !! inObject = Some i) in Hi.
  assert (Hf0 : fail (QueueRTTI (mRTTI i) s0) = true).
  { unfold fail. by rewrite QueueRTTI_mStream. }
  rewrite (WriteObject_eq fuel inObject i s0 Hi).
  rewrite (WriteObject_classes_stop fuel _ (or_intror Hf0)).
  cbn [mbind Outcome_bind]. destruct (decide (inObject = nullptr)); [done|].
  set (s1 := run_actions _ _).
  assert (Hs1 : mStream s1 = mStream s).
  { unfold s1. rewrite run_actions_fail by done. by rewrite QueueRTTI_mStream. }
  assert (Hf1 : fail s1 = true) by (unfold fail; by rewrite Hs1).
  cbn [mbind Outcome_bind].
  rewrite (Write_linked_stop fuel fuel s1 (or_intror Hf1)).
  cbn [mbind Outcome_bind]. by rewrite Hf1.
Qed.

(** X4. [Write] on a stream that has already failed, for a root that is
    not null and with any serializer: both loops are skipped, so it returns
    [false] at once (the embedding needs no iteration), and the stream is
    as it was.  The root is registered all the same and an identifier is
    used up.  The object queue has lost nothing and has gained, once each,
    exactly the objects that the members of the root point to and that had
    no identifier before the call (the root itself apart); these objects,
    and the root, are the objects that have got an identifier. *)
Theorem Write_on_a_failed_stream fuel inObject inRTTI s :
  inObject ≠ nullptr → fail s = true →
  ∃ i s' new,
    Write fuel inObject inRTTI s = Returns (false, s')
    ∧ mStream s' = mStream s
    ∧ mIdentifierMap s' !! inObject = Some i
    ∧ mNextIdentifier s < mNextIdentifier s'
    ∧ registered (mIdentifierMap s') (object_actions inObject i)
    ∧ mObjectQueue s' = mObjectQueue s ++ new
    ∧ NoDup new
    ∧ (∀ p, p ∈ new ↔ p ≠ nullptr ∧ p ≠ inObject
                      ∧ mIdentifierMap s !! p = None
                      ∧ ∃ T, APointerData T p ∈ object_actions inObject i)
    ∧ (∀ p, is_Some (mIdentifierMap s' !! p)
            ↔ is_Some (mIdentifierMap s !! p) ∨ p = inObject ∨ p ∈ new).
Proof.
  intros Hnull Hf.
  destruct (Write_failed fuel inObject inRTTI s Hnull Hf) as (i & Hi & Hrun & Hs).
  set (s0 := set_mIdentifierMap
               (map_insert inObject (MakeInfo (mNextIdentifier s) inRTTI))
               (set_mNextIdentifier N.succ s)) in *.
  change (mIdentifierMap s0 !! inObject = Some i) in Hi.
  set (s1 := run_actions (object_actions inObject i) (QueueRTTI (mRTTI i) s0)) in *.
  destruct (QueueRTTI_objects (mRTTI i) s0) as (F1 & F2 & F3).
  destruct (run_actions_object_state (object_actions inObject i)
              (QueueRTTI (mRTTI i) s0)) as (new & Eq & Hnd & Hnew & Hmap).
  fold s1 in Eq, Hmap. rewrite F3 in Eq. rewrite F2 in Hnew, Hmap.
  assert (Hs0 : ∀ p, mIdentifierMap s0 !! p = None
                     ↔ p ≠ inObject ∧ mIdentifierMap s !! p = None).
  { intros p. unfold s0, map_insert. cbn.
    destruct (mIdentifierMap s !! inObject) as [j|] eqn:Hj.
    - split; [|tauto]. intros Hp. split; [|done]. intros ->. congruence.
    - rewrite lookup_insert_None. split; [intros [? ?]; by split|].
      intros [? ?]. by split. }
  assert (Hs0' : ∀ p, is_Some (mIdentifierMap s0 !! p)
                      ↔ is_Some (mIdentifierMap s !! p) ∨ p = inObject).
  { intros p. rewrite <- !not_eq_None_Some, Hs0.
    destruct (decide (p = inObject)); [tauto|].
    destruct (mIdentifierMap s !! p).
    - split; [intros _; by left|]. by intros _ [_ ?].
    - split; [intros H; by destruct H|]. by intros [?|?]. }
  exists i, s1, new. split; [done|]. split; [done|]. split.
  { eapply lookup_weaken; [exact Hi|]. rewrite <- F2. apply run_actions_map_mono. }
  split.
  { pose proof (run_actions_next_mono (object_actions inObject i)
                  (QueueRTTI (mRTTI i) s0)) as H.
    rewrite F1 in H.
    change (mNextIdentifier s0) with (N.succ (mNextIdentifier s)) in H.
    unfold s1. lia. }
  split; [apply run_actions_registered|].
  split; [done|]. split; [done|]. split.
  - intros p. rewrite Hnew, Hs0. tauto.
  - intros p. rewrite Hmap, Hs0'. tauto.
Qed.

(** X3. [Write] of a null root never returns: the root is registered and
    found, the class descriptions and the header of the record are
    written, and then [JPH_ASSERT(inInstance)] of [WriteClassData] fails.
    From a new serializer that is what happens on every stream, once the
    class loop has the iterations it needs. *)
Theorem Write_of_a_null_root inRTTI k capacity :
  (∀ fuel s r, Write fuel nullptr inRTTI s ≠ Returns r)
  ∧ Write (enough_fuel nullptr inRTTI + k) nullptr inRTTI
      (ObjectStreamOut_new (open_stream capacity)) = AssertionFailure.
Proof.
  split.
  - intros fuel s r. unfold Write.
    set (s0 := set_mIdentifierMap _ _).
    destruct (map_insert_lookup nullptr (MakeInfo (mNextIdentifier s) inRTTI)
                (mIdentifierMap s)) as [i Hi].
    change (mIdentifierMap s0 !! nullptr = Some i) in Hi.
    rewrite (WriteObject_eq fuel nullptr i s0 Hi).
    by destruct (WriteObject_classes fuel _).
  - unfold Write.
    set (i := MakeInfo 1 inRTTI).
    set (new os := set_mIdentifierMap (map_insert nullptr i)
                     (set_mNextIdentifier N.succ (ObjectStreamOut_new os))).
    change ((s ← WriteObject (enough_fuel nullptr inRTTI + k) nullptr
                   (new (open_stream capacity));
             s ← Write_linked (enough_fuel nullptr inRTTI + k)
                   (enough_fuel nullptr inRTTI + k) s;
             Returns (negb (fail s), s)) = AssertionFailure).
    assert (Hi : ∀ os, mIdentifierMap (new os) !! nullptr = Some i).
    { intros os. unfold new, map_insert. cbn. by rewrite lookup_empty, lookup_insert_eq. }
    rewrite (WriteObject_eq _ nullptr i _ (Hi _)).
    assert (HC : ClsInv (class_universe inRTTI) []
                   (QueueRTTI inRTTI (new (open_stream None)))).
    { apply ClsInv_QueueRTTI; [by left|].
      by apply (ClsInv_same _ _ (ObjectStreamOut_new (open_stream None))), ClsInv_new. }
    assert (Hs : healthy (QueueRTTI inRTTI (new (open_stream None)))).
    { unfold healthy. by rewrite QueueRTTI_mStream. }
    destruct (WriteObject_classes_healthy (class_universe inRTTI)
                (enough_fuel nullptr inRTTI + k) (class_universe_members inRTTI)
                [] _ HC Hs)
      as (D' & s1 & Hrun & _ & _ & _ & _ & _ & _ & _ & _ & Hfollow).
    { unfold enough_fuel. cbn [length]. lia. }
    destruct capacity as [c|].
    + destruct (Hfollow c (QueueRTTI inRTTI (new (open_stream (Some c)))))
        as (sf' & Hrunf & _).
      { apply (follows_run_actions c [AQueueRTTI inRTTI]); [done|].
        split; [apply open_stream_clip|done]. }
      cbn [mRTTI i]. by rewrite Hrunf.
    + cbn [mRTTI i]. by rewrite Hrun.
Qed.

(** ** What [WriteObject] and the loops keep *)

Section Preserved.

(** A property of the serializer that the elementary steps and the two
    [pop] keep. *)
Variable P : ObjectStreamOut → Prop.
Hypothesis P_actions : ∀ acts s, P s → P (run_actions acts s).
Hypothesis P_class_pop : ∀ s, P s → P (set_mClassQueue pop s).
Hypothesis P_object_pop : ∀ s, P s → P (set_mObjectQueue pop s).

Lemma WriteObject_classes_keeps fuel s s' :
  WriteObject_classes fuel s = Returns s' → P s → P s'.
Proof.
  revert s. induction fuel as [|fuel IH]; intros s; cbn [WriteObject_classes];
    destruct (mClassQueue s) as [|T q]; try (by intros [= <-]);
    destruct (fail s); try (by intros [= <-]).
  intros H Hs. apply (IH _ H), P_class_pop.
  rewrite WriteRTTI_actions. by apply P_actions.
Qed.

Lemma WriteObject_keeps fuel a s s' :
  WriteObject fuel a s = Returns s' → P s → P s'.
Proof.
  intros (i & s1 & Hi & Hnull & Hrun & ->)%WriteObject_returns Hs.
  apply P_actions, (WriteObject_classes_keeps _ _ _ Hrun).
  by apply (P_actions [AQueueRTTI (mRTTI i)]).
Qed.

Lemma Write_linked_keeps fuel n s s' :
  Write_linked fuel n s = Returns s' → P s → P s'.
Proof.
  revert s. induction n as [|n IH]; intros s; cbn [Write_linked];
    destruct (mObjectQueue s) as [|a q]; try (by intros [= <-]);
    destruct (fail s); try (by intros [= <-]).
  destruct (WriteObject fuel a s) as [s1| |] eqn:Hrun; [|done..].
  cbn [mbind Outcome_bind]. intros H Hs.
  apply (IH _ H), P_object_pop. by apply (WriteObject_keeps _ _ _ _ Hrun).
Qed.

End Preserved.

(** [s'] has the output, the identifiers and the classes of [s], and
    perhaps more. *)
Definition extends (s s' : ObjectStreamOut) : Prop :=
  out s `prefix_of` out s'
  ∧ mIdentifierMap s ⊆ mIdentifierMap s'
  ∧ mClassSet s ⊆ mClassSet s'
  ∧ mNextIdentifier s ≤ mNextIdentifier s'.

Lemma extends_run_actions s0 acts s :
  extends s0 s → extends s0 (run_actions acts s).
Proof.
  intros (H1 & H2 & H3 & H4). split; [|split; [|split]].
  - etrans; [exact H1|]. unfold out. rewrite run_actions_mStream. apply puts_prefix.
  - etrans; [exact H2|]. apply run_actions_map_mono.
  - etrans; [exact H3|]. apply run_actions_set_mono.
  - etrans; [exact H4|]. apply run_actions_next_mono.
Qed.

(** X8. Whatever the serializer was before, a call of [Write] that
    returns has only added to it: the stream starts with what it held,
    every object that had an identifier has the same identifier and the
    same class afterwards, every class of the class set is still there,
    and the identifier counter is higher than it was. *)
Theorem Write_only_extends fuel inObject inRTTI s ok s' :
  Write fuel inObject inRTTI s = Returns (ok, s') →
  out s `prefix_of` out s'
  ∧ (∀ a i, mIdentifierMap s !! a = Some i → mIdentifierMap s' !! a = Some i)
  ∧ (∀ T, T ∈ mClassSet s → T ∈ mClassSet s')
  ∧ mNextIdentifier s < mNextIdentifier s'.
Proof.
  unfold Write. set (s0 := set_mIdentifierMap _ _).
  destruct (WriteObject fuel inObject s0) as [s1| |] eqn:Hrun1; [|done..].
  cbn [mbind Outcome_bind].
  destruct (Write_linked fuel fuel s1) as [s2| |] eqn:Hrun2; [|done..].
  cbn [mbind Outcome_bind]. intros [= <- <-].
  assert (H0 : extends s0 s0) by done.
  assert (Hcpop : ∀ s1, extends s0 s1 → extends s0 (set_mClassQueue pop s1)) by done.
  assert (Hopop : ∀ s1, extends s0 s1 → extends s0 (set_mObjectQueue pop s1)) by done.
  assert (H2 : extends s0 s2).
  { apply (Write_linked_keeps (extends s0)) with (fuel := fuel) (n := fuel) (s := s1);
      [apply extends_run_actions|done..|].
    apply (WriteObject_keeps (extends s0)) with (fuel := fuel) (a := inObject) (s := s0);
      [apply extends_run_actions|done..]. }
  destruct H2 as (E1 & E2 & E3 & E4).
  split; [done|]. split.
  { intros a i Hi. eapply lookup_weaken; [|exact E2].
    eapply lookup_weaken; [exact Hi|]. apply map_insert_subseteq. }
  split; [intros T HT; by apply E3|].
  change (mNextIdentifier s0) with (N.succ (mNextIdentifier s)) in E4. lia.
Qed.

(** ** The assertions *)

(** Every object of the object queue is not null and has an identifier. *)
Definition queue_registered (s : ObjectStreamOut) : Prop :=
  ∀ a, a ∈ mObjectQueue s → a ≠ nullptr ∧ is_Some (mIdentifierMap s !! a).

Lemma queue_registered_run_action s a :
  queue_registered s → queue_registered (run_action s a).
Proof.
  intros HQ. destruct a as [t|T|T p]; cbn [run_action].
  - done.
  - destruct (QueueRTTI_objects T s) as (_ & E2 & E3). intros b.
    rewrite E2, E3. apply HQ.
  - destruct (decide (p = nullptr)) as [->|Hp]; [done|].
    destruct (mIdentifierMap s !! p) as [i|] eqn:Hi.
    + by rewrite (WritePointerData_known _ _ i).
    + rewrite WritePointerData_new by done. intros b. cbn. unfold push.
      rewrite elem_of_app, list_elem_of_singleton. intros [Hb| ->].
      * destruct (HQ b Hb) as [Hn [j Hj]]. split; [done|]. exists j.
        rewrite lookup_insert_ne; [done|]. intros ->. congruence.
      * split; [done|]. by rewrite lookup_insert_eq.
Qed.

Lemma queue_registered_run_actions acts s :
  queue_registered s → queue_registered (run_actions acts s).
Proof.
  revert s. induction acts as [|a acts IH]; intros s HQ; [done|].
  by apply IH, queue_registered_run_action.
Qed.

Lemma queue_registered_pop s :
  queue_registered s → queue_registered (set_mObjectQueue pop s).
Proof.
  intros HQ a Ha. apply HQ. cbn in Ha. destruct (mObjectQueue s); [done|].
  by right.
Qed.

Lemma WriteObject_classes_no_assertion fuel s :
  WriteObject_classes fuel s ≠ AssertionFailure.
Proof.
  revert s. induction fuel as [|fuel IH]; intros s; cbn [WriteObject_classes];
    destruct (mClassQueue s); try done; by destruct (fail s).
Qed.

Lemma WriteObject_no_assertion fuel a s :
  a ≠ nullptr → is_Some (mIdentifierMap s !! a) →
  WriteObject fuel a s ≠ AssertionFailure.
Proof.
  intros Hn [i Hi]. rewrite (WriteObject_eq fuel a i s Hi).
  destruct (WriteObject_classes fuel _) as [s1| |] eqn:Hrun; cbn [mbind Outcome_bind].
  - by destruct (decide _).
  - by apply WriteObject_classes_no_assertion in Hrun.
  - done.
Qed.

Lemma Write_linked_no_assertion fuel n s :
  queue_registered s → Write_linked fuel n s ≠ AssertionFailure.
Proof.
  revert s. induction n as [|n IH]; intros s HQ; cbn [Write_linked];
    destruct (mObjectQueue s) as [|a q] eqn:Hq; try done;
    destruct (fail s); try done.
  assert (Ha : a ∈ mObjectQueue s) by (rewrite Hq; by left).
  destruct (HQ a Ha) as [Hn Hi].
  destruct (WriteObject fuel a s) as [s1| |] eqn:Hrun; cbn [mbind Outcome_bind].
  - apply IH, queue_registered_pop.
    apply (WriteObject_keeps queue_registered) with (fuel := fuel) (a := a) (s := s);
      [intros acts s2; apply queue_registered_run_actions|done..].
  - by apply WriteObject_no_assertion in Hrun.
  - done.
Qed.

(** X9. In a serializer where every queued object is not null and has an
    identifier, as in a new one, [Write] of a root that is not null trips
    neither [JPH_ASSERT(i != mIdentifierMap.end())] nor
    [JPH_ASSERT(inInstance)], with any number of iterations; and when it
    returns, the serializer is again such a serializer. *)
Theorem Write_assertions_hold fuel inObject inRTTI s :
  inObject ≠ nullptr → queue_registered s →
  Write fuel inObject inRTTI s ≠ AssertionFailure
  ∧ (∀ ok s', Write fuel inObject inRTTI s = Returns (ok, s') → queue_registered s')
  ∧ (∀ os, queue_registered (ObjectStreamOut_new os)).
Proof.
  intros Hnull HQ. unfold Write. set (s0 := set_mIdentifierMap _ _).
  assert (HQ0 : queue_registered s0).
  { intros a Ha. destruct (HQ a Ha) as [Hn [i Hi]]. split; [done|]. exists i.
    eapply lookup_weaken; [exact Hi|]. apply map_insert_subseteq. }
  assert (Hkeep : ∀ fuel a s1 s2,
            WriteObject fuel a s1 = Returns s2 → queue_registered s1 →
            queue_registered s2).
  { intros fuel' a s1 s2.
    apply (WriteObject_keeps queue_registered);
      [intros acts s3; apply queue_registered_run_actions|done..]. }
  split; [|split].
  - destruct (WriteObject fuel inObject s0) as [s1| |] eqn:Hrun1;
      cbn [mbind Outcome_bind]; [| |done].
    + pose proof (Write_linked_no_assertion fuel fuel s1
                    (Hkeep _ _ _ _ Hrun1 HQ0)) as Hl.
      by destruct (Write_linked fuel fuel s1).
    + apply WriteObject_no_assertion in Hrun1; [done..|].
      apply map_insert_lookup.
  - intros ok s'.
    destruct (WriteObject fuel inObject s0) as [s1| |] eqn:Hrun1; [|done..].
    cbn [mbind Outcome_bind].
    destruct (Write_linked fuel fuel s1) as [s2| |] eqn:Hrun2; [|done..].
    cbn [mbind Outcome_bind]. intros [= <- <-].
    apply (Write_linked_keeps queue_registered) with (fuel := fuel) (n := fuel) (s := s1);
      [intros acts s3; apply queue_registered_run_actions|done
      |apply queue_registered_pop|done|by eapply Hkeep].
  - intros os a Ha. by apply elem_of_nil in Ha.
Qed.

(** ** The queues when [Write] returns *)

Lemma WriteObject_exit fuel a s s' :
  WriteObject fuel a s = Returns s' → mClassQueue s' = [] ∨ fail s' = true.
Proof.
  intros (i & s1 & Hi & Hnull & Hrun & ->)%WriteObject_returns.
  destruct (run_actions_classes_same (object_actions a i) s1
              (object_actions_no_queue a i)) as [_ Eq].
  rewrite Eq. destruct (WriteObject_classes_exit _ _ _ Hrun) as [H|H]; [by left|right].
  unfold fail. rewrite run_actions_fail; done.
Qed.

Lemma Write_linked_exit fuel n s s' :
  Write_linked fuel n s = Returns s' →
  (mObjectQueue s' = [] ∨ fail s' = true)
  ∧ (mClassQueue s = [] ∨ fail s = true → mClassQueue s' = [] ∨ fail s' = true).
Proof.
  revert s. induction n as [|n IH]; intros s; cbn [Write_linked];
    destruct (mObjectQueue s) as [|a q] eqn:Hq;
    try (intros [= <-]; split; [by left|done]);
    destruct (fail s) eqn:Hf;
    try (intros [= <-]; split; [by right|intros _; by right]);
    try (by intros [=]).
  destruct (WriteObject fuel a s) as [s1| |] eqn:Hrun;
    cbn [mbind Outcome_bind]; [|intros [=]..].
  intros H. destruct (IH _ H) as [H1 H2].
  split; [done|]. intros _. apply H2. apply (WriteObject_exit _ _ _ _ Hrun).
Qed.

(** X6. When [Write] returns [true], whatever the serializer was before,
    no work is left: the object queue and the class queue are empty.  The
    result is [false] exactly when the stream has failed, and only then can
    objects and classes stay queued. *)
Theorem Write_true_leaves_no_work fuel inObject inRTTI s ok s' :
  Write fuel inObject inRTTI s = Returns (ok, s') →
  ok = negb (fail s')
  ∧ (ok = true → mObjectQueue s' = [] ∧ mClassQueue s' = [])
  ∧ (mObjectQueue s' ≠ [] ∨ mClassQueue s' ≠ [] → ok = false ∧ fail s' = true).
Proof.
  unfold Write. set (s0 := set_mIdentifierMap _ _).
  destruct (WriteObject fuel inObject s0) as [s1| |] eqn:Hrun1; [|done..].
  cbn [mbind Outcome_bind].
  destruct (Write_linked fuel fuel s1) as [s2| |] eqn:Hrun2; [|done..].
  cbn [mbind Outcome_bind]. intros [= <- <-].
  destruct (Write_linked_exit _ _ _ _ Hrun2) as [H1 H2].
  specialize (H2 (WriteObject_exit _ _ _ _ Hrun1)).
  split; [done|]. destruct (fail s2) eqn:Hf; cbn.
  - split; [done|]. by intros _.
  - split.
    + intros _. destruct H1 as [H1|H1]; [|done]. by destruct H2 as [H2|H2].
    + destruct H1 as [H1|H1]; [|done]. destruct H2 as [H2|H2]; [|done].
      intros [H|H]; done.
Qed.

(** ** A root that was written before *)

(** A step that is no [QueueRTTI] and whose pointer, if it has one, is null
    or has an identifier changes the stream and nothing else. *)
Lemma run_action_known s a :
  registered (mIdentifierMap s) [a] → (∀ T, a ≠ AQueueRTTI T) →
  run_action s a
  = with_stream (puts (action_tokens (mIdentifierMap s) a) (mStream s)) s.
Proof.
  intros Hr Hq. destruct a as [t|T|T p]; cbn [run_action action_tokens].
  - done.
  - by destruct (Hq T).
  - unfold pointer_identifier. destruct (decide (p ≠ nullptr)) as [Hp|Hp].
    + destruct (Hr T p) as [i Hi]; [by left|done|].
      rewrite (WritePointerData_known _ _ i) by done. by rewrite Hi.
    + assert (p = nullptr) as -> by (by destruct (decide (p = nullptr)); [|destruct Hp]).
      by rewrite WritePointerData_null.
Qed.

Lemma run_actions_known acts s :
  registered (mIdentifierMap s) acts → (∀ T, AQueueRTTI T ∉ acts) →
  run_actions acts s
  = with_stream (puts (tokens (mIdentifierMap s) acts) (mStream s)) s.
Proof.
  revert s. induction acts as [|a acts IH]; intros s Hr Hq.
  - cbn. by rewrite with_stream_id.
  - change (a :: acts) with ([a] ++ acts) in Hr.
    apply registered_app in Hr as [Ha Hr].
    cbn [run_actions fold_left]. fold (run_actions acts (run_action s a)).
    rewrite run_action_known; [|done|intros T ->; apply (Hq T); by left].
    rewrite IH; [|done|intros T H; apply (Hq T); by right].
    change (tokens (mIdentifierMap s) (a :: acts))
      with (action_tokens (mIdentifierMap s) a ++ tokens (mIdentifierMap s) acts).
    by rewrite puts_app.
Qed.

(** X7. After a session that has written the object graph of a root, a
    second [Write] of the same root on the same serializer, with any class
    and any number of iterations, returns [true] and writes the record of
    the root once more, with the identifier 1 and the class of the first
    call, and nothing else: no class description, no other object.  The
    identifier map and the class set are as they were; the identifier that
    the second call took for the root is used for no object. *)
Theorem Write_again inObject inRTTI inRTTI' k fuel :
  inObject ≠ nullptr →
  ∃ s1 s2,
    Write (enough_fuel inObject inRTTI + k) inObject inRTTI
      (ObjectStreamOut_new (open_stream None)) = Returns (true, s1)
    ∧ Write fuel inObject inRTTI' s1 = Returns (true, s2)
    ∧ out s2
      = out s1 ++ object_header inObject (MakeInfo 1 inRTTI)
        ++ tokens (mIdentifierMap s1)
             (class_actions inRTTI (Members (object inObject)))
    ∧ declaration_count (out s2) = declaration_count (out s1)
    ∧ object_count (out s2) = S (object_count (out s1))
    ∧ mIdentifierMap s2 = mIdentifierMap s1
    ∧ mClassSet s2 = mClassSet s1
    ∧ mNextIdentifier s2 = mNextIdentifier s1 + 1.
Proof.
  intros Hnull.
  destruct (Write_session inObject inRTTI k Hnull)
    as (D & items & s1 & Hrun & HO & HI & Hcq & Hq & _).
  set (i := MakeInfo 1 inRTTI) in *.
  set (all := map ClassItem D ++ ObjectItem inObject i :: items) in *.
  destruct HO as [O1 O2 O3 O4 O5 O6 O7].
  assert (Hin : ObjectItem inObject i ∈ all).
  { apply elem_of_app. right. by left. }
  pose proof (O5 _ _ Hin) as Hi.
  assert (Hset : inRTTI ∈ mClassSet s1).
  { apply list_elem_of_lookup_1 in Hin as [j Hj].
    destruct (O6 j inObject i Hj) as [Hd _]. apply (cls_set _ _ _ O2).
    destruct Hd as [Hd|(k' & _ & Hk')]; [by left|right].
    rewrite Hcq, app_nil_r. apply elem_of_classes_of. by exists k'. }
  assert (Hreg : registered (mIdentifierMap s1) (object_actions inObject i)).
  { intros T p HT. apply (O4 T p), elem_of_flat_map. by exists (ObjectItem inObject i). }
  set (s0 := set_mNextIdentifier N.succ s1).
  assert (E0 : set_mIdentifierMap (map_insert inObject (MakeInfo (mNextIdentifier s1) inRTTI'))
                 s0 = s0).
  { unfold set_mIdentifierMap, map_insert. cbn. by rewrite Hi. }
  assert (EQ : QueueRTTI (mRTTI i) s0 = s0).
  { unfold QueueRTTI. by destruct (decide _). }
  pose proof (run_actions_known (object_actions inObject i) s0 Hreg
                (object_actions_no_queue inObject i)) as Eknown.
  destruct (run_actions_out (object_actions inObject i) s0 O1) as [Hs2 Eout].
  set (s2 := run_actions (object_actions inObject i) s0) in *.
  assert (Em : mIdentifierMap s2 = mIdentifierMap s1) by (by rewrite Eknown).
  exists s1, s2. split; [done|]. split.
  { unfold Write. fold s0. rewrite E0.
    rewrite (WriteObject_eq fuel inObject i s0 Hi), EQ.
    rewrite (WriteObject_classes_stop fuel s0 (or_introl Hcq)).
    cbn [mbind Outcome_bind]. destruct (decide (inObject = nullptr)); [done|].
    fold s2. cbn [mbind Outcome_bind].
    rewrite (Write_linked_stop fuel fuel s2); [|left; by rewrite Eknown].
    cbn [mbind Outcome_bind]. unfold fail. by rewrite (proj2 Hs2). }
  assert (Eout' : out s2 = out s1 ++ tokens (mIdentifierMap s1) (object_actions inObject i)).
  { by rewrite Eout, Em. }
  split.
  { rewrite Eout'. unfold object_actions. by rewrite tokens_app, tokens_emit. }
  destruct (object_record_counts (mIdentifierMap s1) inObject i) as [C1 C2].
  unfold declaration_count, object_count in *.
  rewrite Eout', !List.filter_app, !length_app, C1, C2.
  split; [lia|]. split; [lia|]. split; [done|].
  rewrite Eknown. split; [done|]. cbn. lia.
Qed.

(** ** The identifiers in the stream *)

(** X10. When a session returns [true], every identifier in the stream
    refers to a record of the stream: a pointer that is not null, wherever
    it is written, is written as a hint and the identifier of an object
    whose record is in the output; that identifier is not the null
    identifier, and it is the identifier of no other record.  No condition
    on the classes that the pointers are written with is needed. *)
Theorem Write_leaves_no_dangling_identifier inObject inRTTI k :
  inObject ≠ nullptr →
  ∃ (items : list Item) s',
    Write (enough_fuel inObject inRTTI + k) inObject inRTTI
      (ObjectStreamOut_new (open_stream None)) = Returns (true, s')
    ∧ out s' = render (mIdentifierMap s') items
    ∧ ∀ T p, APointerData T p ∈ flat_map item_actions items → p ≠ nullptr →
        ∃ i, ObjectItem p i ∈ items
             ∧ action_tokens (mIdentifierMap s') (APointerData T p)
               = [THintNextItem; TIdentifier (mIdentifier i)]
             ∧ mIdentifier i ≠ sNullIdentifier
             ∧ ∀ b j, ObjectItem b j ∈ items → mIdentifier j = mIdentifier i → b = p.
Proof.
  intros Hnull.
  destruct (Write_session inObject inRTTI k Hnull)
    as (D & items & s' & Hrun & HO & HI & Hcq & Hq & _).
  set (all := map ClassItem D ++ ObjectItem inObject (MakeInfo 1 inRTTI) :: items) in *.
  assert (Eobj : objects_of all = inObject :: objects_of items).
  { unfold all. by rewrite objects_of_app, objects_of_ClassItem. }
  destruct HO as [O1 O2 O3 O4 O5 O6 O7].
  exists all, s'. split; [done|]. split; [done|].
  intros T p Hin Hp. destruct (O4 T p Hin Hp) as [i Hi].
  assert (Hrec : ∃ i', ObjectItem p i' ∈ all).
  { apply elem_of_objects_of. rewrite Eobj.
    pose proof (proj2 (id_dom _ _ HI p) (ex_intro _ i Hi)) as Hdom.
    by rewrite Hq, app_nil_r in Hdom. }
  destruct Hrec as [i' Hin'].
  assert (i' = i) as -> by (pose proof (O5 _ _ Hin'); congruence).
  exists i. split; [done|]. split.
  { cbn. unfold pointer_identifier. destruct (decide (p ≠ nullptr)); [|done].
    by rewrite Hi. }
  split.
  { pose proof (IdInv_positive _ _ _ _ HI Hi). unfold sNullIdentifier. lia. }
  intros b j Hb Hj. apply (IdInv_injective _ _ _ _ _ _ HI (O5 _ _ Hb) Hi Hj).
Qed.

(** ** The class queue *)

(** What a sequence of steps does to the class set and the class queue:
    it queues, in order and once each, the classes of its [QueueRTTI] that
    the class set did not have. *)
Lemma run_actions_class_state acts s :
  ∃ new,
    mClassQueue (run_actions acts s) = mClassQueue s ++ new
    ∧ NoDup new
    ∧ (∀ T, T ∈ new ↔ AQueueRTTI T ∈ acts ∧ T ∉ mClassSet s)
    ∧ (∀ T, T ∈ mClassSet (run_actions acts s)
            ↔ T ∈ mClassSet s ∨ AQueueRTTI T ∈ acts).
Proof.
  revert s. induction acts as [|a acts IH]; intros s.
  - exists []. cbn. rewrite app_nil_r. split; [done|]. split; [apply NoDup_nil_2|].
    split; intros T; rewrite !elem_of_nil; tauto.
  - cbn [run_actions fold_left]. fold (run_actions acts (run_action s a)).
    destruct (IH (run_action s a)) as (new & E & Hnd & Hnew & Hset).
    assert (Hcase : (∃ T0, a = AQueueRTTI T0 ∧ T0 ∉ mClassSet s)
                    ∨ ¬ (∃ T0, a = AQueueRTTI T0 ∧ T0 ∉ mClassSet s)).
    { destruct a as [t|T0|T0 p];
        [right; by intros (? & ? & _)| |right; by intros (? & ? & _)].
      destruct (decide (T0 ∈ mClassSet s));
        [right; by intros (T1 & [= ->] & H)|left; eauto]. }
    destruct Hcase as [(T0 & -> & HT0)|Hno].
    + assert (Es : mClassSet (run_action s (AQueueRTTI T0)) = {[T0]} ∪ mClassSet s
                   ∧ mClassQueue (run_action s (AQueueRTTI T0)) = mClassQueue s ++ [T0]).
      { cbn. unfold QueueRTTI. by destruct (decide _). }
      destruct Es as [Es Eq]. exists (T0 :: new).
      rewrite E, Eq, <- app_assoc. split; [done|]. split.
      { constructor; [|done]. rewrite Hnew, Es. set_solver. }
      split; intros T.
      * rewrite !elem_of_cons, Hnew, Es, elem_of_union, elem_of_singleton.
        destruct (decide (T = T0)) as [->|Hne]; naive_solver.
      * rewrite Hset, Es, elem_of_union, elem_of_singleton, elem_of_cons.
        naive_solver.
    + assert (Es : mClassSet (run_action s a) = mClassSet s
                   ∧ mClassQueue (run_action s a) = mClassQueue s).
      { destruct a as [t|T0|T0 p]; [done| |apply WritePointerData_classes].
        cbn. unfold QueueRTTI. destruct (decide _) as [|HT0]; [done|].
        destruct Hno. by exists T0. }
      destruct Es as [Es Eq]. exists new. rewrite E, Eq. split; [done|].
      split; [done|].
      assert (Ha : ∀ T, AQueueRTTI T ∈ a :: acts ∧ T ∉ mClassSet s
                        ↔ AQueueRTTI T ∈ acts ∧ T ∉ mClassSet s).
      { intros T. rewrite elem_of_cons. naive_solver. }
      split; intros T.
      * by rewrite Hnew, Es, Ha.
      * rewrite Hset, Es, elem_of_cons.
        destruct (decide (T ∈ mClassSet s)) as [|HT]; naive_solver.
Qed.

(** X11. What [WriteRTTI] does to the class set and the class queue,
    whatever the serializer: it appends to the class queue, once each, the
    classes that [GetMemberPrimitiveType] returns for the attributes that
    cast to [SerializableAttribute] and that the class set does not have,
    and it adds them to the class set.  Attributes that do not cast, and
    attributes whose member type is null, queue nothing. *)
Theorem WriteRTTI_queues_new_member_types inRTTI s :
  ∃ new,
    mClassQueue (WriteRTTI inRTTI s) = mClassQueue s ++ new
    ∧ NoDup new
    ∧ (∀ T, T ∈ new ↔ T ∈ member_types inRTTI ∧ T ∉ mClassSet s)
    ∧ (∀ T, T ∈ mClassSet (WriteRTTI inRTTI s)
            ↔ T ∈ mClassSet s ∨ T ∈ member_types inRTTI)
    ∧ (∀ T, T ∈ member_types inRTTI
            ↔ ∃ attr, Serializable attr ∈ RTTI.Attributes (rtti inRTTI)
                      ∧ SerializableAttribute.GetMemberPrimitiveType attr = Some T).
Proof.
  rewrite WriteRTTI_actions.
  destruct (run_actions_class_state (declaration_actions inRTTI) s)
    as (new & E & Hnd & Hnew & Hset).
  exists new. split; [done|]. split; [done|].
  split; [intros T; by rewrite Hnew, declaration_actions_queue|].
  split; [intros T; by rewrite Hset, declaration_actions_queue|].
  intros T. unfold member_types. rewrite list_elem_of_omap. split.
  - intros ([attr|] & Hin & HT); [|done]. by exists attr.
  - intros (attr & Hin & HT). by exists (Serializable attr).
Qed.









(* ===================================================================== *)
(** * The claims on faults and on the order of the identifiers *)
(* ===================================================================== *)

(** C5. [Write] returns whether the stream is still good.  On a stream with
    room for [c] writes, the session ends as well; the stream holds the first
    [c] tokens of what the session writes on a stream that does not fault,
    so all that was written before the fault stays as it was written; and
    the result is [true] exactly when everything fitted.  What a session
    writes is never empty: it holds the class descriptions, the header of
    the record of the root and an indentation hint at least, so a stream
    with room for fewer writes makes [Write] return [false], with the fail
    state set and less than the whole output in the stream.  Once the
    stream has failed, the loop of [Write] takes no further object from the
    queue, and [Write] on a stream that had failed before the call returns
    [false] and leaves it as it was. *)
Theorem Write_reports_stream_fault inObject inRTTI k capacity :
  inObject ≠ nullptr →
  ∃ (full : list Token) sn ok s',
    Write (enough_fuel inObject inRTTI + k) inObject inRTTI
      (ObjectStreamOut_new (open_stream None)) = Returns (true, sn)
    ∧ out sn = full
    ∧ Write (enough_fuel inObject inRTTI + k) inObject inRTTI
        (ObjectStreamOut_new (open_stream capacity)) = Returns (ok, s')
    ∧ ok = negb (fail s')
    ∧ out s' = match capacity with Some c => take c full | None => full end
    ∧ (ok = true ↔ match capacity with
                   | Some c => (length full ≤ c)%nat
                   | None => True
                   end)
    ∧ (∀ fuel n s, fail s = true → Write_linked fuel n s = Returns s)
    ∧ (∀ t s, fail s = true → emit t s = s)
    ∧ (∃ D rest,
         full = flat_map declaration_record D
                ++ object_header inObject (MakeInfo 1 inRTTI)
                ++ THintIndentUp :: rest)
    ∧ (6 ≤ length full)%nat
    ∧ (∀ c, capacity = Some c → (c < length full)%nat →
         ok = false ∧ fail s' = true ∧ (length (out s') < length full)%nat)
    ∧ (∀ fuel s, fail s = true →
         ∃ sf, Write fuel inObject inRTTI s = Returns (false, sf)
               ∧ mStream sf = mStream s).
Proof.
  intros Hnull.
  destruct (Write_session inObject inRTTI k Hnull)
    as (D & items & sn & Hrun & HO & HI & Hcq & Hq & Hcap).
  assert (Hstop : ∀ fuel n s, fail s = true → Write_linked fuel n s = Returns s).
  { intros fuel n s Hf. destruct n; cbn; destruct (mObjectQueue s); by rewrite ?Hf. }
  assert (Hemit : ∀ t s, fail s = true → emit t s = s).
  { intros t [os ? ? ? ? ?] Hf. unfold fail in Hf. cbn in Hf.
    unfold emit, set_mStream, put. cbn. by rewrite Hf. }
  assert (Hfull : ∃ D rest,
            out sn = flat_map declaration_record D
                     ++ object_header inObject (MakeInfo 1 inRTTI)
                     ++ THintIndentUp :: rest).
  { exists D. eexists. rewrite (oi_out _ _ _ _ HO). unfold render.
    rewrite flat_map_app, tokens_app, item_actions_ClassItem, flat_map_declaration_record.
    cbn [flat_map item_actions]. unfold object_actions at 1.
    rewrite !tokens_app, tokens_emit, <- !app_assoc. do 2 f_equal. }
  assert (Hlen : (6 ≤ length (out sn))%nat).
  { destruct Hfull as (D0 & rest & ->). rewrite !length_app.
    unfold object_header. cbn [length]. lia. }
  assert (Hfailed : ∀ fuel s, fail s = true →
            ∃ sf, Write fuel inObject inRTTI s = Returns (false, sf)
                  ∧ mStream sf = mStream s).
  { intros fuel s Hf.
    destruct (Write_failed fuel inObject inRTTI s Hnull Hf) as (i & _ & Hw & Hs).
    eauto. }
  destruct capacity as [c|].
  - destruct (Hcap c) as (sf & Hrunf & Hsf).
    exists (out sn), sn, (negb (bool_decide (c < length (out sn))%nat)), sf.
    split; [done|]. split; [done|]. split; [done|]. split.
    { unfold fail. by rewrite Hsf. }
    split; [unfold out at 1; by rewrite Hsf|]. split.
    { case_bool_decide; cbn; split; intros; try done; lia. }
    split; [done|]. split; [done|]. split; [done|]. split; [done|].
    split; [|done]. intros c' [= <-] Hc.
    split; [by rewrite bool_decide_eq_true_2|]. split.
    + unfold fail. rewrite Hsf. cbn. by apply bool_decide_eq_true_2.
    + unfold out at 1. rewrite Hsf. cbn. rewrite length_take. lia.
  - exists (out sn), sn, true, sn.
    split; [done|]. split; [done|]. split; [done|]. split.
    { unfold fail. by rewrite (proj2 (oi_healthy _ _ _ _ HO)). }
    do 6 (split; [done|]). done.
Qed.

(** ** The identifiers in the order in which they appear

    The identifiers of a stream that are not the null identifier, and the
    same without repetitions, in the order of the first occurrences. *)

Definition token_identifier (t : Token) : option Identifier :=
  match t with
  | TIdentifier id => if decide (id = sNullIdentifier) then None else Some id
  | _ => None
  end.

Definition identifiers_of (ts : list Token) : list Identifier :=
  omap token_identifier ts.

Definition add_seen (seen : list Identifier) (id : Identifier) : list Identifier :=
  if decide (id ∈ seen) then seen else seen ++ [id].

Definition first_seen (ids : list Identifier) : list Identifier :=
  fold_left add_seen ids [].

(** The identifiers [1; 2; ...; n]. *)
Definition count_up (n : nat) : list Identifier :=
  map (λ k, N.of_nat k + 1) (seq 0 n).

Lemma count_up_S n : count_up (S n) = count_up n ++ [N.of_nat n + 1].
Proof. unfold count_up. by rewrite seq_S, map_app. Qed.

Lemma elem_of_count_up id n : id ∈ count_up n ↔ 1 ≤ id ≤ N.of_nat n.
Proof.
  unfold count_up. rewrite elem_of_map. setoid_rewrite elem_of_seq. split.
  - intros (k & -> & Hk). lia.
  - intros Hid. exists (N.to_nat id - 1)%nat. lia.
Qed.

Lemma identifiers_of_app ts1 ts2 :
  identifiers_of (ts1 ++ ts2) = identifiers_of ts1 ++ identifiers_of ts2.
Proof. apply omap_app. Qed.

(** A step that writes no identifier of its own and resolves no pointer. *)
Definition plain (a : Action) : Prop :=
  match a with
  | AEmit (TIdentifier _) => False
  | APointerData _ _ => False
  | _ => True
  end.

Lemma plain_identifiers m acts :
  Forall plain acts → identifiers_of (tokens m acts) = [].
Proof.
  induction 1 as [|a acts Ha _ IH]; [done|].
  cbn [tokens flat_map]. fold (tokens m acts).
  rewrite identifiers_of_app, IH, app_nil_r.
  by destruct a as [[]| |].
Qed.

Lemma declaration_actions_plain inRTTI : Forall plain (declaration_actions inRTTI).
Proof.
  unfold declaration_actions. apply Forall_app. split; [by repeat constructor|].
  apply Forall_app. split; [|by repeat constructor].
  induction (RTTI.Attributes (rtti inRTTI)) as [|a attrs IH]; [done|].
  cbn [flat_map]. apply Forall_app. split; [|done].
  unfold attribute_actions. destruct (DynamicCast a) as [attr|]; [|done].
  apply Forall_app. split.
  { destruct (SerializableAttribute.GetMemberPrimitiveType attr); by repeat constructor. }
  apply Forall_app. split; [by repeat constructor|].
  induction (SerializableAttribute.WriteDataType attr) as [|[t|n] l IHl];
    by constructor.
Qed.

(** The serializer has written the identifiers [1], [2], ... up to the last
    one it has given, each for the first time after the smaller ones; the
    identifier 1 of the root counts as seen from the start. *)
Definition counted (s : ObjectStreamOut) : Prop :=
  healthy s
  ∧ fold_left add_seen (identifiers_of (out s)) [1]
    = count_up (N.to_nat (mNextIdentifier s) - 1)
  ∧ 2 ≤ mNextIdentifier s
  ∧ ∀ a i, mIdentifierMap s !! a = Some i → 1 ≤ mIdentifier i < mNextIdentifier s.

(** An identifier that a step writes itself has been given before. *)
Definition known_identifier (s : ObjectStreamOut) (a : Action) : Prop :=
  match a with
  | AEmit (TIdentifier id) => id = sNullIdentifier ∨ 1 ≤ id < mNextIdentifier s
  | _ => True
  end.

Lemma plain_known s a : plain a → known_identifier s a.
Proof. by destruct a as [[]| |]. Qed.

Lemma known_identifier_mono s s' a :
  mNextIdentifier s ≤ mNextIdentifier s' →
  known_identifier s a → known_identifier s' a.
Proof. destruct a as [[]| |]; cbn; try done. intros Hle [?|?]; [by left|right; lia]. Qed.

Lemma counted_emit t s :
  counted s → known_identifier s (AEmit t) → counted (emit t s).
Proof.
  intros (Hh & Hseen & Hn & Hb) Hk. destruct (emit_out t s Hh) as [Hh' Eo].
  split; [done|]. split; [|by split].
  rewrite Eo, identifiers_of_app, fold_left_app, Hseen.
  change (mNextIdentifier (emit t s)) with (mNextIdentifier s).
  destruct t as [| |id| | | | |]; try done. cbn.
  destruct (decide (id = sNullIdentifier)); [done|]. cbn. unfold add_seen.
  rewrite decide_True; [done|]. apply elem_of_count_up.
  destruct Hk as [?|?]; [done|]. lia.
Qed.

Lemma counted_run_action s a :
  counted s → known_identifier s a → counted (run_action s a).
Proof.
  intros Hc Hk. destruct a as [t|T|T p]; cbn [run_action].
  - by apply counted_emit.
  - destruct (QueueRTTI_objects T s) as (F1 & F2 & F3).
    unfold counted, healthy, out. by rewrite QueueRTTI_mStream, F1, F2.
  - destruct (decide (p = nullptr)) as [->|Hp].
    { rewrite WritePointerData_null. apply counted_emit; [by apply counted_emit|].
      by left. }
    destruct (mIdentifierMap s !! p) as [i|] eqn:Hi.
    { rewrite (WritePointerData_known _ _ i) by done.
      apply counted_emit; [by apply counted_emit|]. right.
      destruct Hc as (_ & _ & _ & Hb). apply (Hb p i Hi). }
    rewrite WritePointerData_new by done.
    destruct Hc as (Hh & Hseen & Hn & Hb).
    assert (Ha : healthy (allocate T p s)) by done.
    destruct (emit_out THintNextItem _ Ha) as [H1 E1].
    destruct (emit_out (TIdentifier (mNextIdentifier s)) _ H1) as [H2 E2].
    split; [done|]. split; [|split].
    + unfold WriteIdentifier, HintNextItem. rewrite E2, E1.
      change (out (allocate T p s)) with (out s).
      rewrite !identifiers_of_app, !fold_left_app, Hseen. cbn.
      destruct (decide (mNextIdentifier s = sNullIdentifier)) as [E|_];
        [unfold sNullIdentifier in E; lia|].
      cbn. unfold add_seen. rewrite decide_False.
      * replace (N.to_nat (N.succ (mNextIdentifier s)) - 1)%nat
          with (S (N.to_nat (mNextIdentifier s) - 1)) by lia.
        rewrite count_up_S. do 2 f_equal. lia.
      * rewrite elem_of_count_up. lia.
    + cbn. lia.
    + cbn. intros a i. destruct (decide (p = a)) as [->|Hne].
      * rewrite lookup_insert_eq. intros [= <-]. cbn. lia.
      * rewrite lookup_insert_ne by done. intros Ha'.
        pose proof (Hb a i Ha'). lia.
Qed.

Lemma counted_run_actions acts s :
  counted s → Forall (known_identifier s) acts → counted (run_actions acts s).
Proof.
  revert s. induction acts as [|a acts IH]; intros s Hc Hk; [done|].
  apply Forall_cons in Hk as [Ha Hk].
  cbn [run_actions fold_left]. apply IH; [by apply counted_run_action|].
  eapply Forall_impl; [exact Hk|]. intros b. apply known_identifier_mono.
  apply run_action_next_mono.
Qed.

Lemma object_actions_known s a i :
  1 ≤ mIdentifier i < mNextIdentifier s →
  Forall (known_identifier s) (object_actions a i).
Proof.
  intros Hi. unfold object_actions. apply Forall_app. split.
  - unfold object_header. cbn [map]. do 4 (constructor; [done|]).
    constructor; [by right|constructor].
  - eapply Forall_impl; [apply data_actions_ok|].
    intros b Hb. by destruct b as [[]| |].
Qed.

(** ** What the records of a session keep *)

Section Preserved_by_records.

(** A property of the serializer that [QueueRTTI], the class descriptions,
    the records of the registered objects and the two [pop] keep. *)
Variable P : ObjectStreamOut → Prop.
Hypothesis P_queue : ∀ T s, P s → P (QueueRTTI T s).
Hypothesis P_declaration :
  ∀ T s, P s → P (run_actions (declaration_actions T) s).
Hypothesis P_object :
  ∀ a i s, P s → mIdentifierMap s !! a = Some i →
           P (run_actions (object_actions a i) s).
Hypothesis P_class_pop : ∀ s, P s → P (set_mClassQueue pop s).
Hypothesis P_object_pop : ∀ s, P s → P (set_mObjectQueue pop s).

Lemma WriteObject_classes_keeps_records fuel s s' :
  WriteObject_classes fuel s = Returns s' → P s → P s'.
Proof.
  revert s. induction fuel as [|fuel IH]; intros s; cbn [WriteObject_classes];
    destruct (mClassQueue s) as [|T q]; try (by intros [= <-]);
    destruct (fail s); try (by intros [= <-]).
  intros H Hs. apply (IH _ H), P_class_pop.
  rewrite WriteRTTI_actions. by apply P_declaration.
Qed.

Lemma WriteObject_keeps_records fuel a s s' :
  WriteObject fuel a s = Returns s' → P s → P s'.
Proof.
  intros (i & s1 & Hi & Hnull & Hrun & ->)%WriteObject_returns Hs.
  apply P_object.
  - apply (WriteObject_classes_keeps_records _ _ _ Hrun). by apply P_queue.
  - eapply lookup_weaken; [exact Hi|].
    apply (WriteObject_classes_keeps (λ x, mIdentifierMap s ⊆ mIdentifierMap x))
      with (fuel := fuel) (s := QueueRTTI (mRTTI i) s).
    + intros acts x Hx. etrans; [exact Hx|apply run_actions_map_mono].
    + done.
    + done.
    + by rewrite (proj1 (proj2 (QueueRTTI_objects _ _))).
Qed.

Lemma Write_linked_keeps_records fuel n s s' :
  Write_linked fuel n s = Returns s' → P s → P s'.
Proof.
  revert s. induction n as [|n IH]; intros s; cbn [Write_linked];
    destruct (mObjectQueue s) as [|a q]; try (by intros [= <-]);
    destruct (fail s); try (by intros [= <-]).
  destruct (WriteObject fuel a s) as [s1| |] eqn:Hrun; [|done..].
  cbn [mbind Outcome_bind]. intros H Hs.
  apply (IH _ H), P_object_pop. by apply (WriteObject_keeps_records _ _ _ _ Hrun).
Qed.

End Preserved_by_records.

(** A session from a new serializer, on a stream that does not fault, ends
    with the identifiers counted. *)
Lemma Write_counted fuel inObject inRTTI ok s' :
  Write fuel inObject inRTTI (ObjectStreamOut_new (open_stream None))
  = Returns (ok, s') →
  counted s'.
Proof.
  unfold Write. set (s0 := set_mIdentifierMap _ _).
  assert (H0 : counted s0).
  { split; [done|]. split; [done|]. split; [done|].
    intros a i. unfold s0, map_insert. cbn. rewrite lookup_empty.
    intros Hi. apply lookup_insert_Some in Hi as [[_ <-]|[_ Hi]]; [done|].
    by rewrite lookup_empty in Hi. }
  assert (Hq : ∀ T s, counted s → counted (QueueRTTI T s)).
  { intros T s Hs. by apply (counted_run_action s (AQueueRTTI T)). }
  assert (Hd : ∀ T s, counted s → counted (run_actions (declaration_actions T) s)).
  { intros T s Hs. apply counted_run_actions; [done|].
    eapply Forall_impl; [apply declaration_actions_plain|]. apply plain_known. }
  assert (Ho : ∀ a i s, counted s → mIdentifierMap s !! a = Some i →
                        counted (run_actions (object_actions a i) s)).
  { intros a i s Hs Hi. apply counted_run_actions; [done|].
    apply object_actions_known. destruct Hs as (_ & _ & _ & Hb). by apply (Hb a). }
  destruct (WriteObject fuel inObject s0) as [s1| |] eqn:Hrun1; [|done..].
  cbn [mbind Outcome_bind].
  destruct (Write_linked fuel fuel s1) as [s2| |] eqn:Hrun2; [|done..].
  cbn [mbind Outcome_bind]. intros [= _ <-].
  apply (Write_linked_keeps_records counted Hq Hd Ho) with (fuel := fuel) (n := fuel) (s := s1);
    [done..|].
  by apply (WriteObject_keeps_records counted Hq Hd Ho) with (fuel := fuel) (a := inObject) (s := s0).
Qed.

Lemma declarations_plain D : Forall plain (flat_map declaration_actions D).
Proof.
  induction D as [|T D IH]; [done|]. cbn [flat_map].
  apply Forall_app. split; [apply declaration_actions_plain|done].
Qed.

Lemma first_seen_from_one rest :
  first_seen (1 :: rest) = fold_left add_seen (1 :: rest) [1].
Proof.
  unfold first_seen. cbn [fold_left]. unfold add_seen at 2 4.
  rewrite decide_False by apply not_elem_of_nil.
  rewrite decide_True by (by left). done.
Qed.

(** C4. In a session, the identifiers are 1, 2, 3, ... in the order in which
    the objects are first met, which is also the order of their records:
    a new serializer starts at 1, the root gets 1, the object at position
    [n] of the session gets [n + 1], no identifier is 0, no two objects
    share one, and no member function changes an identifier once given.
    Every pointer that is not null, wherever it is written, is written as
    a hint and the identifier of its object, which is one of the session
    and is not 0; the header of the record of an object carries the same
    identifier.  Read from its start, the stream shows the identifiers
    other than 0 for the first time in the order 1, 2, 3, ... up to the
    number of objects. *)
Theorem Write_identifiers_count_up inObject inRTTI k :
  inObject ≠ nullptr →
  mNextIdentifier (ObjectStreamOut_new (open_stream None)) = sNullIdentifier + 1
  ∧ (∀ acts s, mIdentifierMap s ⊆ mIdentifierMap (run_actions acts s))
  ∧ ∃ (L : list Pointer) (items : list Item) s',
      Write (enough_fuel inObject inRTTI + k) inObject inRTTI
        (ObjectStreamOut_new (open_stream None)) = Returns (true, s')
      ∧ L !! 0%nat = Some inObject
      ∧ NoDup L
      ∧ (∀ a, a ∈ L ↔ is_Some (mIdentifierMap s' !! a))
      ∧ (∀ n a, L !! n = Some a →
           mIdentifier <$> mIdentifierMap s' !! a = Some (N.of_nat n + 1))
      ∧ mNextIdentifier s' = N.of_nat (length L) + 1
      ∧ (∀ a i, mIdentifierMap s' !! a = Some i → mIdentifier i ≠ sNullIdentifier)
      ∧ (∀ a b i j, mIdentifierMap s' !! a = Some i → mIdentifierMap s' !! b = Some j →
           mIdentifier i = mIdentifier j → a = b)
      ∧ out s' = render (mIdentifierMap s') items
      ∧ objects_of items = L
      ∧ (∀ T p, APointerData T p ∈ flat_map item_actions items → p ≠ nullptr →
           ∃ n, L !! n = Some p
                ∧ action_tokens (mIdentifierMap s') (APointerData T p)
                  = [THintNextItem; TIdentifier (N.of_nat n + 1)])
      ∧ (∀ a i, ObjectItem a i ∈ items →
           ∃ n, L !! n = Some a ∧ mIdentifier i = N.of_nat n + 1
                ∧ mIdentifierMap s' !! a = Some i)
      ∧ first_seen (identifiers_of (out s')) = count_up (length L).
Proof.
  intros Hnull. split; [done|]. split; [intros acts s; apply run_actions_map_mono|].
  destruct (Write_session inObject inRTTI k Hnull)
    as (D & items & s' & Hrun & HO & HI & Hcq & Hq & _).
  set (all := map ClassItem D ++ ObjectItem inObject (MakeInfo 1 inRTTI) :: items).
  assert (Eobj : objects_of all = inObject :: objects_of items).
  { unfold all. by rewrite objects_of_app, objects_of_ClassItem. }
  exists (inObject :: objects_of items), all, s'.
  pose proof HI as [I1 I2 I3 I4]. rewrite Hq, app_nil_r in *.
  assert (Hpos : ∀ a i, mIdentifierMap s' !! a = Some i →
            ∃ n, (inObject :: objects_of items) !! n = Some a
                 ∧ mIdentifier i = N.of_nat n + 1).
  { intros a i Hi.
    pose proof (proj2 (I2 a) (ex_intro _ i Hi)) as Ha.
    apply list_elem_of_lookup_1 in Ha as [n Hn].
    exists n. split; [done|]. pose proof (I3 n a Hn) as H. rewrite Hi in H.
    cbn in H. injection H as ->. lia. }
  split; [done|]. split; [done|]. split; [done|]. split; [done|]. split.
  { intros n a Hn. rewrite (I3 n a Hn). f_equal. lia. }
  split; [rewrite I4; lia|]. split.
  { intros a i Hi. pose proof (IdInv_positive _ _ _ _ HI Hi). unfold sNullIdentifier. lia. }
  split; [intros a b i j; by apply (IdInv_injective _ _ _ _ _ _ HI)|].
  split; [apply (oi_out _ _ _ _ HO)|]. split; [done|]. split.
  { intros T p Hin Hp. destruct (oi_reg _ _ _ _ HO T p Hin Hp) as [i Hi].
    destruct (Hpos p i Hi) as (n & Hn & En). exists n. split; [done|].
    cbn. unfold pointer_identifier. destruct (decide (p ≠ nullptr)); [|done].
    by rewrite Hi, <- En. }
  split.
  { intros a i Hin. pose proof (oi_info _ _ _ _ HO a i Hin) as Hi.
    destruct (Hpos a i Hi) as (n & Hn & En). by exists n. }
  destruct (Write_counted _ _ _ _ _ Hrun) as (_ & Hseen & _ & _).
  rewrite I4 in Hseen.
  replace (N.to_nat (N.of_nat (S (length (inObject :: objects_of items)))) - 1)%nat
    with (length (inObject :: objects_of items)) in Hseen by lia.
  rewrite <- Hseen.
  assert (Eids : ∃ rest, identifiers_of (out s') = 1 :: rest).
  { eexists. rewrite (oi_out _ _ _ _ HO). unfold render, all.
    rewrite flat_map_app, tokens_app, item_actions_ClassItem.
    cbn [flat_map item_actions]. unfold object_actions at 1.
    rewrite !tokens_app, tokens_emit, !identifiers_of_app.
    rewrite (plain_identifiers _ _ (declarations_plain D)). reflexivity. }
  destruct Eids as [rest ->]. apply first_seen_from_one.
Qed.

End Serializer.

(* ===================================================================== *)
(** * hash_combine *)
(* ===================================================================== *)

(** C10. [hash_combine] with no value leaves the seed as it is, and the
    functor of [JPH_MAKE_HASH_STRUCT] is the left fold, from the seed 0 and
    over the fields in their order, of the step
    [seed ^= hash(value) + 0x9e3779b9 + (seed << 6) + (seed >> 2)]; on equal
    fields it gives equal hashes. *)
Theorem hash_struct_is_a_left_fold (bits : Z) (T : Type) (hasher : T → Z) :
  (∀ ioSeed, HashCombine.hash_combine bits T hasher ioSeed [] = ioSeed)
  ∧ (∀ ioSeed inValue, HashCombine.combine bits T hasher ioSeed inValue
                       = HashCombine.spec_step bits T hasher ioSeed inValue)
  ∧ (∀ (type : Type) (fields : type → list T) (t : type),
       HashCombine.hash_struct bits T hasher fields t
       = fold_left (HashCombine.spec_step bits T hasher) (fields t) 0%Z)
  ∧ (∀ (type : Type) (fields : type → list T) (t1 t2 : type),
       fields t1 = fields t2 →
       HashCombine.hash_struct bits T hasher fields t1
       = HashCombine.hash_struct bits T hasher fields t2).
Proof.
  assert (Hstep : ∀ ioSeed inValue,
            HashCombine.combine bits T hasher ioSeed inValue
            = HashCombine.spec_step bits T hasher ioSeed inValue).
  { intros ioSeed inValue. unfold HashCombine.combine, HashCombine.spec_step,
      HashCombine.wrap. f_equal.
    by rewrite <- Zplus_mod, Zplus_mod_idemp_l. }
  split; [done|]. split; [done|]. split.
  - intros type fields t. unfold HashCombine.hash_struct.
    generalize 0%Z. induction (fields t) as [|v l IH]; intros seed; [done|].
    cbn. by rewrite IH, Hstep.
  - intros type fields t1 t2 E. unfold HashCombine.hash_struct. by rewrite E.
Qed.


(** ** More on [hash_combine] *)

Lemma hash_combine_snoc (bits : Z) (T : Type) (hasher : T → Z) ioSeed l v :
  HashCombine.hash_combine bits T hasher ioSeed (l ++ [v])
  = HashCombine.combine bits T hasher
      (HashCombine.hash_combine bits T hasher ioSeed l) v.
Proof.
  revert ioSeed. induction l as [|x l IH]; intros ioSeed; [done|]. cbn. apply IH.
Qed.

Lemma combine_unwrapped (bits : Z) (T : Type) (hasher : T → Z) ioSeed v :
  HashCombine.combine bits T hasher ioSeed v
  = Z.lxor ioSeed
      (HashCombine.wrap bits
         (hasher v + (0x9e3779b9 + Z.shiftl ioSeed 6 + Z.shiftr ioSeed 2)))%Z.
Proof.
  unfold HashCombine.combine, HashCombine.wrap. f_equal.
  rewrite <- Zplus_mod, Zplus_mod_idemp_l. f_equal. lia.
Qed.

(** X1. [hash_combine] threads the seed through the parameter pack:
    combining the values of two lists, one after the other, is combining
    the second list with the result of the first as the seed.  So the hash
    of a structure is the hash of its first fields, taken as the seed for
    the other fields. *)
Theorem hash_combine_app (bits : Z) (T : Type) (hasher : T → Z)
    (ioSeed : Z) (inRest1 inRest2 : list T) :
  HashCombine.hash_combine bits T hasher ioSeed (inRest1 ++ inRest2)
  = HashCombine.hash_combine bits T hasher
      (HashCombine.hash_combine bits T hasher ioSeed inRest1) inRest2
  ∧ (∀ (type : Type) (t : type),
       HashCombine.hash_struct bits T hasher (λ _, inRest1 ++ inRest2) t
       = HashCombine.hash_combine bits T hasher
           (HashCombine.hash_struct bits T hasher (λ _, inRest1) t) inRest2).
Proof.
  assert (H : ∀ seed,
    HashCombine.hash_combine bits T hasher seed (inRest1 ++ inRest2)
    = HashCombine.hash_combine bits T hasher
        (HashCombine.hash_combine bits T hasher seed inRest1) inRest2).
  { induction inRest1 as [|x l IH]; intros seed; [done|]. cbn. apply IH. }
  split; [apply H|]. intros type t. unfold HashCombine.hash_struct. apply H.
Qed.

(** X2. One step of [hash_combine] loses nothing of the hash of its
    value: from the same seed, two values give the same result exactly when
    their [std::hash] agree as [size_t].  So two structures that differ in
    their last field only have the same hash exactly when the hashes of
    the two last fields are equal. *)
Theorem hash_combine_last_value (bits : Z) (T : Type) (hasher : T → Z)
    (ioSeed : Z) (inRest : list T) (v1 v2 : T) :
  (HashCombine.combine bits T hasher ioSeed v1
   = HashCombine.combine bits T hasher ioSeed v2
   ↔ HashCombine.wrap bits (hasher v1) = HashCombine.wrap bits (hasher v2))
  ∧ (HashCombine.hash_combine bits T hasher ioSeed (inRest ++ [v1])
     = HashCombine.hash_combine bits T hasher ioSeed (inRest ++ [v2])
     ↔ HashCombine.wrap bits (hasher v1) = HashCombine.wrap bits (hasher v2)).
Proof.
  assert (H : ∀ seed,
    HashCombine.combine bits T hasher seed v1
    = HashCombine.combine bits T hasher seed v2
    ↔ HashCombine.wrap bits (hasher v1) = HashCombine.wrap bits (hasher v2)).
  { intros seed. rewrite !combine_unwrapped. unfold HashCombine.wrap.
    set (q := (0x9e3779b9 + Z.shiftl seed 6 + Z.shiftr seed 2)%Z).
    set (m := (2 ^ bits)%Z). split.
    - intros E.
      assert (E' : ((hasher v1 + q) mod m = (hasher v2 + q) mod m)%Z).
      { apply (f_equal (Z.lxor seed)) in E.
        by rewrite <- !Z.lxor_assoc, !Z.lxor_nilpotent, !Z.lxor_0_l in E. }
      rewrite <- (Z.add_simpl_r (hasher v1) q), <- (Z.add_simpl_r (hasher v2) q).
      by rewrite <- (Zminus_mod_idemp_l (hasher v1 + q)), E', Zminus_mod_idemp_l.
    - intros E. f_equal.
      by rewrite <- (Zplus_mod_idemp_l (hasher v1)), E, Zplus_mod_idemp_l. }
  split; [apply H|]. rewrite !hash_combine_snoc. apply H.
Qed.

(* ===================================================================== *)
(** * Examples *)
(* ===================================================================== *)

Module Example.

(** [int] is a primitive; [Node] has an [int], an attribute that is not
    serializable and a pointer to a [Node]; [Point] has two [int]. *)
Definition T_int : N := 100.
Definition T_Node : N := 1.
Definition T_Point : N := 2.

Definition Node : RTTI.t :=
  RTTI.Make "Node"
    [Serializable (SerializableAttribute.Make "value" (Some T_int) (OSWriteDataType "int"));
     OtherAttribute;
     Serializable (SerializableAttribute.Make "next" (Some T_Node)
                     [CallWriteDataType PointerTo; CallWriteName "Node"])].

Definition Point : RTTI.t :=
  RTTI.Make "Point"
    [Serializable (SerializableAttribute.Make "x" (Some T_int) (OSWriteDataType "int"));
     Serializable (SerializableAttribute.Make "y" (Some T_int) (OSWriteDataType "int"))].

Definition classes : gmap N RTTI.t :=
  {[ T_Node := Node; T_Point := Point; T_int := RTTI.Make "int" [] ]}.

Definition primitives : list N := [T_int].

Definition node (value : Z) (next : N) : ObjectData :=
  MakeObject T_Node
    [OSWriteData (Primitive "int" value); []; [CallWritePointerData T_Node next]].

Definition point (x y : Z) : ObjectData :=
  MakeObject T_Point [OSWriteData (Primitive "int" x); OSWriteData (Primitive "int" y)].

(** Two nodes that point to each other, a node that points to itself, and a
    point. *)
Definition heap : gmap N ObjectData :=
  {[ 10 := node 5 20; 20 := node 6 10; 30 := point 1 2; 40 := node 7 40 ]}.

Definition new (capacity : option nat) : ObjectStreamOut :=
  ObjectStreamOut_new primitives (open_stream capacity).

(** Scenario D of the specification: the node that points to itself. *)
Example self_reference :
  ∃ s, Write classes heap 8 40 T_Node (new None) = Returns (true, s)
       ∧ out s
         = [THintNextItem; THintNextItem; TDataType Declare; TName "Node"; TCount 3;
            THintIndentUp;
            THintNextItem; TName "value"; TDataType (Member (T_ "int"));
            THintNextItem; TName "next"; TDataType (Member PointerTo); TName "Node";
            THintIndentDown;
            THintNextItem; THintNextItem; TDataType Object; TName "Node"; TIdentifier 1;
            THintIndentUp;
            THintNextItem; TPrimitiveData (Primitive "int" 7);
            THintNextItem; TIdentifier 1;
            THintIndentDown].
Proof. eexists. split; vm_compute; reflexivity. Qed.

(** Scenario A: a point; [int] is never declared. *)
Example point_alone :
  ∃ s, Write classes heap 8 30 T_Point (new None) = Returns (true, s)
       ∧ out s
         = [THintNextItem; THintNextItem; TDataType Declare; TName "Point"; TCount 2;
            THintIndentUp;
            THintNextItem; TName "x"; TDataType (Member (T_ "int"));
            THintNextItem; TName "y"; TDataType (Member (T_ "int"));
            THintIndentDown;
            THintNextItem; THintNextItem; TDataType Object; TName "Point"; TIdentifier 1;
            THintIndentUp;
            THintNextItem; TPrimitiveData (Primitive "int" 1);
            THintNextItem; TPrimitiveData (Primitive "int" 2);
            THintIndentDown].
Proof. eexists. split; vm_compute; reflexivity. Qed.

(** A stream that faults after twenty writes: the class description is
    there, the record of the first node is cut, the second node is not
    written, and [Write] returns [false]. *)
Example fault_after_twenty :
  ∃ s, Write classes heap 8 10 T_Node (new (Some 20%nat)) = Returns (false, s)
       ∧ out s
         = [THintNextItem; THintNextItem; TDataType Declare; TName "Node"; TCount 3;
            THintIndentUp;
            THintNextItem; TName "value"; TDataType (Member (T_ "int"));
            THintNextItem; TName "next"; TDataType (Member PointerTo); TName "Node";
            THintIndentDown;
            THintNextItem; THintNextItem; TDataType Object; TName "Node"; TIdentifier 1;
            THintIndentUp].
Proof. eexists. split; vm_compute; reflexivity. Qed.

End Example.

(* ===================================================================== *)
(** * The claims on the examples *)
(* ===================================================================== *)

Lemma declarations_of_cons name t ts :
  (declarations_of name ts ≤ declarations_of name (t :: ts))%nat.
Proof.
  destruct t as [[| |]| | | | | | |]; cbn; try lia.
  destruct ts as [|[]]; try lia. destruct (decide _); lia.
Qed.

Lemma declaration_at_counted classes ts k T :
  declaration_at classes ts k T →
  (0 < declarations_of (RTTI.GetName (rtti classes T)) ts)%nat.
Proof.
  unfold declaration_at. revert k. induction ts as [|t ts IH]; intros k [H1 H2].
  - done.
  - destruct k as [|k].
    + cbn in H1, H2. injection H1 as ->. destruct ts as [|t' ts]; [done|].
      cbn in H2. injection H2 as ->. cbn. rewrite decide_True by done. lia.
    + pose proof (IH k (conj H1 H2)).
      pose proof (declarations_of_cons (RTTI.GetName (rtti classes T)) t ts). lia.
Qed.

(** C2 as stated fails on a point: [int] is the member type of both
    attributes of [Point], and the output has no description of [int]. *)
Lemma primitive_member_type_is_not_declared :
  ∃ s, Write Example.classes Example.heap
         (enough_fuel Example.classes Example.heap 30 Example.T_Point) 30
         Example.T_Point (Example.new None) = Returns (true, s)
       ∧ ¬ every_class_is_declared_first Example.classes (out s) (mIdentifierMap s).
Proof.
  eexists. split; [vm_compute; reflexivity|].
  intros H. destruct (H Example.T_int) as (k & Hk & _).
  - exists 30, (MakeInfo 1 Example.T_Point). split; [vm_compute; reflexivity|].
    right. vm_compute. left.
  - apply declaration_at_counted in Hk. vm_compute in Hk. lia.
Qed.

(** C6 as stated fails on the same point: [int] has no description, not
    one. *)
Lemma primitive_member_type_has_no_declaration :
  ∃ s, Write Example.classes Example.heap
         (enough_fuel Example.classes Example.heap 30 Example.T_Point) 30
         Example.T_Point (Example.new None) = Returns (true, s)
       ∧ ¬ every_class_has_one_declaration Example.classes (out s) (mIdentifierMap s).
Proof.
  eexists. split; [vm_compute; reflexivity|].
  intros H. pose proof (H Example.T_int) as H'. lapply H'.
  - intros Hone. vm_compute in Hone. discriminate.
  - exists 30, (MakeInfo 1 Example.T_Point). split; [vm_compute; reflexivity|].
    right. vm_compute. left.
Qed.

(** The two nodes that point to each other, from the first: the hypotheses
    of the claims hold there. *)
Lemma Write_writes_each_object_once_witness :
  (10 : N) ≠ nullptr
  ∧ well_typed Example.classes Example.heap
  ∧ ∃ items s,
      Write Example.classes Example.heap
        (enough_fuel Example.classes Example.heap 10
           (GetRTTI (object Example.heap 10)) + 0) 10
        (GetRTTI (object Example.heap 10)) (Example.new None) = Returns (true, s)
      ∧ NoDup (objects_of items)
      ∧ object_count (out s) = length (objects_of items).
Proof.
  assert (Hnull : (10 : N) ≠ nullptr) by done.
  assert (Hty : well_typed Example.classes Example.heap).
  { apply well_typedb_correct. vm_compute. reflexivity. }
  split; [exact Hnull|]. split; [exact Hty|].
  destruct (Write_writes_each_object_once Example.classes Example.heap
              Example.primitives 10 0 Hnull Hty)
    as (items & s & Hrun & _ & Hnd & _ & _ & _ & _ & Hcount & _).
  exists items, s. split; [exact Hrun|]. split; [exact Hnd|exact Hcount].
Defined.

Lemma classes_are_declared_before_use_witness :
  (10 : N) ≠ nullptr
  ∧ ∃ items s,
      Write Example.classes Example.heap
        (enough_fuel Example.classes Example.heap 10 Example.T_Node + 0) 10
        Example.T_Node (Example.new None) = Returns (true, s)
      ∧ out s = render Example.classes Example.heap (mIdentifierMap s) items.
Proof.
  assert (Hnull : (10 : N) ≠ nullptr) by done.
  split; [exact Hnull|].
  destruct (classes_are_declared_before_use Example.classes Example.heap
              Example.primitives 10 Example.T_Node 0 Hnull)
    as (_ & items & s & Hrun & Hout & _).
  exists items, s. split; [exact Hrun|exact Hout].
Defined.

Lemma WritePointerData_resolves_witness :
  IdInv [] (Example.new None)
  ∧ WritePointerData Example.T_Node 10 (Example.new None)
    = WriteIdentifier 1
        (HintNextItem
           (set_mObjectQueue (push 10)
              (set_mIdentifierMap (insert 10 (MakeInfo 1 Example.T_Node))
                 (set_mNextIdentifier N.succ (Example.new None))))).
Proof.
  assert (HI : IdInv [] (Example.new None)) by apply IdInv_new.
  split; [exact HI|].
  destruct (WritePointerData_resolves [] Example.T_Node 10 (Example.new None) HI)
    as (_ & _ & Hnew & _).
  apply Hnew; [done|reflexivity].
Defined.

Lemma Write_identifiers_count_up_witness :
  (10 : N) ≠ nullptr
  ∧ ∃ L s,
      Write Example.classes Example.heap
        (enough_fuel Example.classes Example.heap 10 Example.T_Node + 0) 10
        Example.T_Node (Example.new None) = Returns (true, s)
      ∧ L !! 0%nat = Some 10
      ∧ mNextIdentifier s = N.of_nat (length L) + 1
      ∧ first_seen (identifiers_of (out s)) = count_up (length L).
Proof.
  assert (Hnull : (10 : N) ≠ nullptr) by done.
  split; [exact Hnull|].
  destruct (Write_identifiers_count_up Example.classes Example.heap
              Example.primitives 10 Example.T_Node 0 Hnull)
    as (_ & _ & L & items & s & Hrun & H0 & _ & _ & _ & Hnext & _ & _ & _ & _
        & _ & _ & Hseen).
  exists L, s. split; [exact Hrun|]. split; [exact H0|].
  split; [exact Hnext|exact Hseen].
Defined.

Lemma Write_reports_stream_fault_witness :
  (10 : N) ≠ nullptr
  ∧ ∃ s,
      Write Example.classes Example.heap
        (enough_fuel Example.classes Example.heap 10 Example.T_Node + 0) 10
        Example.T_Node (Example.new (Some 20%nat)) = Returns (false, s)
      ∧ fail s = true.
Proof.
  assert (Hnull : (10 : N) ≠ nullptr) by done.
  split; [exact Hnull|].
  destruct (Write_reports_stream_fault Example.classes Example.heap
              Example.primitives 10 Example.T_Node 0 (Some 20%nat) Hnull)
    as (full & sn & ok & s & Hn & Hfull & Hrun & _ & _ & _ & _ & _ & _ & _ & Hlt & _).
  assert (Hlen : (20 < length full)%nat).
  { rewrite <- Hfull. vm_compute in Hn. injection Hn as <-.
    apply Nat.ltb_lt. vm_compute. reflexivity. }
  destruct (Hlt 20%nat eq_refl Hlen) as (Hok & Hf & _).
  exists s. split; [by rewrite <- Hok|exact Hf].
Defined.

Lemma each_class_is_declared_once_witness :
  (10 : N) ≠ nullptr
  ∧ ∃ items s,
      Write Example.classes Example.heap
        (enough_fuel Example.classes Example.heap 10 Example.T_Node + 0) 10
        Example.T_Node (Example.new None) = Returns (true, s)
      ∧ NoDup (classes_of items).
Proof.
  assert (Hnull : (10 : N) ≠ nullptr) by done.
  split; [exact Hnull|].
  destruct (each_class_is_declared_once Example.classes Example.heap
              Example.primitives 10 Example.T_Node 0 Hnull)
    as (_ & _ & items & s & Hrun & _ & Hnd & _).
  exists items, s. split; [exact Hrun|exact Hnd].
Defined.

(** The node that points to itself. *)
Lemma Write_terminates_witness :
  (40 : N) ≠ nullptr
  ∧ ∃ ok s,
      Write Example.classes Example.heap
        (enough_fuel Example.classes Example.heap 40 Example.T_Node + 0) 40
        Example.T_Node (Example.new (Some 3%nat)) = Returns (ok, s).
Proof.
  assert (Hnull : (40 : N) ≠ nullptr) by done.
  split; [exact Hnull|].
  exact (proj1 (Write_terminates Example.classes Example.heap Example.primitives
                  40 Example.T_Node 0 (Some 3%nat) Hnull)).
Defined.

(** [Node] has an attribute that is not serializable. *)
Lemma declared_count_counts_skipped_attributes_witness :
  healthy (Example.new None)
  ∧ OtherAttribute ∈ RTTI.Attributes (rtti Example.classes Example.T_Node)
  ∧ (length (serializable_attributes Example.classes Example.T_Node)
     < length (RTTI.Attributes (rtti Example.classes Example.T_Node)))%nat.
Proof.
  assert (Hh : healthy (Example.new None)) by (split; reflexivity).
  assert (Hin : OtherAttribute ∈ RTTI.Attributes (rtti Example.classes Example.T_Node)).
  { vm_compute. right. left. }
  split; [exact Hh|]. split; [exact Hin|].
  destruct (declared_count_counts_skipped_attributes Example.classes Example.T_Node
              [] (Example.new None) Hh) as (_ & _ & _ & _ & Hlt).
  exact (proj1 (Hlt Hin)).
Defined.

Lemma primitives_are_never_declared_witness :
  (10 : N) ≠ nullptr
  ∧ ∃ items s,
      Write Example.classes Example.heap
        (enough_fuel Example.classes Example.heap 10 Example.T_Node + 0) 10
        Example.T_Node (Example.new None) = Returns (true, s)
      ∧ ∀ T, T ∈ classes_of items → T ∉ Example.primitives.
Proof.
  assert (Hnull : (10 : N) ≠ nullptr) by done.
  split; [exact Hnull|].
  destruct (primitives_are_never_declared Example.classes Example.heap
              Example.primitives 10 Example.T_Node 0 Hnull)
    as (_ & _ & _ & items & s & Hrun & _ & Hprim & _).
  exists items, s. split; [exact Hrun|exact Hprim].
Defined.

(** ** Further properties on the examples *)

(** A serializer on a stream that has failed already. *)
Lemma Write_on_a_failed_stream_witness :
  (10 : N) ≠ nullptr
  ∧ fail (ObjectStreamOut_new Example.primitives (MakeStream [] None true)) = true
  ∧ ∃ s',
      Write Example.classes Example.heap 0 10 Example.T_Node
        (ObjectStreamOut_new Example.primitives (MakeStream [] None true))
      = Returns (false, s')
      ∧ out s' = [].
Proof.
  assert (Hnull : (10 : N) ≠ nullptr) by done.
  assert (Hf : fail (ObjectStreamOut_new Example.primitives (MakeStream [] None true))
               = true) by reflexivity.
  split; [exact Hnull|]. split; [exact Hf|].
  destruct (Write_on_a_failed_stream Example.classes Example.heap 0 10
              Example.T_Node _ Hnull Hf) as (i & s' & new & Hrun & Hs & _).
  exists s'. split; [exact Hrun|]. unfold out. rewrite Hs. reflexivity.
Defined.

Lemma Write_true_leaves_no_work_witness :
  ∃ s',
    Write Example.classes Example.heap 8 10 Example.T_Node (Example.new None)
    = Returns (true, s')
    ∧ mObjectQueue s' = [] ∧ mClassQueue s' = [].
Proof.
  assert (H : ∃ s', Write Example.classes Example.heap 8 10 Example.T_Node
                      (Example.new None) = Returns (true, s')).
  { eexists. vm_compute. reflexivity. }
  destruct H as [s' Hrun]. exists s'. split; [exact Hrun|].
  exact (proj1 (proj2 (Write_true_leaves_no_work Example.classes Example.heap
                         8 10 Example.T_Node (Example.new None) true s' Hrun))
           eq_refl).
Defined.

(** The node that points to itself, written twice; the second time as if
    it were a point. *)
Lemma Write_again_witness :
  (40 : N) ≠ nullptr
  ∧ ∃ s1 s2,
      Write Example.classes Example.heap
        (enough_fuel Example.classes Example.heap 40 Example.T_Node + 0) 40
        Example.T_Node (Example.new None) = Returns (true, s1)
      ∧ Write Example.classes Example.heap 0 40 Example.T_Point s1
        = Returns (true, s2)
      ∧ object_count (out s2) = S (object_count (out s1))
      ∧ declaration_count (out s2) = declaration_count (out s1).
Proof.
  assert (Hnull : (40 : N) ≠ nullptr) by done.
  split; [exact Hnull|].
  destruct (Write_again Example.classes Example.heap Example.primitives 40
              Example.T_Node Example.T_Point 0 0 Hnull)
    as (s1 & s2 & Hrun1 & Hrun2 & _ & Hd & Ho & _).
  exists s1, s2. split; [exact Hrun1|]. split; [exact Hrun2|].
  split; [exact Ho|exact Hd].
Defined.

Lemma Write_only_extends_witness :
  ∃ s',
    Write Example.classes Example.heap 8 30 Example.T_Point (Example.new None)
    = Returns (true, s')
    ∧ mNextIdentifier (Example.new None) < mNextIdentifier s'.
Proof.
  assert (H : ∃ s', Write Example.classes Example.heap 8 30 Example.T_Point
                      (Example.new None) = Returns (true, s')).
  { eexists. vm_compute. reflexivity. }
  destruct H as [s' Hrun]. exists s'. split; [exact Hrun|].
  exact (proj2 (proj2 (proj2 (Write_only_extends Example.classes Example.heap
                                8 30 Example.T_Point (Example.new None) true s'
                                Hrun)))).
Defined.

Lemma Write_assertions_hold_witness :
  (10 : N) ≠ nullptr
  ∧ queue_registered (Example.new None)
  ∧ Write Example.classes Example.heap 1 10 Example.T_Node (Example.new None)
    ≠ AssertionFailure.
Proof.
  assert (Hnull : (10 : N) ≠ nullptr) by done.
  assert (HQ : queue_registered (Example.new None)).
  { intros a Ha. inversion Ha. }
  split; [exact Hnull|]. split; [exact HQ|].
  exact (proj1 (Write_assertions_hold Example.classes Example.heap
                  Example.primitives 1 10 Example.T_Node (Example.new None)
                  Hnull HQ)).
Defined.

Lemma Write_leaves_no_dangling_identifier_witness :
  (10 : N) ≠ nullptr
  ∧ ∃ items s',
      Write Example.classes Example.heap
        (enough_fuel Example.classes Example.heap 10 Example.T_Node + 0) 10
        Example.T_Node (Example.new None) = Returns (true, s')
      ∧ out s' = render Example.classes Example.heap (mIdentifierMap s') items.
Proof.
  assert (Hnull : (10 : N) ≠ nullptr) by done.
  split; [exact Hnull|].
  destruct (Write_leaves_no_dangling_identifier Example.classes Example.heap
              Example.primitives 10 Example.T_Node 0 Hnull)
    as (items & s' & Hrun & Hout & _).
  exists items, s'. split; [exact Hrun|exact Hout].
Defined.

